(** * The inline-assembly (Yul) parser of libyul/AsmParser.cpp

    A shallow embedding of [solidity::yul::Parser]: the token interface, the
    AST, the parser state, the ten grammar productions, the numeric-literal
    validator and the instruction-name tables, followed by the properties
    the specification states about them. *)

From Stdlib Require Import List String Ascii Bool Arith ZArith NArith Lia.
From Stdlib Require Import OrdersEx RelationClasses.
Import ListNotations.

Set Implicit Arguments.
Set Warnings "-register-all".
Local Open Scope string_scope.
Local Open Scope list_scope.

(** ** Tokens and source locations *)

(** Modelled from the spec: the token kinds of liblangutil/Token.h, which
    is not part of the sources at hand.  The kinds are the ones section 6 of
    the specification enumerates; [Other] stands for every kind the
    parser only meets in a [default:] branch. *)
Module Token.
Inductive t : Set :=
| LBrace | RBrace | LParen | RParen | Comma | Colon | AssemblyAssign
| Sub | GreaterThan
| Let | Function | If | Switch | Case | Default | For | Break | Continue
| Identifier | Return | Byte | Bool | Address
| StringLiteral | Number | TrueLiteral | FalseLiteral
| EOS | Other.

Definition eqb (a b : t) : bool :=
  match a, b with
  | LBrace, LBrace | RBrace, RBrace | LParen, LParen | RParen, RParen
  | Comma, Comma | Colon, Colon | AssemblyAssign, AssemblyAssign
  | Sub, Sub | GreaterThan, GreaterThan
  | Let, Let | Function, Function | If, If | Switch, Switch | Case, Case
  | Default, Default | For, For | Break, Break | Continue, Continue
  | Identifier, Identifier | Return, Return | Byte, Byte | Bool, Bool
  | Address, Address
  | StringLiteral, StringLiteral | Number, Number
  | TrueLiteral, TrueLiteral | FalseLiteral, FalseLiteral
  | EOS, EOS | Other, Other => true
  | _, _ => false
  end.

(** The name the scanner's client uses for a kind in a diagnostic. *)
Definition friendlyName (a : t) : string :=
  match a with
  | LBrace => "'{'" | RBrace => "'}'" | LParen => "'('" | RParen => "')'"
  | Comma => "','" | Colon => "':'" | AssemblyAssign => "':='"
  | Sub => "'-'" | GreaterThan => "'>'"
  | Let => "'let'" | Function => "'function'" | If => "'if'"
  | Switch => "'switch'" | Case => "'case'" | Default => "'default'"
  | For => "'for'" | Break => "'break'" | Continue => "'continue'"
  | Identifier => "identifier" | Return => "'return'" | Byte => "'byte'"
  | Bool => "'bool'" | Address => "'address'"
  | StringLiteral => "string literal" | Number => "number"
  | TrueLiteral => "'true'" | FalseLiteral => "'false'"
  | EOS => "end of source" | Other => "token"
  end.
End Token.

(** [langutil::SourceLocation], without the pointer to the character
    stream: byte offsets [start] and [end]. *)
Record SourceLocation : Set := mkLoc { loc_start : Z; loc_end : Z }.

(** One pre-lexed token: kind, lexeme and span. *)
Record TokenInfo : Set := mkTok {
  tok_kind : Token.t;
  tok_literal : string;
  tok_location : SourceLocation
}.

(** Modelled from the spec: the scanner of liblangutil/Scanner.h, reduced to
    the token interface of section 6.  The input is pre-lexed: [sc_tokens]
    holds the current token and the ones after it; once they are used up the
    scanner reports [EOS] at [sc_eos] for ever.  [sc_period] is the mode flag
    that allows a period inside identifiers. *)
Record Scanner : Set := mkScanner {
  sc_tokens : list TokenInfo;
  sc_eos : SourceLocation;
  sc_period : bool
}.

Definition scannerCurrent (s : Scanner) : TokenInfo :=
  match sc_tokens s with
  | t :: _ => t
  | [] => mkTok Token.EOS EmptyString (sc_eos s)
  end.

Definition scannerNext (s : Scanner) : Scanner :=
  mkScanner (tl (sc_tokens s)) (sc_eos s) (sc_period s).

Definition supportPeriodInIdentifier (b : bool) (s : Scanner) : Scanner :=
  mkScanner (sc_tokens s) (sc_eos s) b.

(** ** The AST (libyul/AsmData.h) *)

Definition YulString := string.

Record Identifier : Set := mkIdentifier {
  id_location : SourceLocation;
  id_name : YulString
}.

Module LiteralKind.
Inductive t : Set := Number | Boolean | String.
End LiteralKind.

(** The type name of a literal or of a typed name is the empty string when
    the source leaves it default-constructed. *)
Record Literal : Set := mkLiteral {
  lit_location : SourceLocation;
  lit_kind : LiteralKind.t;
  lit_value : YulString;
  lit_type : YulString
}.

Record TypedName : Set := mkTypedName {
  tn_location : SourceLocation;
  tn_name : YulString;
  tn_type : YulString
}.

Inductive Expression : Set :=
| ExprFunctionCall (location : SourceLocation) (functionName : Identifier)
                   (arguments : list Expression)
| ExprIdentifier (i : Identifier)
| ExprLiteral (l : Literal).

(** [Parser::ElementaryOperation] is a variant over the same three
    alternatives as [Expression]. *)
Definition ElementaryOperation := Expression.

Inductive Statement : Set :=
| ExpressionStatement (location : SourceLocation) (expression : Expression)
| Assignment (location : SourceLocation) (variableNames : list Identifier)
             (value : Expression)
| VariableDeclaration (location : SourceLocation) (variables : list TypedName)
                      (value : option Expression)
| FunctionDefinition (location : SourceLocation) (name : YulString)
                     (parameters returnVariables : list TypedName)
                     (body : Block)
| If (location : SourceLocation) (condition : Expression) (body : Block)
| Switch (location : SourceLocation) (expression : Expression)
         (cases : list Case)
| ForLoop (location : SourceLocation) (pre : Block) (condition : Expression)
          (post : Block) (body : Block)
| Break (location : SourceLocation)
| Continue (location : SourceLocation)
| Leave (location : SourceLocation)
| BlockStatement (b : Block)
with Block : Set :=
| mkBlock (location : SourceLocation) (statements : list Statement)
with Case : Set :=
| mkCase (location : SourceLocation) (value : option Literal) (body : Block).

Definition block_location (b : Block) : SourceLocation :=
  match b with mkBlock l _ => l end.
Definition block_statements (b : Block) : list Statement :=
  match b with mkBlock _ s => s end.
Definition case_value (c : Case) : option Literal :=
  match c with mkCase _ v _ => v end.
Definition case_body (c : Case) : Block :=
  match c with mkCase _ _ b => b end.
Definition case_location (c : Case) : SourceLocation :=
  match c with mkCase l _ _ => l end.

(** [locationOf] on an expression. *)
Definition locationOf (e : Expression) : SourceLocation :=
  match e with
  | ExprFunctionCall l _ _ => l
  | ExprIdentifier i => id_location i
  | ExprLiteral l => lit_location l
  end.

(** ** Dialect and diagnostics *)

(** Modelled from the spec: the flavour of libyul/Dialect.h, which is not part
    of the sources at hand.  The specification has a loose and a typed
    flavour; the parser only ever compares with [AsmFlavour::Yul], the typed
    one. *)
Module AsmFlavour.
Inductive t : Set := Loose | Yul.
Definition isYul (f : t) : bool :=
  match f with Yul => true | Loose => false end.
End AsmFlavour.

Record Dialect : Type := mkDialect {
  flavour : AsmFlavour.t;
  builtin : YulString -> bool
}.

Module ErrorType.
Inductive t : Set := SyntaxError | ParserError.
End ErrorType.

(** One diagnostic of the error reporter. *)
Record Error : Set := mkError {
  err_type : ErrorType.t;
  err_location : SourceLocation;
  err_message : string
}.

Definition isParserError (e : Error) : bool :=
  match err_type e with ErrorType.ParserError => true | _ => false end.
Definition isSyntaxError (e : Error) : bool :=
  match err_type e with ErrorType.SyntaxError => true | _ => false end.

(** ** Parser state *)

Module ForLoopComponent.
Inductive t : Set := None | ForLoopPre | ForLoopPost | ForLoopBody.
End ForLoopComponent.

(** The members of [Parser] (and of its base [ParserBase]) that change
    during a parse, with the error list of the reporter it writes to. *)
Record PState : Set := mkPState {
  m_scanner : Scanner;
  m_errors : list Error;
  m_recursionDepth : nat;
  m_insideFunction : bool;
  m_currentForLoopComponent : ForLoopComponent.t
}.

Definition setScanner (s : Scanner) (st : PState) : PState :=
  mkPState s (m_errors st) (m_recursionDepth st) (m_insideFunction st)
           (m_currentForLoopComponent st).
Definition setErrors (e : list Error) (st : PState) : PState :=
  mkPState (m_scanner st) e (m_recursionDepth st) (m_insideFunction st)
           (m_currentForLoopComponent st).
Definition setRecursionDepth (d : nat) (st : PState) : PState :=
  mkPState (m_scanner st) (m_errors st) d (m_insideFunction st)
           (m_currentForLoopComponent st).
Definition setInsideFunction (b : bool) (st : PState) : PState :=
  mkPState (m_scanner st) (m_errors st) (m_recursionDepth st) b
           (m_currentForLoopComponent st).
Definition setCurrentForLoopComponent (c : ForLoopComponent.t) (st : PState)
  : PState :=
  mkPState (m_scanner st) (m_errors st) (m_recursionDepth st)
           (m_insideFunction st) c.

Definition tokens (st : PState) : list TokenInfo := sc_tokens (m_scanner st).

(** ** The parser monad: state, fatal unwinding, failed assertions, fuel *)

(** What a call leaves behind: a value, a [FatalError] unwinding through the
    caller, a failed [yulAssert] (an exception [parse] does not catch), or
    no fuel left in the model. *)
Inductive Result (A : Type) : Type :=
| Ok (a : A) (st : PState)
| Fatal (st : PState)
| AssertFail (msg : string)
| OutOfFuel.
Arguments Fatal {A} st.
Arguments AssertFail {A} msg.
Arguments OutOfFuel {A}.

Definition M (A : Type) : Type := PState -> Result A.

Definition ret {A} (a : A) : M A := fun st => Ok a st.

Definition bind {A B} (m : M A) (k : A -> M B) : M B :=
  fun st =>
    match m st with
    | Ok a st' => k a st'
    | Fatal st' => Fatal st'
    | AssertFail msg => AssertFail msg
    | OutOfFuel => OutOfFuel
    end.

Declare Scope parser_scope.
Delimit Scope parser_scope with parser.
Notation "x <- m ;; k" := (bind m (fun x => k))
  (at level 61, m at next level, right associativity) : parser_scope.
Notation "m ;;; k" := (bind m (fun _ => k))
  (at level 61, right associativity) : parser_scope.
Local Open Scope parser_scope.

Definition gets {A} (f : PState -> A) : M A := fun st => Ok (f st) st.
Definition modify (f : PState -> PState) : M unit := fun st => Ok tt (f st).
Definition yulAssertFail {A} (msg : string) : M A := fun _ => AssertFail msg.
Definition outOfFuel {A} : M A := fun _ => OutOfFuel.

(** A C++ loop: [body] either goes round again with a new loop state or
    leaves the loop with a value; [n] bounds the number of rounds. *)
Fixpoint loop {T A} (n : nat) (body : T -> M (T + A)) (s : T) : M A :=
  match n with
  | O => outOfFuel
  | S n' =>
      r <- body s ;;
      match r with
      | inl s' => loop n' body s'
      | inr a => ret a
      end
  end.

(** Every round of every loop of the parser that goes round again has consumed
    a token, so one more round than there are tokens left is enough. *)
Definition while {T A} (body : T -> M (T + A)) (s : T) : M A :=
  fun st => loop (S (List.length (tokens st))) body s st.

Definition continue_ {T A} (s : T) : M (T + A) := ret (inl s).
Definition break_ {T A} (a : A) : M (T + A) := ret (inr a).

(** The double-quote character, for the messages that quote a name. *)
Definition dquote : string := String "034"%char EmptyString.

(** The ten grammar productions. *)
Inductive Production : Set :=
| PBlock | PStatement | PCase | PForLoop | PExpression
| PElementaryOperation | PVariableDeclaration | PFunctionDefinition
| PCall (_initialOp : ElementaryOperation) | PTypedName.

Definition forget {A} (r : Result A) : Result unit :=
  match r with
  | Ok _ st => Ok tt st
  | Fatal st => Fatal st
  | AssertFail msg => AssertFail msg
  | OutOfFuel => OutOfFuel
  end.

(** ** The parser *)

Section Parser.

(** The dialect descriptor [m_dialect], the bound of the recursion guard, and
    the conversion of a lexeme to a 256-bit unsigned integer ([u256]'s
    constructor from a string, [None] when it throws). *)
Variable m_dialect : Dialect.
Variable maxRecursionDepth : nat.
Variable u256 : string -> option N.

(** *** The token interface and the diagnostic sink *)

Definition currentToken (st : PState) : Token.t :=
  tok_kind (scannerCurrent (m_scanner st)).
Definition currentLiteral (st : PState) : string :=
  tok_literal (scannerCurrent (m_scanner st)).
Definition location (st : PState) : SourceLocation :=
  tok_location (scannerCurrent (m_scanner st)).
Definition position (st : PState) : Z := loc_start (location st).
(** Modelled from the spec: [endPosition] of liblangutil/ParserBase.h, the
    end offset that closes a node's location; [parseBlock] reads it on the
    closing brace, before that brace is consumed, for a location that ends one
    past the brace, so it is the end of the current token. *)
Definition endPosition (st : PState) : Z := loc_end (location st).

(** Consuming the current token ([advance], [m_scanner->next()]). *)
Definition skipToken (st : PState) : PState :=
  setScanner (scannerNext (m_scanner st)) st.
Definition advance : M unit := modify skipToken.

Definition reportError (ty : ErrorType.t) (l : SourceLocation) (msg : string)
  (st : PState) : PState :=
  setErrors (m_errors st ++ [mkError ty l msg]) st.

(** Modelled from the spec: [ErrorReporter::syntaxError], a recoverable
    diagnostic: it is recorded and parsing goes on. *)
Definition syntaxError (l : SourceLocation) (msg : string) : M unit :=
  modify (reportError ErrorType.SyntaxError l msg).

(** Modelled from the spec: [ParserBase::fatalParserError], which records a
    diagnostic at the current token and unwinds the parse. *)
Definition fatalParserError {A} (msg : string) : M A :=
  fun st => Fatal (reportError ErrorType.ParserError (location st) msg st).

(** Modelled from the spec: [ParserBase::expectToken]: the current token has
    to be of kind [_value], a mismatch is a fatal error that names the
    expected kind; the token is consumed unless [_advance] is false. *)
Definition expectToken (_value : Token.t) (_advance : bool) : M unit :=
  tok <- gets currentToken ;;
  if Token.eqb tok _value
  then (if _advance then advance else ret tt)
  else fatalParserError ("Expected " ++ Token.friendlyName _value
                         ++ " but got " ++ Token.friendlyName tok)%string.

(** Modelled from the spec: [RecursionGuard] of liblangutil/ParserBase.h, a
    scoped counter: it goes up on entry to a production and down on exit,
    normal or unwinding, and entering with the counter beyond the bound is a
    fatal error. *)
Definition increaseRecursionDepth : M unit :=
  modify (fun st => setRecursionDepth (S (m_recursionDepth st)) st) ;;;
  d <- gets m_recursionDepth ;;
  if Nat.ltb maxRecursionDepth d
  then fatalParserError "Maximum recursion depth reached during parsing."
  else ret tt.

Definition decreaseRecursionDepth (st : PState) : PState :=
  setRecursionDepth (pred (m_recursionDepth st)) st.

Definition recursionGuard {A} (body : M A) : M A :=
  fun st =>
    match increaseRecursionDepth st with
    | Ok _ st1 =>
        match body st1 with
        | Ok a st2 => Ok a (decreaseRecursionDepth st2)
        | Fatal st2 => Fatal (decreaseRecursionDepth st2)
        | AssertFail msg => AssertFail msg
        | OutOfFuel => OutOfFuel
        end
    | Fatal st1 => Fatal st1
    | AssertFail msg => AssertFail msg
    | OutOfFuel => OutOfFuel
    end.

(** Modelled from the spec: [createWithLocation] of libyul/AsmParser.h: a
    new node takes the location it is given, and the span of the current
    token when it is given none. *)
Definition createWithLocation (_loc : option SourceLocation)
  : M SourceLocation :=
  match _loc with
  | Some l => ret l
  | None => gets location
  end.

Definition withEnd (l : SourceLocation) (e : Z) : SourceLocation :=
  mkLoc (loc_start l) e.

(** *** Numeric literals *)

(** [std::string::find_first_not_of]: the index of the first character of
    [s] that is not in [chars], [None] for [npos]. *)
Fixpoint memChar (c : ascii) (chars : string) : bool :=
  match chars with
  | EmptyString => false
  | String d rest => if Ascii.eqb c d then true else memChar c rest
  end.

Fixpoint find_first_not_of (chars : string) (s : string) : option nat :=
  match s with
  | EmptyString => None
  | String c rest =>
      if memChar c chars then option_map S (find_first_not_of chars rest)
      else Some O
  end.

Definition isValidNumberLiteral (_literal : string) : bool :=
  match u256 _literal with
  | None => false
  | Some _ =>
      if String.prefix "0x" _literal then true
      else match find_first_not_of "0123456789" _literal with
           | None => true
           | Some _ => false
           end
  end.

(** *** Productions without recursion *)

Definition isIdentifierClass (t : Token.t) : bool :=
  match t with
  | Token.Identifier | Token.Return | Token.Byte | Token.Bool
  | Token.Address => true
  | _ => false
  end.

Definition expectAsmIdentifier : M YulString :=
  name <- gets currentLiteral ;;
  tok <- gets currentToken ;;
  (if isIdentifierClass tok then ret tt
   else expectToken Token.Identifier true) ;;;
  if builtin m_dialect name
  then fatalParserError ("Cannot use builtin function name " ++ dquote ++ name
                         ++ dquote ++ " as identifier name.")%string
  else advance ;;; ret name.

Definition parseTypedName : M TypedName :=
  recursionGuard (
    loc <- createWithLocation None ;;
    name <- expectAsmIdentifier ;;
    if AsmFlavour.isYul (flavour m_dialect)
    then
      expectToken Token.Colon true ;;;
      e <- gets endPosition ;;
      ty <- expectAsmIdentifier ;;
      ret (mkTypedName (withEnd loc e) name ty)
    else ret (mkTypedName loc name EmptyString)).

Definition parseElementaryOperation : M ElementaryOperation :=
  recursionGuard (
    tok <- gets currentToken ;;
    match tok with
    | Token.Identifier | Token.Return | Token.Byte | Token.Bool
    | Token.Address =>
        literal <- gets currentLiteral ;;
        loc <- gets location ;;
        if builtin m_dialect literal
        then
          advance ;;;
          expectToken Token.LParen false ;;;
          ret (ExprFunctionCall loc (mkIdentifier loc literal) [])
        else
          advance ;;;
          ret (ExprIdentifier (mkIdentifier loc literal))
    | Token.StringLiteral | Token.Number | Token.TrueLiteral
    | Token.FalseLiteral =>
        kind <- match tok with
                | Token.StringLiteral => ret LiteralKind.String
                | Token.Number =>
                    lit <- gets currentLiteral ;;
                    if negb (isValidNumberLiteral lit)
                    then fatalParserError "Invalid number literal."
                    else ret LiteralKind.Number
                | Token.TrueLiteral | Token.FalseLiteral =>
                    ret LiteralKind.Boolean
                | _ => ret LiteralKind.Number
                end ;;
        loc <- gets location ;;
        value <- gets currentLiteral ;;
        advance ;;;
        if AsmFlavour.isYul (flavour m_dialect)
        then
          expectToken Token.Colon true ;;;
          e <- gets endPosition ;;
          ty <- expectAsmIdentifier ;;
          ret (ExprLiteral (mkLiteral (withEnd loc e) kind value ty))
        else
          match kind with
          | LiteralKind.Boolean =>
              fatalParserError "True and false are not valid literals."
          | _ => ret (ExprLiteral (mkLiteral loc kind value EmptyString))
          end
    | _ =>
        fatalParserError
          (if AsmFlavour.isYul (flavour m_dialect)
           then "Literal or identifier expected."
           else "Literal, identifier or instruction expected.")
    end).

Definition checkBreakContinuePosition (_which : string) : M unit :=
  c <- gets m_currentForLoopComponent ;;
  l <- gets location ;;
  match c with
  | ForLoopComponent.None =>
      syntaxError l ("Keyword " ++ dquote ++ _which ++ dquote
                     ++ " needs to be inside a for-loop body.")%string
  | ForLoopComponent.ForLoopPre =>
      syntaxError l ("Keyword " ++ dquote ++ _which ++ dquote
                     ++ " in for-loop init block is not allowed.")%string
  | ForLoopComponent.ForLoopPost =>
      syntaxError l ("Keyword " ++ dquote ++ _which ++ dquote
                     ++ " in for-loop post block is not allowed.")%string
  | ForLoopComponent.ForLoopBody => ret tt
  end.

(** *** Productions with recursion

    Each production is written as its body over the productions it calls;
    the knot is tied below, one unit of fuel per nested call. *)

Definition isFunctionCall (e : Expression) : bool :=
  match e with ExprFunctionCall _ _ _ => true | _ => false end.

(** [std::vector::back]. *)
Definition back {A} (l : list A) : option A :=
  match rev l with
  | x :: _ => Some x
  | [] => None
  end.

Definition parseBlock_body (parseStatement : M Statement) : M Block :=
  loc <- createWithLocation None ;;
  expectToken Token.LBrace true ;;;
  statements <-
    while (fun statements : list Statement =>
      tok <- gets currentToken ;;
      if negb (Token.eqb tok Token.RBrace)
      then s <- parseStatement ;; continue_ (statements ++ [s])
      else break_ statements) [] ;;
  e <- gets endPosition ;;
  advance ;;;
  ret (mkBlock (withEnd loc e) statements).

Definition parseCall_body (parseExpression : M Expression)
  (_initialOp : ElementaryOperation) : M Expression :=
  r <- match _initialOp with
       | ExprIdentifier i => ret (id_location i, i, [])
       | ExprFunctionCall l f args => ret (l, f, args)
       | ExprLiteral _ =>
           fatalParserError
             (if AsmFlavour.isYul (flavour m_dialect)
              then "Function name expected."
              else ("Assembly instruction or function name required in front of "
                    ++ dquote ++ "(" ++ dquote ++ ")")%string)
       end ;;
  let '(loc, functionName, arguments0) := r in
  expectToken Token.LParen true ;;;
  tok <- gets currentToken ;;
  arguments <-
    (if negb (Token.eqb tok Token.RParen)
     then
       a <- parseExpression ;;
       while (fun arguments : list Expression =>
         tok <- gets currentToken ;;
         if negb (Token.eqb tok Token.RParen)
         then
           expectToken Token.Comma true ;;;
           a <- parseExpression ;;
           continue_ (arguments ++ [a])
         else break_ arguments) (arguments0 ++ [a])
     else ret arguments0) ;;
  e <- gets endPosition ;;
  expectToken Token.RParen true ;;;
  ret (ExprFunctionCall (withEnd loc e) functionName arguments).

Definition parseExpression_body
  (parseCall : ElementaryOperation -> M Expression) : M Expression :=
  operation <- parseElementaryOperation ;;
  tok <- gets currentToken ;;
  if isFunctionCall operation || Token.eqb tok Token.LParen
  then parseCall operation
  else
    match operation with
    | ExprIdentifier _ => ret operation
    | ExprLiteral _ => ret operation
    | ExprFunctionCall _ _ _ => yulAssertFail EmptyString
    end.

Definition parseCase_body (parseBlock : M Block) : M Case :=
  loc <- createWithLocation None ;;
  tok <- gets currentToken ;;
  value <-
    (if Token.eqb tok Token.Default
     then advance ;;; ret None
     else if Token.eqb tok Token.Case
     then
       advance ;;;
       literal <- parseElementaryOperation ;;
       match literal with
       | ExprLiteral l => ret (Some l)
       | _ => fatalParserError "Literal expected."
       end
     else yulAssertFail "Case or default case expected.") ;;
  body <- parseBlock ;;
  ret (mkCase (withEnd loc (loc_end (block_location body))) value body).

Definition parseForLoop_body (parseBlock : M Block)
  (parseExpression : M Expression) : M Statement :=
  outerForLoopComponent <- gets m_currentForLoopComponent ;;
  loc <- createWithLocation None ;;
  expectToken Token.For true ;;;
  modify (setCurrentForLoopComponent ForLoopComponent.ForLoopPre) ;;;
  pre <- parseBlock ;;
  modify (setCurrentForLoopComponent ForLoopComponent.None) ;;;
  condition <- parseExpression ;;
  modify (setCurrentForLoopComponent ForLoopComponent.ForLoopPost) ;;;
  post <- parseBlock ;;
  modify (setCurrentForLoopComponent ForLoopComponent.ForLoopBody) ;;;
  body <- parseBlock ;;
  modify (setCurrentForLoopComponent outerForLoopComponent) ;;;
  ret (ForLoop (withEnd loc (loc_end (block_location body)))
               pre condition post body).

Definition parseVariableDeclaration_body (parseExpression : M Expression)
  : M Statement :=
  loc <- createWithLocation None ;;
  expectToken Token.Let true ;;;
  variables <-
    while (fun variables : list TypedName =>
      tn <- parseTypedName ;;
      tok <- gets currentToken ;;
      if Token.eqb tok Token.Comma
      then expectToken Token.Comma true ;;; continue_ (variables ++ [tn])
      else break_ (variables ++ [tn])) [] ;;
  tok <- gets currentToken ;;
  if Token.eqb tok Token.AssemblyAssign
  then
    expectToken Token.AssemblyAssign true ;;;
    value <- parseExpression ;;
    ret (VariableDeclaration (withEnd loc (loc_end (locationOf value)))
                             variables (Some value))
  else
    ret (VariableDeclaration
           (withEnd loc (loc_end (last (map tn_location variables) loc)))
           variables None).

Definition parseFunctionDefinition_body (parseBlock : M Block)
  : M Statement :=
  c <- gets m_currentForLoopComponent ;;
  (match c with
   | ForLoopComponent.ForLoopPre =>
       l <- gets location ;;
       syntaxError l "Functions cannot be defined inside a for-loop init block."
   | _ => ret tt
   end) ;;;
  outerForLoopComponent <- gets m_currentForLoopComponent ;;
  modify (setCurrentForLoopComponent ForLoopComponent.None) ;;;
  loc <- createWithLocation None ;;
  expectToken Token.Function true ;;;
  name <- expectAsmIdentifier ;;
  expectToken Token.LParen true ;;;
  parameters <-
    while (fun parameters : list TypedName =>
      tok <- gets currentToken ;;
      if negb (Token.eqb tok Token.RParen)
      then
        tn <- parseTypedName ;;
        tok <- gets currentToken ;;
        if Token.eqb tok Token.RParen
        then break_ (parameters ++ [tn])
        else expectToken Token.Comma true ;;; continue_ (parameters ++ [tn])
      else break_ parameters) [] ;;
  expectToken Token.RParen true ;;;
  tok <- gets currentToken ;;
  returnVariables <-
    (if Token.eqb tok Token.Sub
     then
       expectToken Token.Sub true ;;;
       expectToken Token.GreaterThan true ;;;
       while (fun returnVariables : list TypedName =>
         tn <- parseTypedName ;;
         tok <- gets currentToken ;;
         if Token.eqb tok Token.LBrace
         then break_ (returnVariables ++ [tn])
         else
           expectToken Token.Comma true ;;;
           continue_ (returnVariables ++ [tn])) []
     else ret []) ;;
  preInsideFunction <- gets m_insideFunction ;;
  modify (setInsideFunction true) ;;;
  body <- parseBlock ;;
  modify (setInsideFunction preInsideFunction) ;;;
  modify (setCurrentForLoopComponent outerForLoopComponent) ;;;
  ret (FunctionDefinition (withEnd loc (loc_end (block_location body)))
                          name parameters returnVariables body).

(** The loop over the [case] clauses of a [switch]. *)
Definition parseCases (parseCase : M Case) : M (list Case) :=
  while (fun cases : list Case =>
    tok <- gets currentToken ;;
    if Token.eqb tok Token.Case
    then c <- parseCase ;; continue_ (cases ++ [c])
    else break_ cases) [].

(** The [switch] case of [parseStatement]. *)
Definition parseSwitch (parseExpression : M Expression) (parseCase : M Case)
  : M Statement :=
  loc <- createWithLocation None ;;
  advance ;;;
  expression <- parseExpression ;;
  cases <- parseCases parseCase ;;
  tok <- gets currentToken ;;
  cases <-
    (if Token.eqb tok Token.Default
     then c <- parseCase ;; ret (cases ++ [c])
     else ret cases) ;;
  tok <- gets currentToken ;;
  (if Token.eqb tok Token.Default
   then fatalParserError "Only one default case allowed."
   else if Token.eqb tok Token.Case
   then fatalParserError "Case not allowed after default case."
   else ret tt) ;;;
  match back cases with
  | None => fatalParserError "Switch statement without any cases."
  | Some c =>
      ret (Switch (withEnd loc (loc_end (block_location (case_body c))))
                  expression cases)
  end.

(** The [,] and [:=] case of the second switch of [parseStatement]: the loop
    state is the elementary operation parsed last and the names collected so
    far. *)
Definition parseAssignment (parseExpression : M Expression)
  (elementary : ElementaryOperation) : M Statement :=
  r <- while (fun s : ElementaryOperation * list Identifier =>
         let '(elementary, variableNames) := s in
         match elementary with
         | ExprIdentifier identifier =>
             if builtin m_dialect (id_name identifier)
             then fatalParserError
                    ("Cannot assign to builtin function " ++ dquote
                     ++ id_name identifier ++ dquote ++ ".")%string
             else
               tok <- gets currentToken ;;
               if negb (Token.eqb tok Token.Comma)
               then break_ (identifier, variableNames ++ [identifier])
               else
                 expectToken Token.Comma true ;;;
                 e <- parseElementaryOperation ;;
                 continue_ (e, variableNames ++ [identifier])
         | _ =>
             tok <- gets currentToken ;;
             fatalParserError
               ("Variable name must precede " ++ dquote
                ++ (if Token.eqb tok Token.Comma then "," else ":=")
                ++ dquote
                ++ (if Token.eqb tok Token.Comma
                    then " in multiple assignment."
                    else " in assignment."))%string
         end) (elementary, []) ;;
  let '(identifier, variableNames) := r in
  loc <- createWithLocation (Some (id_location identifier)) ;;
  expectToken Token.AssemblyAssign true ;;;
  value <- parseExpression ;;
  ret (Assignment (withEnd loc (loc_end (locationOf value)))
                  variableNames value).

(** What is left of [parseStatement] once the keywords are excluded: an
    elementary operation and the switch on the token after it.  The code
    after that switch is never reached, its [default:] raises. *)
Definition parseSimpleStatement (parseExpression : M Expression)
  (parseCall : ElementaryOperation -> M Expression) : M Statement :=
  elementary <- parseElementaryOperation ;;
  tok <- gets currentToken ;;
  match tok with
  | Token.LParen =>
      expr <- parseCall elementary ;;
      ret (ExpressionStatement (locationOf expr) expr)
  | Token.Comma | Token.AssemblyAssign =>
      parseAssignment parseExpression elementary
  | _ =>
      @fatalParserError unit "Call or assignment expected." ;;;
      match elementary with
      | ExprIdentifier identifier =>
          ret (ExpressionStatement (id_location identifier) elementary)
      | ExprLiteral _ =>
          ret (ExpressionStatement (locationOf elementary) elementary)
      | ExprFunctionCall _ _ _ =>
          yulAssertFail "Invalid elementary operation."
      end
  end.

Definition parseStatement_body
  (parseVariableDeclaration parseFunctionDefinition parseForLoop : M Statement)
  (parseBlock : M Block) (parseExpression : M Expression)
  (parseCase : M Case) (parseCall : ElementaryOperation -> M Expression)
  : M Statement :=
  tok <- gets currentToken ;;
  match tok with
  | Token.Let => parseVariableDeclaration
  | Token.Function => parseFunctionDefinition
  | Token.LBrace => b <- parseBlock ;; ret (BlockStatement b)
  | Token.If =>
      loc <- createWithLocation None ;;
      advance ;;;
      condition <- parseExpression ;;
      body <- parseBlock ;;
      ret (If loc condition body)
  | Token.Switch => parseSwitch parseExpression parseCase
  | Token.For => parseForLoop
  | Token.Break =>
      loc <- createWithLocation None ;;
      checkBreakContinuePosition "break" ;;;
      advance ;;;
      ret (Break loc)
  | Token.Continue =>
      loc <- createWithLocation None ;;
      checkBreakContinuePosition "continue" ;;;
      advance ;;;
      ret (Continue loc)
  | Token.Identifier =>
      lit <- gets currentLiteral ;;
      if String.eqb lit "leave"
      then
        loc <- createWithLocation None ;;
        inside <- gets m_insideFunction ;;
        (if negb inside
         then
           l <- gets location ;;
           syntaxError l ("Keyword " ++ dquote ++ "leave" ++ dquote
                          ++ " can only be used inside a function.")%string
         else ret tt) ;;;
        advance ;;;
        ret (Leave loc)
      else parseSimpleStatement parseExpression parseCall
  | _ => parseSimpleStatement parseExpression parseCall
  end.

(** The productions a body calls are passed as functions of the state, so
    that a call is only unfolded once it is made. *)
Fixpoint parseExpression (fuel : nat) : M Expression :=
  recursionGuard (fun st =>
    match fuel with
    | O => outOfFuel st
    | S f => parseExpression_body (fun op st' => parseCall f op st') st
    end)
with parseCall (fuel : nat) (_initialOp : ElementaryOperation)
  : M Expression :=
  recursionGuard (fun st =>
    match fuel with
    | O => outOfFuel st
    | S f => parseCall_body (fun st' => parseExpression f st') _initialOp st
    end).

Definition parseVariableDeclaration (fuel : nat) : M Statement :=
  recursionGuard (fun st =>
    match fuel with
    | O => outOfFuel st
    | S f => parseVariableDeclaration_body (parseExpression f) st
    end).

Fixpoint parseBlock (fuel : nat) : M Block :=
  recursionGuard (fun st =>
    match fuel with
    | O => outOfFuel st
    | S f => parseBlock_body (fun st' => parseStatement f st') st
    end)
with parseStatement (fuel : nat) : M Statement :=
  recursionGuard (fun st =>
    match fuel with
    | O => outOfFuel st
    | S f =>
        parseStatement_body
          (parseVariableDeclaration f)
          (fun st' => parseFunctionDefinition f st')
          (fun st' => parseForLoop f st')
          (fun st' => parseBlock f st')
          (parseExpression f)
          (fun st' => parseCase f st')
          (parseCall f) st
    end)
with parseCase (fuel : nat) : M Case :=
  recursionGuard (fun st =>
    match fuel with
    | O => outOfFuel st
    | S f => parseCase_body (fun st' => parseBlock f st') st
    end)
with parseForLoop (fuel : nat) : M Statement :=
  recursionGuard (fun st =>
    match fuel with
    | O => outOfFuel st
    | S f =>
        parseForLoop_body (fun st' => parseBlock f st') (parseExpression f) st
    end)
with parseFunctionDefinition (fuel : nat) : M Statement :=
  recursionGuard (fun st =>
    match fuel with
    | O => outOfFuel st
    | S f => parseFunctionDefinition_body (fun st' => parseBlock f st') st
    end).

(** *** The entry point *)

(** What a call of [parse] does: it returns a block or nothing, or an
    assertion fails, or the model runs out of fuel. *)
Inductive ParseResult : Type :=
| Returned (block : option Block) (st : PState)
| Threw (msg : string)
| NoFuel.

(** The body of the [try] of [parse]. *)
Definition parseTry (fuel : nat) (_reuseScanner : bool) : M Block :=
  block <- parseBlock fuel ;;
  (if negb _reuseScanner then expectToken Token.EOS true else ret tt) ;;;
  ret block.

Definition resetScanner (st : PState) : PState :=
  setScanner (supportPeriodInIdentifier false (m_scanner st)) st.

(** The state the [try] is entered in: the depth is reset, the scanner is
    the one handed in, in the mode that allows periods in identifiers. *)
Definition parseEntry (_scanner : Scanner) (st : PState) : PState :=
  setScanner (supportPeriodInIdentifier true _scanner)
             (setRecursionDepth 0 st).

Definition parse (fuel : nat) (_scanner : Scanner) (_reuseScanner : bool)
  (st : PState) : ParseResult :=
  match parseTry fuel _reuseScanner (parseEntry _scanner st) with
  | Ok block st' => Returned (Some block) (resetScanner st')
  | Fatal st' =>
      match m_errors st' with
      | [] => Threw "Fatal error detected, but no error is reported."
      | _ :: _ => Returned None (resetScanner st')
      end
  | AssertFail msg => Threw msg
  | OutOfFuel => NoFuel
  end.

(** A run of a production, whatever its value. *)
Definition runProduction (p : Production) (fuel : nat) : M unit :=
  fun st =>
    match p with
    | PBlock => forget (parseBlock fuel st)
    | PStatement => forget (parseStatement fuel st)
    | PCase => forget (parseCase fuel st)
    | PForLoop => forget (parseForLoop fuel st)
    | PExpression => forget (parseExpression fuel st)
    | PElementaryOperation => forget (parseElementaryOperation st)
    | PVariableDeclaration => forget (parseVariableDeclaration fuel st)
    | PFunctionDefinition => forget (parseFunctionDefinition fuel st)
    | PCall op => forget (parseCall fuel op st)
    | PTypedName => forget (parseTypedName st)
    end.

End Parser.

(** ** Instruction-name tables *)

(** [std::map<K, V>]: an association list kept in the order of the keys.
    [mapFind] is the lookup, [mapAssign k v m] is [m[k] = v], and the list
    order is the order a range-for goes through the map. *)
Section StdMap.

Variables (K V : Type) (compare : K -> K -> comparison).

Definition StdMap : Type := list (K * V).

Fixpoint mapFind (k : K) (m : StdMap) : option V :=
  match m with
  | [] => None
  | (k', v) :: rest =>
      match compare k k' with
      | Eq => Some v
      | _ => mapFind k rest
      end
  end.

Fixpoint mapAssign (k : K) (v : V) (m : StdMap) : StdMap :=
  match m with
  | [] => [(k, v)]
  | (k', v') :: rest =>
      match compare k k' with
      | Eq => (k, v) :: rest
      | Lt => (k, v) :: m
      | Gt => (k', v') :: mapAssign k v rest
      end
  end.

Definition mapEmpty (m : StdMap) : bool :=
  match m with
  | [] => true
  | _ :: _ => false
  end.

End StdMap.

(** [tolower] in the C locale, and its use through [std::transform]. *)
Definition tolower (c : ascii) : ascii :=
  let n := N_of_ascii c in
  if (65 <=? n)%N && (n <=? 90)%N then ascii_of_N (n + 32) else c.

Fixpoint lowercase (s : string) : string :=
  match s with
  | EmptyString => EmptyString
  | String c rest => String (tolower c) (lowercase rest)
  end.

Section InstructionTables.

(** The opcode table of libevmasm, which is not part of the sources at
    hand: [c_instructions] in the order of its keys, an [Instruction] as its
    byte, the three opcodes the parser names, and the test for the push
    instructions. *)
Definition Instruction : Set := N.
Variable c_instructions : list (string * Instruction).
Variables JUMPDEST SELFDESTRUCT KECCAK256 : Instruction.
Variable isPushInstruction : Instruction -> bool.

(** The two function-local statics. *)
Record Statics : Type := mkStatics {
  s_instructions : StdMap string Instruction;
  s_instructionNames : StdMap Instruction string
}.

Definition noStatics : Statics := mkStatics [] [].

Definition stringAssign := @mapAssign string Instruction String_as_OT.compare.
Definition stringFind := @mapFind string Instruction String_as_OT.compare.
Definition opcodeAssign := @mapAssign Instruction string N.compare.
Definition opcodeFind := @mapFind Instruction string N.compare.

(** The entries the loop of [instructions] skips, and one round of the
    loop. *)
Definition excluded (i : Instruction) : bool :=
  N.eqb i JUMPDEST || isPushInstruction i.

Definition keep (acc : StdMap string Instruction)
  (instruction : string * Instruction) : StdMap string Instruction :=
  if excluded (snd instruction)
  then acc
  else stringAssign (lowercase (fst instruction)) (snd instruction) acc.

(** [Parser::instructions]: the new value of the statics and the map the
    returned reference points to. *)
Definition instructions (s : Statics)
  : Statics * StdMap string Instruction :=
  if mapEmpty (s_instructions s)
  then
    let m := fold_left keep c_instructions (s_instructions s) in
    (mkStatics m (s_instructionNames s), m)
  else (s, s_instructions s).

(** One round of the loop of [instructionNames]. *)
Definition nameOf (acc : StdMap Instruction string)
  (instr : string * Instruction) : StdMap Instruction string :=
  opcodeAssign (snd instr) (fst instr) acc.

(** [Parser::instructionNames]. *)
Definition instructionNames (s : Statics)
  : Statics * StdMap Instruction string :=
  if mapEmpty (s_instructionNames s)
  then
    let '(s1, instrs) := instructions s in
    let names := fold_left nameOf instrs (s_instructionNames s1) in
    let names := opcodeAssign SELFDESTRUCT "selfdestruct" names in
    let names := opcodeAssign KECCAK256 "keccak256" names in
    (mkStatics (s_instructions s1) names, names)
  else (s, s_instructionNames s).

(** The two maps, once built. *)
Definition builtInstructions : StdMap string Instruction :=
  fold_left keep c_instructions [].

Definition builtNames : StdMap Instruction string :=
  opcodeAssign KECCAK256 "keccak256"
    (opcodeAssign SELFDESTRUCT "selfdestruct"
       (fold_left nameOf builtInstructions [])).

End InstructionTables.

(** *** What the tables hold *)

Section StdMapOrder.

Variables (K V : Type) (compare : K -> K -> comparison).

(** The keys of a map are in strictly increasing order. *)
Fixpoint mapSorted (m : StdMap K V) : Prop :=
  match m with
  | [] => True
  | (k, _) :: rest =>
      Forall (fun e => compare k (fst e) = Lt) rest /\ mapSorted rest
  end.

End StdMapOrder.

(** The opcode the loop of [instructions] leaves under the name [k]: the one
    of the last entry of the table that is kept and whose name in lower case
    is [k]. *)
Fixpoint lastByName (excluded : Instruction -> bool) (k : string)
  (table : list (string * Instruction)) : option Instruction :=
  match table with
  | [] => None
  | (name, instr) :: rest =>
      match lastByName excluded k rest with
      | Some i => Some i
      | None =>
          if negb (excluded instr) && String.eqb (lowercase name) k
          then Some instr
          else None
      end
  end.

(** The name the loop of [instructionNames] leaves under the opcode [i]:
    the one of the last entry with that opcode. *)
Fixpoint lastByOpcode (i : Instruction)
  (instrs : list (string * Instruction)) : option string :=
  match instrs with
  | [] => None
  | (name, instr) :: rest =>
      match lastByOpcode i rest with
      | Some n => Some n
      | None => if N.eqb instr i then Some name else None
      end
  end.

(** ** Properties of the tree *)

(** [allStatements P s]: [P] holds of [s] and of every statement below
    it. *)
Fixpoint allStatements (P : Statement -> bool) (s : Statement) {struct s}
  : bool :=
  P s &&
  match s with
  | FunctionDefinition _ _ _ _ b => allBlock P b
  | If _ _ b => allBlock P b
  | Switch _ _ cases => forallb (allCase P) cases
  | ForLoop _ pre _ post body =>
      allBlock P pre && allBlock P post && allBlock P body
  | BlockStatement b => allBlock P b
  | _ => true
  end
with allBlock (P : Statement -> bool) (b : Block) {struct b} : bool :=
  match b with
  | mkBlock _ statements => forallb (allStatements P) statements
  end
with allCase (P : Statement -> bool) (c : Case) {struct c} : bool :=
  match c with
  | mkCase _ _ body => allBlock P body
  end.

Definition isDefaultCase (c : Case) : bool :=
  match case_value c with
  | None => true
  | Some _ => false
  end.

(** A list of cases as the parser builts it: not empty, and no default case
    before the last one. *)
Definition casesWellFormed (cases : list Case) : bool :=
  match rev cases with
  | [] => false
  | _ :: front => forallb (fun c => negb (isDefaultCase c)) front
  end.

Definition switchWellFormed (s : Statement) : bool :=
  match s with
  | Switch _ _ cases => casesWellFormed cases
  | _ => true
  end.

(** No assignment target and no declared name of [s] itself is a
    built-in of dialect [d]. *)
Definition namesNotBuiltin (d : Dialect) (s : Statement) : bool :=
  match s with
  | Assignment _ variableNames _ =>
      forallb (fun i => negb (builtin d (id_name i))) variableNames
  | VariableDeclaration _ variables _ =>
      forallb (fun v => negb (builtin d (tn_name v))) variables
  | FunctionDefinition _ name parameters returnVariables _ =>
      negb (builtin d name)
      && forallb (fun v => negb (builtin d (tn_name v))) parameters
      && forallb (fun v => negb (builtin d (tn_name v))) returnVariables
  | _ => true
  end.

(** The location of an assignment as the parser sets it: from the begin of
    the target it read last to the end of the value. *)
Definition assignmentLocated (s : Statement) : bool :=
  match s with
  | Assignment location variableNames value =>
      match back variableNames with
      | Some i =>
          Z.eqb (loc_start location) (loc_start (id_location i))
          && Z.eqb (loc_end location) (loc_end (locationOf value))
      | None => false
      end
  | _ => true
  end.

(** How deep the productions that build a node are nested: one for the node
    and, below it, the deepest of its expressions, blocks and cases. *)
Fixpoint exprNesting (e : Expression) : nat :=
  match e with
  | ExprFunctionCall _ _ arguments => S (list_max (map exprNesting arguments))
  | _ => 1
  end.

Fixpoint statementNesting (s : Statement) {struct s} : nat :=
  S match s with
    | ExpressionStatement _ e => exprNesting e
    | Assignment _ _ v => exprNesting v
    | VariableDeclaration _ _ (Some e) => exprNesting e
    | VariableDeclaration _ _ None => 0
    | FunctionDefinition _ _ _ _ b => blockNesting b
    | If _ c b => Nat.max (exprNesting c) (blockNesting b)
    | Switch _ e cases =>
        Nat.max (exprNesting e) (list_max (map caseNesting cases))
    | ForLoop _ pre c post body =>
        Nat.max (Nat.max (blockNesting pre) (exprNesting c))
                (Nat.max (blockNesting post) (blockNesting body))
    | Break _ | Continue _ | Leave _ => 0
    | BlockStatement b => blockNesting b
    end
with blockNesting (b : Block) {struct b} : nat :=
  match b with
  | mkBlock _ statements => S (list_max (map statementNesting statements))
  end
with caseNesting (c : Case) {struct c} : nat :=
  match c with
  | mkCase _ _ body => S (blockNesting body)
  end.

(** The number of fatal diagnostics in an error list. *)
Definition fatalCount (es : list Error) : nat :=
  List.length (filter isParserError es).

(** ** What a production guarantees *)

Section Guarantees.

Variable m_dialect : Dialect.
Variable maxRecursionDepth : nat.

(** What every production guarantees, for the state [st] it is entered in
    and [fuel] units of fuel: a value comes with the three context fields as
    they were, no further fatal diagnostic, and fewer tokens left; a fatal
    unwinding has recorded its diagnostic; no assertion fails; and fuel
    only runs out when the recursion guard has room left. *)
Definition post {A} (good : PState -> A -> Prop) (fuel : nat) (st : PState)
  (r : Result A) : Prop :=
  match r with
  | Ok a st' =>
      m_recursionDepth st' = m_recursionDepth st
      /\ m_insideFunction st' = m_insideFunction st
      /\ m_currentForLoopComponent st' = m_currentForLoopComponent st
      /\ fatalCount (m_errors st') = fatalCount (m_errors st)
      /\ List.length (tokens st') < List.length (tokens st)
      /\ good st a
  | Fatal st' => fatalCount (m_errors st') = S (fatalCount (m_errors st))
  | AssertFail _ => False
  | OutOfFuel => fuel + m_recursionDepth st < maxRecursionDepth
  end.

(** How the state at a later point of a production relates to the state
    [st0] at an earlier one, when only complete calls lie between them. *)
Definition rel (st0 st : PState) : Prop :=
  m_recursionDepth st = m_recursionDepth st0
  /\ m_insideFunction st = m_insideFunction st0
  /\ m_currentForLoopComponent st = m_currentForLoopComponent st0
  /\ fatalCount (m_errors st) = fatalCount (m_errors st0)
  /\ List.length (tokens st) <= List.length (tokens st0).

(** The guarantee of one round of a loop, and of the whole loop. *)
Definition roundPost {T A} (goodS : PState -> T -> Prop)
  (goodA : PState -> A -> Prop) (f : nat) (st : PState) (r : Result (T + A))
  : Prop :=
  match r with
  | Ok (inl s') st' =>
      rel st st' /\ List.length (tokens st') < List.length (tokens st)
      /\ goodS st' s'
  | Ok (inr a) st' => rel st st' /\ goodA st' a
  | Fatal st' => fatalCount (m_errors st') = S (fatalCount (m_errors st))
  | AssertFail _ => False
  | OutOfFuel => f + m_recursionDepth st < maxRecursionDepth
  end.

Definition loopPost {A} (goodA : PState -> A -> Prop) (f : nat) (st : PState)
  (r : Result A) : Prop :=
  match r with
  | Ok a st' => rel st st' /\ goodA st' a
  | Fatal st' => fatalCount (m_errors st') = S (fatalCount (m_errors st))
  | AssertFail _ => False
  | OutOfFuel => f + m_recursionDepth st < maxRecursionDepth
  end.

Definition notBuiltinName : PState -> YulString -> Prop :=
  fun _ name => builtin m_dialect name = false.

Definition typedNameOK : PState -> TypedName -> Prop :=
  fun _ tn => builtin m_dialect (tn_name tn) = false.

Definition elementaryOK : PState -> ElementaryOperation -> Prop :=
  fun _ e =>
    exprNesting e = 1
    /\ match e with
       | ExprIdentifier i => builtin m_dialect (id_name i) = false
       | _ => True
       end.

(** What the parser guarantees of every statement of a tree. *)
Definition nodeOK (s : Statement) : bool :=
  switchWellFormed s && namesNotBuiltin m_dialect s && assignmentLocated s.

(** The guarantees of a value: [k] is 0 for a production entered in [st], and
    1 for its body, which runs one level deeper. *)
Definition exprOK (k : nat) : PState -> Expression -> Prop :=
  fun st e => m_recursionDepth st + exprNesting e <= k + maxRecursionDepth.
(** [parseCall] is handed the operand that [parseElementaryOperation] has
    just returned, which has no arguments yet. *)
Definition callOK (k : nat) (_initialOp : ElementaryOperation)
  : PState -> Expression -> Prop :=
  fun st e => exprNesting _initialOp = 1 -> exprOK k st e.
Definition statementOK (k : nat) : PState -> Statement -> Prop :=
  fun st s =>
    allStatements nodeOK s = true
    /\ m_recursionDepth st + statementNesting s <= k + maxRecursionDepth.
Definition blockOK (k : nat) : PState -> Block -> Prop :=
  fun st b =>
    allBlock nodeOK b = true
    /\ m_recursionDepth st + blockNesting b <= k + maxRecursionDepth.
Definition caseOK (k : nat) : PState -> Case -> Prop :=
  fun st c =>
    allCase nodeOK c = true
    /\ m_recursionDepth st + caseNesting c <= k + maxRecursionDepth
    /\ (currentToken st = Token.Case -> isDefaultCase c = false).

End Guarantees.

(** ** The shape of a switch, in the words of the specification *)

(** At least one case, at most one default case, and a default case only in
    the last place. *)
Definition switchShape (cases : list Case) : Prop :=
  cases <> []
  /\ List.length (filter isDefaultCase cases) <= 1
  /\ (forall i c, nth_error cases i = Some c -> isDefaultCase c = true ->
                  S i = List.length cases).

(** A lexeme of decimal digits only. *)
Definition isDecimalDigit (c : ascii) : bool :=
  let n := N_of_ascii c in (48 <=? n)%N && (n <=? 57)%N.

Fixpoint allDecimalDigits (s : string) : bool :=
  match s with
  | EmptyString => true
  | String c rest => isDecimalDigit c && allDecimalDigits rest
  end.

(** The last diagnostic of the sink. *)
Definition lastError (st : PState) : option Error := back (m_errors st).

(** The state a production is in once its recursion guard has let it
    in. *)
Definition entered (st : PState) : PState :=
  setRecursionDepth (S (m_recursionDepth st)) st.

(** [r] is a fatal unwinding whose diagnostic, the one recorded last, has
    location [l] and message [msg]; the sink held [es] before. *)
Definition raises {A} (r : Result A) (es : list Error) (l : SourceLocation)
  (msg : string) : Prop :=
  exists st',
    r = Fatal st'
    /\ m_errors st' = es ++ [mkError ErrorType.ParserError l msg].

(** The statements that begin with an elementary operation: the ones the
    first switch of [parseStatement] lets through. *)
Definition startsSimpleStatement (st : PState) : bool :=
  match tok_kind (scannerCurrent (m_scanner st)) with
  | Token.Let | Token.Function | Token.LBrace | Token.If | Token.Switch
  | Token.For | Token.Break | Token.Continue => false
  | Token.Identifier =>
      negb (String.eqb (tok_literal (scannerCurrent (m_scanner st))) "leave")
  | _ => true
  end.

(** The specification's table for [break] and [continue]: the message for a
    keyword in a component of a loop, none in the body. *)
Definition misplacedMessage (which : string) (c : ForLoopComponent.t)
  : option string :=
  match c with
  | ForLoopComponent.None =>
      Some ("Keyword " ++ dquote ++ which ++ dquote
            ++ " needs to be inside a for-loop body.")%string
  | ForLoopComponent.ForLoopPre =>
      Some ("Keyword " ++ dquote ++ which ++ dquote
            ++ " in for-loop init block is not allowed.")%string
  | ForLoopComponent.ForLoopPost =>
      Some ("Keyword " ++ dquote ++ which ++ dquote
            ++ " in for-loop post block is not allowed.")%string
  | ForLoopComponent.ForLoopBody => None
  end.

(** The sink after the recoverable error [msg], if any, at the current
    token. *)
Definition noted (msg : option string) (st : PState) : PState :=
  match msg with
  | Some m =>
      setErrors
        (m_errors st
         ++ [mkError ErrorType.SyntaxError
               (tok_location (scannerCurrent (m_scanner st))) m]) st
  | None => st
  end.

(** A result that is not a value. *)
Definition notOk {A} (r : Result A) : Prop :=
  match r with
  | Ok _ _ => False
  | _ => True
  end.

(** ** What a parse leaves in place *)

(** [l'] is [l] with something appended; [l'] is what is left of [l] once
    some of its first elements are taken away. *)
Definition prefixOf {A} (l l' : list A) : Prop := exists rest, l' = l ++ rest.
Definition suffixOf {A} (l' l : list A) : Prop :=
  exists front, l = front ++ l'.

(** The state [st'] comes after [st]: the diagnostics of [st] are still
    there, in their order, before the new ones; the tokens left are the
    ones [st] had, without some of the first; the scanner's end and its mode
    are the same. *)
Definition follows (st st' : PState) : Prop :=
  prefixOf (m_errors st) (m_errors st')
  /\ suffixOf (tokens st') (tokens st)
  /\ sc_eos (m_scanner st') = sc_eos (m_scanner st)
  /\ sc_period (m_scanner st') = sc_period (m_scanner st).

(** The diagnostic recorded last is a fatal one. *)
Definition endsFatal (st : PState) : Prop :=
  exists front e, m_errors st = front ++ [e] /\ isParserError e = true.

(** What a call keeps, whether it returns or unwinds; [good] relates the
    state at entry, the state at exit and the value.  An unwinding comes
    with its fatal diagnostic as the last one. *)
Definition frame {A} (good : PState -> PState -> A -> Prop) (st : PState)
  (r : Result A) : Prop :=
  match r with
  | Ok a st' => follows st st' /\ good st st' a
  | Fatal st' => follows st st' /\ endsFatal st'
  | AssertFail _ => True
  | OutOfFuel => True
  end.

Definition roundFrame {T A} (goodS : PState -> T -> Prop)
  (goodA : PState -> A -> Prop) (st : PState) (r : Result (T + A)) : Prop :=
  match r with
  | Ok (inl s') st' => follows st st' /\ goodS st' s'
  | Ok (inr a) st' => follows st st' /\ goodA st' a
  | Fatal st' => follows st st' /\ endsFatal st'
  | AssertFail _ => True
  | OutOfFuel => True
  end.

Definition loopFrame {A} (goodA : PState -> A -> Prop) (st : PState)
  (r : Result A) : Prop :=
  match r with
  | Ok a st' => follows st st' /\ goodA st' a
  | Fatal st' => follows st st' /\ endsFatal st'
  | AssertFail _ => True
  | OutOfFuel => True
  end.

(** ** What a returned tree holds *)

(** [P] holds of [e] and of every argument below it. *)
Fixpoint allSubexpressions (P : Expression -> bool) (e : Expression) : bool :=
  P e &&
  match e with
  | ExprFunctionCall _ _ arguments => forallb (allSubexpressions P) arguments
  | _ => true
  end.

(** The expressions a statement holds itself, the value of a case taken as
    the literal it is, and the typed names it declares. *)
Definition caseExpressions (c : Case) : list Expression :=
  match case_value c with
  | Some l => [ExprLiteral l]
  | None => []
  end.

Definition statementExpressions (s : Statement) : list Expression :=
  match s with
  | ExpressionStatement _ e => [e]
  | Assignment _ _ v => [v]
  | VariableDeclaration _ _ (Some v) => [v]
  | If _ c _ => [c]
  | Switch _ e cases => e :: flat_map caseExpressions cases
  | ForLoop _ _ c _ _ => [c]
  | _ => []
  end.

Definition statementTypedNames (s : Statement) : list TypedName :=
  match s with
  | VariableDeclaration _ variables _ => variables
  | FunctionDefinition _ _ parameters returnVariables _ =>
      parameters ++ returnVariables
  | _ => []
  end.

Definition onExpressions (P : Expression -> bool) (s : Statement) : bool :=
  forallb (allSubexpressions P) (statementExpressions s).

Definition onTypedNames (P : TypedName -> bool) (s : Statement) : bool :=
  forallb P (statementTypedNames s).

Definition statementLocation (s : Statement) : SourceLocation :=
  match s with
  | ExpressionStatement l _ | Assignment l _ _ | VariableDeclaration l _ _
  | FunctionDefinition l _ _ _ _ | If l _ _ | Switch l _ _
  | ForLoop l _ _ _ _ | Break l | Continue l | Leave l => l
  | BlockStatement b => block_location b
  end.

Definition isBooleanKind (k : LiteralKind.t) : bool :=
  match k with
  | LiteralKind.Boolean => true
  | _ => false
  end.

Section TreeFacts.

Variable m_dialect : Dialect.
Variable u256 : string -> option N.

(** A number literal has passed [isValidNumberLiteral]. *)
Definition numberValid (e : Expression) : bool :=
  match e with
  | ExprLiteral l =>
      match lit_kind l with
      | LiteralKind.Number => isValidNumberLiteral u256 (lit_value l)
      | _ => true
      end
  | _ => true
  end.

(** The type of a literal and of a typed name: in the typed flavour a name
    that is not a built-in, read after the colon; in the other one the
    empty name, and there [true] and [false] are no literals. *)
Definition literalTyped (e : Expression) : bool :=
  match e with
  | ExprLiteral l =>
      if AsmFlavour.isYul (flavour m_dialect)
      then negb (builtin m_dialect (lit_type l))
      else negb (isBooleanKind (lit_kind l))
           && String.eqb (lit_type l) EmptyString
  | _ => true
  end.

Definition typedNameTyped (tn : TypedName) : bool :=
  if AsmFlavour.isYul (flavour m_dialect)
  then negb (builtin m_dialect (tn_type tn))
  else String.eqb (tn_type tn) EmptyString.

(** An identifier that stands for itself is not a built-in: a built-in
    only comes as the name of a call. *)
Definition operandNotBuiltin (e : Expression) : bool :=
  match e with
  | ExprIdentifier i => negb (builtin m_dialect (id_name i))
  | _ => true
  end.

(** A call begins where its name begins. *)
Definition callStart (e : Expression) : bool :=
  match e with
  | ExprFunctionCall l f _ => Z.eqb (loc_start l) (loc_start (id_location f))
  | _ => true
  end.

Definition exprFacts (e : Expression) : bool :=
  numberValid e && literalTyped e && operandNotBuiltin e && callStart e.

(** Where the location of a node ends: an expression statement has the
    location of its expression; a declaration ends with its value or, without
    one, with its last variable; a function definition and a loop end with
    their body; a case ends with its body and a switch with its last
    case. *)
Definition caseEnds (c : Case) : bool :=
  Z.eqb (loc_end (case_location c)) (loc_end (block_location (case_body c))).

Definition locationEnds (s : Statement) : bool :=
  match s with
  | ExpressionStatement l e =>
      Z.eqb (loc_start l) (loc_start (locationOf e))
      && Z.eqb (loc_end l) (loc_end (locationOf e))
  | VariableDeclaration l _ (Some v) =>
      Z.eqb (loc_end l) (loc_end (locationOf v))
  | VariableDeclaration l variables None =>
      match back variables with
      | Some tn => Z.eqb (loc_end l) (loc_end (tn_location tn))
      | None => false
      end
  | FunctionDefinition l _ _ _ body =>
      Z.eqb (loc_end l) (loc_end (block_location body))
  | Switch l _ cases =>
      forallb caseEnds cases
      && match back cases with
         | Some c => Z.eqb (loc_end l) (loc_end (block_location (case_body c)))
         | None => false
         end
  | ForLoop l _ _ _ body =>
      Z.eqb (loc_end l) (loc_end (block_location body))
  | _ => true
  end.

(** An assignment has a target and a declaration a variable. *)
Definition hasNames (s : Statement) : bool :=
  match s with
  | Assignment _ [] _ => false
  | VariableDeclaration _ [] _ => false
  | _ => true
  end.

Definition nodeFacts (s : Statement) : bool :=
  onExpressions exprFacts s && onTypedNames typedNameTyped s
  && locationEnds s && hasNames s.

(** A statement begins at the first token of its text, but for an assignment
    to several targets, which begins at its last target. *)
Definition startsAt (l : SourceLocation) (s : Statement) : Prop :=
  match s with
  | Assignment _ (_ :: _ :: _) _ => True
  | _ => loc_start (statementLocation s) = loc_start l
  end.

(** The guarantees of the values of the productions; [st] is the state at
    entry. *)
Definition typedNameFr : PState -> PState -> TypedName -> Prop :=
  fun st _ tn =>
    typedNameTyped tn = true
    /\ loc_start (tn_location tn) = loc_start (location st).

Definition operandFr : PState -> PState -> Expression -> Prop :=
  fun st _ e =>
    allSubexpressions exprFacts e = true
    /\ loc_start (locationOf e) = loc_start (location st).

Definition callFr (_initialOp : ElementaryOperation)
  : PState -> PState -> Expression -> Prop :=
  fun _ _ e =>
    allSubexpressions exprFacts _initialOp = true ->
    allSubexpressions exprFacts e = true
    /\ loc_start (locationOf e) = loc_start (locationOf _initialOp).

Definition statementFr : PState -> PState -> Statement -> Prop :=
  fun st _ s =>
    allStatements nodeFacts s = true /\ startsAt (location st) s.

Definition blockFr : PState -> PState -> Block -> Prop :=
  fun st _ b =>
    allBlock nodeFacts b = true
    /\ loc_start (block_location b) = loc_start (location st).

Definition caseFr : PState -> PState -> Case -> Prop :=
  fun st _ c =>
    allCase nodeFacts c = true
    /\ forallb (allSubexpressions exprFacts) (caseExpressions c) = true
    /\ caseEnds c = true
    /\ loc_start (case_location c) = loc_start (location st).

Definition anyFr {A} : PState -> PState -> A -> Prop := fun _ _ _ => True.

(** What the loops keep from round to round.  The variables read so far end
    with [tn]; the cases read so far hold the facts of a case; in the loop
    over the targets of an assignment, while no name is collected, the operand
    at hand is the one the statement begins with, at [first]. *)
Definition endsWith (l : list TypedName) (tn : TypedName) : Prop :=
  back l = Some tn
  /\ forall d, last (map tn_location l) d = tn_location tn.

Definition casesFacts (_ : PState) (cases : list Case) : Prop :=
  forallb (allCase nodeFacts) cases = true
  /\ forallb (allSubexpressions exprFacts) (flat_map caseExpressions cases)
     = true
  /\ forallb caseEnds cases = true.

Definition targetsSoFar (first : SourceLocation) (_ : PState)
  (s : ElementaryOperation * list Identifier) : Prop :=
  allSubexpressions exprFacts (fst s) = true
  /\ (snd s = [] -> loc_start (locationOf (fst s)) = loc_start first).

Definition targetsRead (first : SourceLocation) (_ : PState)
  (r : Identifier * list Identifier) : Prop :=
  match snd r with
  | [] => False
  | [_] => loc_start (id_location (fst r)) = loc_start first
  | _ :: _ :: _ => True
  end.

End TreeFacts.

(** ** How a production ends *)

Section Endings.

Variable maxRecursionDepth : nat.

(** How a run of a production can end: with a value, with a fatal error,
    with the assertion of [parseCase], or without fuel while the recursion
    guard has room left. *)
Definition ending (p : Production) (fuel : nat) (st : PState)
  (r : Result unit) : Prop :=
  match r with
  | Ok _ st' =>
      List.length (tokens st') < List.length (tokens st)
      /\ fatalCount (m_errors st') = fatalCount (m_errors st)
  | Fatal st' => fatalCount (m_errors st') = S (fatalCount (m_errors st))
  | AssertFail msg =>
      p = PCase /\ currentToken st <> Token.Case
      /\ currentToken st <> Token.Default
      /\ msg = "Case or default case expected."
  | OutOfFuel => fuel + m_recursionDepth st < maxRecursionDepth
  end.

End Endings.

(** The tokens a literal begins with. *)
Definition isLiteralClass (t : Token.t) : bool :=
  match t with
  | Token.StringLiteral | Token.Number | Token.TrueLiteral
  | Token.FalseLiteral => true
  | _ => false
  end.

Definition isLiteral (e : Expression) : bool :=
  match e with
  | ExprLiteral _ => true
  | _ => false
  end.

Definition isIdentifier (e : Expression) : bool :=
  match e with
  | ExprIdentifier _ => true
  | _ => false
  end.

(** ** The recoverable diagnostics, by the position of a node *)

(** What the recoverable diagnostics are compared by: where the diagnostic
    begins, and its message. *)
Definition noteOf (e : Error) : Z * string :=
  (loc_start (err_location e), err_message e).

Definition notesOf (st : PState) : list (Z * string) :=
  map noteOf (m_errors st).

(** The note of [break] or [continue] at [l], in component [c] of the
    innermost loop, by the specification's table. *)
Definition keywordNote (which : string) (c : ForLoopComponent.t)
  (l : SourceLocation) : list (Z * string) :=
  match misplacedMessage which c with
  | Some message => [(loc_start l, message)]
  | None => []
  end.

(** The message for a function definition in the init block of a loop. *)
Definition functionInInit : string :=
  "Functions cannot be defined inside a for-loop init block.".

(** The notes of a tree that stands in component [c] of the innermost loop
    around it, inside a function or not, in the order of the text.  The
    blocks of a loop stand in its init, post and body component; the body of
    a function stands in no component and inside a function; an [if], a
    [switch] and a block leave the position as it is. *)
Fixpoint statementNotes (c : ForLoopComponent.t) (inside : bool)
  (s : Statement) {struct s} : list (Z * string) :=
  match s with
  | Break l => keywordNote "break" c l
  | Continue l => keywordNote "continue" c l
  | Leave l =>
      if inside then []
      else [(loc_start l,
             ("Keyword " ++ dquote ++ "leave" ++ dquote
              ++ " can only be used inside a function.")%string)]
  | FunctionDefinition l _ _ _ body =>
      match c with
      | ForLoopComponent.ForLoopPre =>
          [(loc_start l, functionInInit)]
      | _ => []
      end
      ++ blockNotes ForLoopComponent.None true body
  | ForLoop _ pre _ post body =>
      blockNotes ForLoopComponent.ForLoopPre inside pre
      ++ blockNotes ForLoopComponent.ForLoopPost inside post
      ++ blockNotes ForLoopComponent.ForLoopBody inside body
  | If _ _ body => blockNotes c inside body
  | Switch _ _ cases => flat_map (caseNotes c inside) cases
  | BlockStatement b => blockNotes c inside b
  | _ => []
  end
with blockNotes (c : ForLoopComponent.t) (inside : bool) (b : Block)
  {struct b} : list (Z * string) :=
  match b with
  | mkBlock _ statements => flat_map (statementNotes c inside) statements
  end
with caseNotes (c : ForLoopComponent.t) (inside : bool) (cs : Case)
  {struct cs} : list (Z * string) :=
  match cs with
  | mkCase _ _ body => blockNotes c inside body
  end.

(** The guarantees of the productions, for [frame]: a production that
    returns has put the two context fields back, and has recorded the notes
    of what it returns, in the position the fields gave at entry; what has no
    statement below it has recorded nothing. *)
Definition sameContext (st st' : PState) : Prop :=
  m_insideFunction st' = m_insideFunction st
  /\ m_currentForLoopComponent st' = m_currentForLoopComponent st.

Definition silentRun {A} : PState -> PState -> A -> Prop :=
  fun st st' _ => sameContext st st' /\ m_errors st' = m_errors st.

Definition statementNoted : PState -> PState -> Statement -> Prop :=
  fun st st' s =>
    sameContext st st'
    /\ notesOf st'
       = notesOf st
         ++ statementNotes (m_currentForLoopComponent st)
                           (m_insideFunction st) s.

Definition blockNoted : PState -> PState -> Block -> Prop :=
  fun st st' b =>
    sameContext st st'
    /\ notesOf st'
       = notesOf st
         ++ blockNotes (m_currentForLoopComponent st) (m_insideFunction st) b.

Definition caseNoted : PState -> PState -> Case -> Prop :=
  fun st st' c =>
    sameContext st st'
    /\ notesOf st'
       = notesOf st
         ++ caseNotes (m_currentForLoopComponent st) (m_insideFunction st) c.
(** A result whose value is kept and whose state goes through [g]. *)
Definition onReturn {A} (g : PState -> PState) (r : Result A) : Result A :=
  match r with
  | Ok a st => Ok a (g st)
  | _ => r
  end.

(** ** Which fatal errors are raised *)

(** The begin of the message that [parseStatement] has for an assignment to
    a built-in. *)
Definition cannotAssign : string := "Cannot assign to builtin function".

Definition otherMessage (e : Error) : bool :=
  negb (String.prefix cannotAssign (err_message e)).

(** The diagnostic recorded last, if any, has another message. *)
Definition raisedOther (st : PState) : Prop :=
  match back (m_errors st) with
  | Some e => otherMessage e = true
  | None => True
  end.

(** An operand that can be tested as the target of an assignment: if it is
    an identifier, it is not a built-in of dialect [d]. *)
Definition targetOK (d : Dialect) (e : Expression) : Prop :=
  match e with
  | ExprIdentifier i => builtin d (id_name i) = false
  | _ => True
  end.

(** A call that unwinds has raised another error; one that returns, a value
    that is [good]. *)
Definition unraised {A} (good : A -> Prop) (r : Result A) : Prop :=
  match r with
  | Ok a _ => good a
  | Fatal st' => raisedOther st'
  | AssertFail _ => True
  | OutOfFuel => True
  end.

Definition roundUnraised {T A} (goodS : T -> Prop) (goodA : A -> Prop)
  (r : Result (T + A)) : Prop :=
  match r with
  | Ok (inl s') _ => goodS s'
  | Ok (inr a) _ => goodA a
  | Fatal st' => raisedOther st'
  | AssertFail _ => True
  | OutOfFuel => True
  end.

Definition anyValue {A} : A -> Prop := fun _ => True.

(** ** The conversion of a lexeme to [u256] *)

(** Modelled from the spec: the digits of a decimal or hexadecimal
    lexeme, for the conversion to [u256] below. *)
Definition digitValue (base : N) (c : ascii) : option N :=
  let n := N_of_ascii c in
  if (48 <=? n)%N && (n <=? 57)%N then Some (n - 48)%N
  else if N.eqb base 16 && (97 <=? n)%N && (n <=? 102)%N then Some (n - 87)%N
  else if N.eqb base 16 && (65 <=? n)%N && (n <=? 70)%N then Some (n - 55)%N
  else None.

Fixpoint parseDigits (base : N) (s : string) (acc : N) : option N :=
  match s with
  | EmptyString => Some acc
  | String c rest =>
      match digitValue base c with
      | Some d => parseDigits base rest (acc * base + d)%N
      | None => None
      end
  end.

(** Modelled from the spec: the integer a lexeme denotes, however large:
    decimal digits, or [0x] and hexadecimal digits. *)
Definition lexemeValue (s : string) : option N :=
  match s with
  | EmptyString => None
  | String "0" (String "x" EmptyString) => None
  | String "0" (String "x" digits) => parseDigits 16 digits 0
  | _ => parseDigits 10 s 0
  end.

(** Modelled from the spec: the conversion of a lexeme to [u256] of
    libsolutil, which is not part of the sources at hand.  By section 4.12 a
    lexeme parses as an unsigned 256-bit integer and any overflow is
    rejected: the value of the lexeme when it fits 256 bits; anything else
    makes the constructor throw. *)
Definition u256_of_string (s : string) : option N :=
  match lexemeValue s with
  | Some v => if (v <? 2 ^ 256)%N then Some v else None
  | None => None
  end.

(** ** Sample inputs *)

Definition tk (kind : Token.t) (lexeme : string) (a b : Z) : TokenInfo :=
  mkTok kind lexeme (mkLoc a b).

Definition scannerOf (ts : list TokenInfo) : Scanner :=
  mkScanner ts (mkLoc 1000 1000) false.

(** A parser that has not parsed anything yet. *)
Definition freshParser : PState :=
  mkPState (scannerOf []) [] 0 false ForLoopComponent.None.

(** A loose and a typed dialect whose only built-in is [add]. *)
Definition looseDialect : Dialect :=
  mkDialect AsmFlavour.Loose (fun name => String.eqb name "add").
Definition typedDialect : Dialect :=
  mkDialect AsmFlavour.Yul (fun name => String.eqb name "add").

(** [{ a, b := f() }] *)
Definition multiAssignment : list TokenInfo :=
  [ tk Token.LBrace EmptyString 0 1; tk Token.Identifier "a" 2 3;
    tk Token.Comma EmptyString 3 4; tk Token.Identifier "b" 5 6;
    tk Token.AssemblyAssign EmptyString 7 9; tk Token.Identifier "f" 10 11;
    tk Token.LParen EmptyString 11 12; tk Token.RParen EmptyString 12 13;
    tk Token.RBrace EmptyString 14 15 ].

(** [{ x }] *)
Definition bareIdentifier : list TokenInfo :=
  [ tk Token.LBrace EmptyString 0 1; tk Token.Identifier "x" 2 3;
    tk Token.RBrace EmptyString 4 5 ].

(** [{ 7 }] *)
Definition bareLiteral : list TokenInfo :=
  [ tk Token.LBrace EmptyString 0 1; tk Token.Number "7" 2 3;
    tk Token.RBrace EmptyString 4 5 ].

(** [{ add := 1 }] *)
Definition assignToBuiltin : list TokenInfo :=
  [ tk Token.LBrace EmptyString 0 1; tk Token.Identifier "add" 2 5;
    tk Token.AssemblyAssign EmptyString 6 8; tk Token.Number "1" 9 10;
    tk Token.RBrace EmptyString 11 12 ].

(** [{ function f() { ) }]: a fatal error inside a function body. *)
Definition fatalInFunction : list TokenInfo :=
  [ tk Token.LBrace EmptyString 0 1; tk Token.Function EmptyString 2 10;
    tk Token.Identifier "f" 11 12; tk Token.LParen EmptyString 12 13;
    tk Token.RParen EmptyString 13 14; tk Token.LBrace EmptyString 15 16;
    tk Token.RParen EmptyString 17 18; tk Token.RBrace EmptyString 19 20 ].

(** [{ for { } x { } { ) }]: a fatal error inside a loop body. *)
Definition fatalInLoopBody : list TokenInfo :=
  [ tk Token.LBrace EmptyString 0 1; tk Token.For EmptyString 2 5;
    tk Token.LBrace EmptyString 6 7; tk Token.RBrace EmptyString 7 8;
    tk Token.Identifier "x" 9 10;
    tk Token.LBrace EmptyString 11 12; tk Token.RBrace EmptyString 12 13;
    tk Token.LBrace EmptyString 14 15; tk Token.RParen EmptyString 16 17;
    tk Token.RBrace EmptyString 18 19 ].

(** [{ function f() { leave } for { } x { } { break } }] *)
Definition functionAndLoop : list TokenInfo :=
  [ tk Token.LBrace EmptyString 0 1; tk Token.Function EmptyString 2 10;
    tk Token.Identifier "f" 11 12; tk Token.LParen EmptyString 12 13;
    tk Token.RParen EmptyString 13 14; tk Token.LBrace EmptyString 15 16;
    tk Token.Identifier "leave" 17 22; tk Token.RBrace EmptyString 23 24;
    tk Token.For EmptyString 25 28;
    tk Token.LBrace EmptyString 29 30; tk Token.RBrace EmptyString 30 31;
    tk Token.Identifier "x" 32 33;
    tk Token.LBrace EmptyString 34 35; tk Token.RBrace EmptyString 35 36;
    tk Token.LBrace EmptyString 37 38; tk Token.Break EmptyString 39 44;
    tk Token.RBrace EmptyString 45 46; tk Token.RBrace EmptyString 47 48 ].

(** [{ switch x case 0 { } default { } }] *)
Definition switchWithDefault : list TokenInfo :=
  [ tk Token.LBrace EmptyString 0 1; tk Token.Switch EmptyString 2 8;
    tk Token.Identifier "x" 9 10; tk Token.Case EmptyString 11 15;
    tk Token.Number "0" 16 17;
    tk Token.LBrace EmptyString 18 19; tk Token.RBrace EmptyString 19 20;
    tk Token.Default EmptyString 21 28;
    tk Token.LBrace EmptyString 29 30; tk Token.RBrace EmptyString 30 31;
    tk Token.RBrace EmptyString 32 33 ].

(** [{ break }] *)
Definition breakOutside : list TokenInfo :=
  [ tk Token.LBrace EmptyString 0 1; tk Token.Break EmptyString 2 7; tk Token.RBrace EmptyString 8 9 ].

(** The decimal lexeme of 2^256, the least number that does not fit. *)
Definition twoTo256 : string :=
  "115792089237316195423570985008687907853269984665640564039457584007913129639936".

(** [{ let x := 0x1g }] *)
Definition invalidNumber : list TokenInfo :=
  [ tk Token.LBrace EmptyString 0 1; tk Token.Let EmptyString 2 5;
    tk Token.Identifier "x" 6 7; tk Token.AssemblyAssign EmptyString 8 10;
    tk Token.Number "0x1g" 11 15; tk Token.RBrace EmptyString 16 17 ].

(** The state of a fresh parser that is about to read [ts]. *)
Definition reading (ts : list TokenInfo) : PState :=
  setScanner (scannerOf ts) freshParser.

(** A small opcode table, with the two opcodes that have two names. *)
Definition sampleOpcodes : list (string * Instruction) :=
  [ ("ADD", 1%N); ("JUMPDEST", 91%N); ("KECCAK256", 32%N); ("PUSH1", 96%N);
    ("SELFDESTRUCT", 255%N); ("SHA3", 32%N); ("SUICIDE", 255%N) ].
Definition sampleIsPush (i : Instruction) : bool :=
  (96 <=? i)%N && (i <=? 127)%N.

(** [{ let x := 7 x := f(x) }] *)
Definition declareAndAssign : list TokenInfo :=
  [ tk Token.LBrace EmptyString 0 1; tk Token.Let EmptyString 2 5;
    tk Token.Identifier "x" 6 7; tk Token.AssemblyAssign EmptyString 8 10;
    tk Token.Number "7" 11 12; tk Token.Identifier "x" 13 14;
    tk Token.AssemblyAssign EmptyString 15 17; tk Token.Identifier "f" 18 19;
    tk Token.LParen EmptyString 19 20; tk Token.Identifier "x" 20 21;
    tk Token.RParen EmptyString 21 22; tk Token.RBrace EmptyString 23 24 ].

(** [{ let x:u256 := true:bool }] *)
Definition typedDeclaration : list TokenInfo :=
  [ tk Token.LBrace EmptyString 0 1; tk Token.Let EmptyString 2 5;
    tk Token.Identifier "x" 6 7; tk Token.Colon EmptyString 7 8;
    tk Token.Identifier "u256" 8 12; tk Token.AssemblyAssign EmptyString 13 15;
    tk Token.TrueLiteral "true" 16 20; tk Token.Colon EmptyString 20 21;
    tk Token.Bool "bool" 21 25; tk Token.RBrace EmptyString 26 27 ].

(** [{ } x]: a block and a token after it. *)
Definition blockAndMore : list TokenInfo :=
  [ tk Token.LBrace EmptyString 0 1; tk Token.RBrace EmptyString 1 2;
    tk Token.Identifier "x" 3 4 ].

(** A diagnostic of an earlier parse. *)
Definition earlierError : Error :=
  mkError ErrorType.SyntaxError (mkLoc 0 0) "earlier".

(** [7()] *)
Definition calledLiteral : list TokenInfo :=
  [ tk Token.Number "7" 0 1; tk Token.LParen EmptyString 1 2;
    tk Token.RParen EmptyString 2 3 ].

(** [case x { }] *)
Definition caseOfName : list TokenInfo :=
  [ tk Token.Case EmptyString 0 4; tk Token.Identifier "x" 5 6;
    tk Token.LBrace EmptyString 7 8; tk Token.RBrace EmptyString 8 9 ].

(** [7 := 1] *)
Definition assignToLiteral : list TokenInfo :=
  [ tk Token.Number "7" 0 1; tk Token.AssemblyAssign EmptyString 2 4;
    tk Token.Number "1" 5 6 ].

(** [if x { }] *)
Definition ifStatement : list TokenInfo :=
  [ tk Token.If EmptyString 0 2; tk Token.Identifier "x" 3 4;
    tk Token.LBrace EmptyString 5 6; tk Token.RBrace EmptyString 6 7 ].

(** [{ for { break } x { continue }
        { break function f() { leave break } leave } }] *)
Definition keywordsInPlaces : list TokenInfo :=
  [ tk Token.LBrace EmptyString 0 1; tk Token.For EmptyString 2 5;
    tk Token.LBrace EmptyString 6 7; tk Token.Break EmptyString 8 13;
    tk Token.RBrace EmptyString 14 15; tk Token.Identifier "x" 16 17;
    tk Token.LBrace EmptyString 18 19; tk Token.Continue EmptyString 20 28;
    tk Token.RBrace EmptyString 29 30; tk Token.LBrace EmptyString 31 32;
    tk Token.Break EmptyString 33 38; tk Token.Function EmptyString 39 47;
    tk Token.Identifier "f" 48 49; tk Token.LParen EmptyString 49 50;
    tk Token.RParen EmptyString 50 51; tk Token.LBrace EmptyString 52 53;
    tk Token.Identifier "leave" 54 59; tk Token.Break EmptyString 60 65;
    tk Token.RBrace EmptyString 66 67; tk Token.Identifier "leave" 68 73;
    tk Token.RBrace EmptyString 74 75; tk Token.RBrace EmptyString 76 77 ].

(** [for { function f() { } } x { } { }] *)
Definition loopWithFunction : list TokenInfo :=
  [ tk Token.For EmptyString 0 3; tk Token.LBrace EmptyString 4 5;
    tk Token.Function EmptyString 6 14; tk Token.Identifier "f" 15 16;
    tk Token.LParen EmptyString 16 17; tk Token.RParen EmptyString 17 18;
    tk Token.LBrace EmptyString 19 20; tk Token.RBrace EmptyString 20 21;
    tk Token.RBrace EmptyString 22 23; tk Token.Identifier "x" 24 25;
    tk Token.LBrace EmptyString 26 27; tk Token.RBrace EmptyString 27 28;
    tk Token.LBrace EmptyString 29 30; tk Token.RBrace EmptyString 30 31 ].

(** An opcode table in which one opcode has two names. *)
Definition aliasOpcodes : list (string * Instruction) :=
  [ ("ADD", 1%N); ("KECCAK256", 32%N); ("PLUS", 1%N);
    ("SELFDESTRUCT", 255%N) ].

(** * Verification *)


(** ** Basic facts *)

Lemma fatalCount_app (es es' : list Error) :
  fatalCount (es ++ es') = fatalCount es + fatalCount es'.
Proof.
  unfold fatalCount. rewrite filter_app, length_app. reflexivity.
Qed.

Lemma fatalCount_parser (es : list Error) l msg :
  fatalCount (es ++ [mkError ErrorType.ParserError l msg])
  = S (fatalCount es).
Proof. rewrite fatalCount_app. cbn. lia. Qed.

Lemma fatalCount_syntax (es : list Error) l msg :
  fatalCount (es ++ [mkError ErrorType.SyntaxError l msg]) = fatalCount es.
Proof. rewrite fatalCount_app. cbn. lia. Qed.

Lemma fatalCount_pos_nonempty (es : list Error) :
  0 < fatalCount es -> es <> [].
Proof. intros H ->. cbn in H. lia. Qed.

Lemma Token_eqb_eq (a b : Token.t) : Token.eqb a b = true <-> a = b.
Proof. split; [destruct a, b; cbn; congruence | intros ->; destruct b; reflexivity]. Qed.

Lemma Token_eqb_refl (a : Token.t) : Token.eqb a a = true.
Proof. destruct a; reflexivity. Qed.

Lemma length_tl_le {A} (l : list A) : List.length (tl l) <= List.length l.
Proof. destruct l; cbn; lia. Qed.

(** A token that is not the end of the source is a token of the list, and
    consuming it makes the list shorter. *)
Lemma currentToken_consumes (st : PState) :
  currentToken st <> Token.EOS ->
  S (List.length (tl (tokens st))) = List.length (tokens st).
Proof.
  unfold currentToken, scannerCurrent, tokens.
  destruct (sc_tokens (m_scanner st)); cbn; congruence.
Qed.

(** *** Symbolic execution of a production *)

Ltac unfold_monad :=
  unfold checkBreakContinuePosition, expectToken, createWithLocation,
    syntaxError, advance, continue_, break_;
  unfold bind, gets, modify, ret, fatalParserError, yulAssertFail, outOfFuel,
    withEnd;
  cbv beta iota.

Ltac norm_state :=
  unfold tokens, currentToken, currentLiteral, location, endPosition,
    position, decreaseRecursionDepth, reportError, skipToken in *;
  cbn [m_scanner m_errors m_recursionDepth m_insideFunction
       m_currentForLoopComponent setScanner setErrors setRecursionDepth
       setInsideFunction setCurrentForLoopComponent scannerNext sc_tokens
       sc_eos sc_period supportPeriodInIdentifier Nat.pred] in *;
  rewrite ?fatalCount_parser, ?fatalCount_syntax in *.

Lemma kind_consumes (sc : Scanner) (t : Token.t) :
  tok_kind (scannerCurrent sc) = t -> t <> Token.EOS ->
  S (List.length (tl (sc_tokens sc))) = List.length (sc_tokens sc).
Proof.
  unfold scannerCurrent. destruct (sc_tokens sc); cbn; congruence.
Qed.

Lemma identifierClass_consumes (sc : Scanner) :
  isIdentifierClass (tok_kind (scannerCurrent sc)) = true ->
  S (List.length (tl (sc_tokens sc))) = List.length (sc_tokens sc).
Proof.
  unfold scannerCurrent. destruct (sc_tokens sc); cbn; congruence.
Qed.

Ltac token_facts :=
  repeat match goal with
  | H : Token.eqb _ _ = true |- _ => apply Token_eqb_eq in H
  end;
  repeat match goal with
  | H : tok_kind (scannerCurrent ?sc) = _,
    H' : context [tok_kind (scannerCurrent ?sc)] |- _ =>
      lazymatch H' with
      | H => fail
      | _ => rewrite H in H'; cbn [isIdentifierClass Token.eqb] in H'
      end
  end;
  try discriminate;
  repeat match goal with
  | H : isIdentifierClass (tok_kind (scannerCurrent ?sc)) = true |- _ =>
      lazymatch goal with
      | _ : S (List.length (tl (sc_tokens sc))) = List.length (sc_tokens sc)
        |- _ => fail
      | _ => pose proof (identifierClass_consumes sc H)
      end
  end;
  repeat match goal with
  | H : tok_kind (scannerCurrent ?sc) = ?t |- _ =>
      lazymatch goal with
      | _ : S (List.length (tl (sc_tokens sc))) = List.length (sc_tokens sc)
        |- _ => fail
      | _ => let N := fresh "Hlen" in
             assert (N : S (List.length (tl (sc_tokens sc)))
                         = List.length (sc_tokens sc))
               by (apply (kind_consumes sc H); discriminate)
      end
  end;
  cbn [sc_tokens scannerNext] in *;
  repeat match goal with
  | |- context [tl ?l] =>
      lazymatch goal with
      | _ : List.length (tl l) <= List.length l |- _ => fail
      | _ => pose proof (length_tl_le l)
      end
  | _ : context [tl ?l] |- _ =>
      lazymatch goal with
      | _ : List.length (tl l) <= List.length l |- _ => fail
      | _ => pose proof (length_tl_le l)
      end
  end.

Ltac split_post :=
  repeat match goal with
  | H : _ /\ _ |- _ => destruct H
  end.

Lemma list_max_snoc {A} (f : A -> nat) (l : list A) (x : A) :
  list_max (map f (l ++ [x])) = Nat.max (list_max (map f l)) (f x).
Proof. rewrite map_app, list_max_app. cbn. lia. Qed.

Ltac nesting_facts :=
  cbn [exprNesting statementNesting blockNesting caseNesting] in *;
  rewrite ?list_max_snoc in *;
  unfold list_max in *; cbn [map fold_right] in *.

Ltac finish :=
  cbn [post roundPost loopPost] in *;
  unfold rel, notBuiltinName, typedNameOK, elementaryOK, callOK, exprOK,
    statementOK, blockOK, caseOK in *;
  split_post;
  repeat match goal with
  | H : ?x = _ |- _ => is_var x; subst x
  end;
  norm_state; token_facts;
  repeat match goal with
  | H : ?a = ?a -> _ |- _ => specialize (H eq_refl)
  | H : ?P -> _, H' : ?P |- _ =>
      match type of P with Prop => specialize (H H') end
  end;
  cbn [tn_name id_name fst snd] in *;
  nesting_facts;
  repeat split; try lia; try congruence; auto.

(** One step: the scrutinee the execution is stuck on is either a call of a
    production with a known guarantee, or a test to split on. *)
Ltac prove_pre :=
  first [ left; apply Token_eqb_eq; assumption
        | right; apply Token_eqb_eq; assumption ].

Ltac step :=
  match goal with
  | H : forall st, _ -> post _ _ _ st (?p st)
    |- context [match ?p ?s with _ => _ end] =>
      let Hs := fresh "Hs" in
      pose proof (H s ltac:(prove_pre)) as Hs; destruct (p s);
      cbn [post] in Hs; [ | | contradiction | ]
  | H : forall st, post _ _ _ st (?p st) |- post _ _ _ _ (?p ?s) =>
      let Hs := fresh "Hs" in
      pose proof (H s) as Hs; destruct (p s); cbn [post] in Hs;
      [ | | contradiction | ]
  | H : forall x st, post _ _ _ st (?p x st) |- post _ _ _ _ (?p ?x ?s) =>
      let Hs := fresh "Hs" in
      pose proof (H x s) as Hs; destruct (p x s); cbn [post] in Hs;
      [ | | contradiction | ]
  | H : forall st, post _ _ _ st (?p st) |- context [match ?p ?s with _ => _ end] =>
      let Hs := fresh "Hs" in
      pose proof (H s) as Hs; destruct (p s); cbn [post] in Hs;
      [ | | contradiction | ]
  | H : forall x st, post _ _ _ st (?p x st)
    |- context [match ?p ?x ?s with _ => _ end] =>
      let Hs := fresh "Hs" in
      pose proof (H x s) as Hs; destruct (p x s); cbn [post] in Hs;
      [ | | contradiction | ]
  | |- context [match ?x with _ => _ end] =>
      lazymatch x with
      | context [match _ with _ => _ end] => fail
      | while _ _ _ => fail
      | _ => destruct x eqn:?
      end
  end; cbv beta iota.

Section ParserProperties.

Variable m_dialect : Dialect.
Variable maxRecursionDepth : nat.
Variable u256 : string -> option N.

Local Abbreviation recursionGuard := (@recursionGuard maxRecursionDepth).
Local Abbreviation expectAsmIdentifier := (expectAsmIdentifier m_dialect).
Local Abbreviation parseTypedName := (parseTypedName m_dialect maxRecursionDepth).
Local Abbreviation parseElementaryOperation :=
  (parseElementaryOperation m_dialect maxRecursionDepth u256).
Local Abbreviation post := (@post maxRecursionDepth).
Local Abbreviation roundPost := (@roundPost maxRecursionDepth).
Local Abbreviation loopPost := (@loopPost maxRecursionDepth).
Local Abbreviation notBuiltinName := (notBuiltinName m_dialect).
Local Abbreviation typedNameOK := (typedNameOK m_dialect).
Local Abbreviation elementaryOK := (elementaryOK m_dialect).
Local Abbreviation nodeOK := (nodeOK m_dialect).
Local Abbreviation exprOK := (exprOK maxRecursionDepth).
Local Abbreviation callOK := (callOK maxRecursionDepth).
Local Abbreviation statementOK := (statementOK m_dialect maxRecursionDepth).
Local Abbreviation blockOK := (blockOK m_dialect maxRecursionDepth).
Local Abbreviation caseOK := (caseOK m_dialect maxRecursionDepth).
Local Abbreviation parseExpression :=
  (parseExpression m_dialect maxRecursionDepth u256).
Local Abbreviation parseCall := (parseCall m_dialect maxRecursionDepth u256).
Local Abbreviation parseVariableDeclaration :=
  (parseVariableDeclaration m_dialect maxRecursionDepth u256).
Local Abbreviation parseBlock := (parseBlock m_dialect maxRecursionDepth u256).
Local Abbreviation parseStatement :=
  (parseStatement m_dialect maxRecursionDepth u256).
Local Abbreviation parseCase := (parseCase m_dialect maxRecursionDepth u256).
Local Abbreviation parseForLoop :=
  (parseForLoop m_dialect maxRecursionDepth u256).
Local Abbreviation parseFunctionDefinition :=
  (parseFunctionDefinition m_dialect maxRecursionDepth u256).
Local Abbreviation parseTry := (parseTry m_dialect maxRecursionDepth u256).
Local Abbreviation parse := (parse m_dialect maxRecursionDepth u256).

Lemma recursionGuard_eq {A} (body : M A) (st : PState) :
  recursionGuard body st =
  let st1 := setRecursionDepth (S (m_recursionDepth st)) st in
  if Nat.ltb maxRecursionDepth (S (m_recursionDepth st))
  then Fatal (reportError ErrorType.ParserError (location st1)
                "Maximum recursion depth reached during parsing." st1)
  else match body st1 with
       | Ok a st2 => Ok a (decreaseRecursionDepth st2)
       | Fatal st2 => Fatal (decreaseRecursionDepth st2)
       | AssertFail msg => AssertFail msg
       | OutOfFuel => OutOfFuel
       end.
Proof.
  unfold recursionGuard, increaseRecursionDepth, bind, modify, gets, ret,
    fatalParserError.
  cbv beta iota zeta.
  change (m_recursionDepth (setRecursionDepth (S (m_recursionDepth st)) st))
    with (S (m_recursionDepth st)).
  destruct (Nat.ltb maxRecursionDepth (S (m_recursionDepth st))); reflexivity.
Qed.

(** The guard turns the guarantee [goodB] of a body, which only runs at a
    depth within the bound, into the guarantee [good] of the production. *)
Lemma recursionGuard_post_at {A} (goodB good : PState -> A -> Prop)
  (body : M A) f (st : PState) :
  let st1 := setRecursionDepth (S (m_recursionDepth st)) st in
  (m_recursionDepth st1 <= maxRecursionDepth -> post goodB f st1 (body st1)) ->
  (forall a, goodB st1 a -> good st a) ->
  post good (S f) st (recursionGuard body st).
Proof.
  intros st1 Hb Hg. rewrite recursionGuard_eq. cbv zeta. fold st1.
  destruct (Nat.ltb_spec maxRecursionDepth (S (m_recursionDepth st))).
  - cbn. apply fatalCount_parser.
  - assert (Hd1 : m_recursionDepth st1 <= maxRecursionDepth) by (cbn; lia).
    specialize (Hb Hd1).
    destruct (body st1); cbn in *; auto.
    + destruct Hb as (Hd & ? & ? & ? & ? & ?). rewrite Hd. cbn. intuition.
    + lia.
Qed.

Lemma recursionGuard_post {A} (goodB good : PState -> A -> Prop) (body : M A)
  f :
  (forall st, m_recursionDepth st <= maxRecursionDepth ->
              post goodB f st (body st)) ->
  (forall st a,
      goodB (setRecursionDepth (S (m_recursionDepth st)) st) a -> good st a) ->
  forall st, post good (S f) st (recursionGuard body st).
Proof.
  intros Hb Hg st. apply recursionGuard_post_at with (goodB := goodB);
    [apply Hb | apply Hg].
Qed.

(** From the guarantee of a body to the one of its production: the body
    runs one level deeper. *)
Ltac transfer :=
  intros;
  unfold callOK, exprOK, statementOK, blockOK, caseOK in *;
  norm_state; intuition lia.

Lemma recursionGuard_outOfFuel {A} (good : PState -> A -> Prop) :
  forall st, post good 0 st (recursionGuard (fun st' => outOfFuel st') st).
Proof.
  intros st. rewrite recursionGuard_eq. cbv zeta.
  destruct (Nat.ltb_spec maxRecursionDepth (S (m_recursionDepth st))).
  - cbn. apply fatalCount_parser.
  - cbn. lia.
Qed.

Lemma expectAsmIdentifier_post f :
  forall st, post notBuiltinName f st (expectAsmIdentifier st).
Proof.
  intros st. unfold expectAsmIdentifier. unfold_monad.
  repeat step; finish.
Qed.

Lemma post_fuel_le {A} (good : PState -> A -> Prop) f f' st r :
  f <= f' -> post good f' st r -> post good f st r.
Proof. destruct r; cbn; auto. lia. Qed.

Lemma post_good_impl {A} (good good' : PState -> A -> Prop) f st r :
  (forall a, good st a -> good' st a) -> post good f st r -> post good' f st r.
Proof. destruct r; cbn; intuition. Qed.

(** A production without calls of productions that need fuel. *)
Lemma recursionGuard_leaf {A} (good : PState -> A -> Prop) (body : M A) :
  (forall f st, post good f st (body st)) ->
  (forall st a,
      good (setRecursionDepth (S (m_recursionDepth st)) st) a -> good st a) ->
  forall f st, post good f st (recursionGuard body st).
Proof.
  intros Hb Hg f st. apply post_fuel_le with (f' := S f); [lia|].
  apply recursionGuard_post with (goodB := good); auto.
Qed.

Lemma parseTypedName_post f :
  forall st, post typedNameOK f st (parseTypedName st).
Proof.
  revert f. unfold parseTypedName.
  apply recursionGuard_leaf; [ | auto ].
  intros f st. pose proof (expectAsmIdentifier_post f) as HA.
  unfold_monad. repeat step; finish.
Qed.

Lemma parseElementaryOperation_post f :
  forall st, post elementaryOK f st (parseElementaryOperation st).
Proof.
  revert f. unfold parseElementaryOperation.
  apply recursionGuard_leaf; [ | auto ].
  intros f st. pose proof (expectAsmIdentifier_post f) as HA.
  unfold_monad. repeat step; finish.
Qed.

(** *** Loops *)

Lemma loop_post {T A} (body : T -> M (T + A)) (goodS : PState -> T -> Prop)
  (goodA : PState -> A -> Prop) (f : nat) :
  (forall s st, goodS st s -> roundPost goodS goodA f st (body s st)) ->
  forall n s st, goodS st s -> List.length (tokens st) < n ->
  loopPost goodA f st (loop n body s st).
Proof.
  intros Hb. induction n as [|n IH]; intros s st Hs Hn; [lia|].
  cbn [loop]. unfold bind. specialize (Hb s st Hs).
  destruct (body s st) as [[s'|a] st'| | |]; cbn in *; auto.
  - destruct Hb as (Hr & Hlt & Hs').
    assert (Hn' : List.length (tokens st') < n) by lia.
    specialize (IH s' st' Hs' Hn').
    destruct (loop n body s' st'); cbn in *; unfold rel in *;
      intuition (try congruence; try lia).
Qed.

Lemma while_post {T A} (body : T -> M (T + A)) (goodS : PState -> T -> Prop)
  (goodA : PState -> A -> Prop) (f : nat) :
  (forall s st, goodS st s -> roundPost goodS goodA f st (body s st)) ->
  forall s st, goodS st s -> loopPost goodA f st (while body s st).
Proof.
  intros Hb s st Hs. unfold while. apply loop_post with (goodS := goodS); auto.
Qed.

(** The step over a loop: the guarantee of one round is left to prove. *)
Ltac step_while gS gA fl :=
  match goal with
  | |- context [match while ?body ?s ?st with _ => _ end] =>
      let Hw := fresh "Hw" in
      assert (Hw : loopPost gA fl st (while body s st));
      [ apply while_post with (goodS := gS);
        [ let s' := fresh "s" in
          let st' := fresh "st" in
          let Hs := fresh "Hgood" in
          intros s' st' Hs; unfold_monad
        | ]
      | destruct (while body s st); cbn [loopPost] in Hw;
        [ | | contradiction | ]; cbv beta iota ]
  end.

Lemma back_snoc {A} (l : list A) (x : A) : back (l ++ [x]) = Some x.
Proof. unfold back. rewrite rev_app_distr. reflexivity. Qed.

Ltac rewrite_facts :=
  repeat match goal with
  | H : ?x = true |- context [?x] => rewrite H
  | H : ?x = false |- context [?x] => rewrite H
  end.

Ltac good_solve :=
  cbn [allStatements allBlock allCase forallb];
  rewrite ?forallb_app; cbn [allStatements allBlock allCase forallb];
  rewrite_facts;
  unfold nodeOK, switchWellFormed, namesNotBuiltin, assignmentLocated,
    isDefaultCase;
  cbn [case_value];
  repeat match goal with
  | H : back ?l = Some _ |- context [back ?l] => rewrite H
  end;
  cbn [loc_start loc_end];
  rewrite ?Z.eqb_refl;
  rewrite_facts; cbn [andb negb]; try reflexivity.

(** *** The guarantees of the productions *)

(** A body is entered by the guard at a depth within the bound, and its
    value is one level deeper than the production's. *)
Lemma parseBlock_body_post (pS : M Statement) f :
  (forall st, post (statementOK 0) f st (pS st)) ->
  forall st,
    m_recursionDepth st <= maxRecursionDepth ->
    post (blockOK 1) f st (parseBlock_body pS st).
Proof.
  intros HS st Hdepth. unfold parseBlock_body. unfold_monad.
  repeat step; try solve [finish].
  step_while
    (fun (st' : PState) (l : list Statement) =>
       forallb (allStatements nodeOK) l = true
       /\ m_recursionDepth st' + list_max (map statementNesting l)
          <= maxRecursionDepth)
    (fun (st' : PState) (l : list Statement) =>
       forallb (allStatements nodeOK) l = true
       /\ m_recursionDepth st' + list_max (map statementNesting l)
          <= maxRecursionDepth) f.
  - repeat step; finish; good_solve.
  - finish.
  - finish.
  - finish.
  - finish.
Qed.

Lemma parseCall_body_post (pE : M Expression) f :
  (forall st, post (exprOK 0) f st (pE st)) ->
  forall op st,
    m_recursionDepth st <= maxRecursionDepth ->
    post (callOK 1 op) f st (parseCall_body m_dialect pE op st).
Proof.
  intros HE op st Hdepth. unfold parseCall_body. unfold_monad.
  repeat step; try solve [finish].
  all: step_while
         (fun (st' : PState) (l : list Expression) =>
            exprNesting op = 1 ->
            m_recursionDepth st' + list_max (map exprNesting l)
            <= maxRecursionDepth)
         (fun (st' : PState) (l : list Expression) =>
            exprNesting op = 1 ->
            m_recursionDepth st' + list_max (map exprNesting l)
            <= maxRecursionDepth) f;
    [ repeat step; finish | finish | repeat step; finish .. ].
Qed.

Lemma parseExpression_body_post (pC : ElementaryOperation -> M Expression) f :
  (forall op st, post (callOK 0 op) f st (pC op st)) ->
  forall st,
    m_recursionDepth st <= maxRecursionDepth ->
    post (exprOK 1) f st
         (parseExpression_body m_dialect maxRecursionDepth u256 pC st).
Proof.
  intros HC st Hdepth. pose proof (parseElementaryOperation_post f) as HO.
  unfold parseExpression_body. unfold_monad.
  repeat step; try solve [finish].
Qed.

Lemma parseExpression_parseCall_post f :
  (forall st, post (exprOK 0) f st (parseExpression f st))
  /\ (forall op st, post (callOK 0 op) f st (parseCall f op st)).
Proof.
  induction f as [|f [IHE IHC]]; split; intros; cbn [parseExpression parseCall].
  - apply recursionGuard_outOfFuel.
  - apply recursionGuard_outOfFuel.
  - apply recursionGuard_post with (goodB := exprOK 1); [ | transfer ].
    intros st0 Hd. apply parseExpression_body_post; [exact IHC | exact Hd].
  - apply recursionGuard_post with (goodB := callOK 1 op); [ | transfer ].
    intros st0 Hd. apply parseCall_body_post; [exact IHE | exact Hd].
Qed.

Lemma parseExpression_post f st : post (exprOK 0) f st (parseExpression f st).
Proof. apply parseExpression_parseCall_post. Qed.

Lemma parseCall_post f op st : post (callOK 0 op) f st (parseCall f op st).
Proof. apply parseExpression_parseCall_post. Qed.

Lemma parseVariableDeclaration_body_post (pE : M Expression) f :
  (forall st, post (exprOK 0) f st (pE st)) ->
  forall st,
    m_recursionDepth st <= maxRecursionDepth ->
    post (statementOK 1) f st
         (parseVariableDeclaration_body m_dialect maxRecursionDepth pE st).
Proof.
  intros HE st Hdepth. pose proof (parseTypedName_post f) as HT.
  unfold parseVariableDeclaration_body. unfold_monad.
  repeat step; try solve [finish].
  step_while
    (fun (_ : PState) (l : list TypedName) =>
       forallb (fun v => negb (builtin m_dialect (tn_name v))) l = true)
    (fun (_ : PState) (l : list TypedName) =>
       forallb (fun v => negb (builtin m_dialect (tn_name v))) l = true) f.
  - repeat step; finish; good_solve.
  - reflexivity.
  - repeat step; finish; good_solve.
  - finish.
  - finish.
Qed.

Lemma parseVariableDeclaration_post f st :
  post (statementOK 0) f st (parseVariableDeclaration f st).
Proof.
  destruct f; unfold parseVariableDeclaration.
  - apply recursionGuard_outOfFuel.
  - apply recursionGuard_post with (goodB := statementOK 1); [ | transfer ].
    intros st0 Hd. apply parseVariableDeclaration_body_post; [ | exact Hd ].
    intros; apply parseExpression_post.
Qed.

Lemma parseCase_body_post (pB : M Block) f :
  (forall st, post (blockOK 0) f st (pB st)) ->
  forall st,
    m_recursionDepth st <= maxRecursionDepth ->
    currentToken st = Token.Case \/ currentToken st = Token.Default ->
    post (caseOK 1) f st
         (parseCase_body m_dialect maxRecursionDepth u256 pB st).
Proof.
  intros HB st Hdepth Hpre. pose proof (parseElementaryOperation_post f) as HO.
  unfold parseCase_body. unfold_monad.
  repeat step; try solve [finish; good_solve].
  all: finish; destruct Hpre as [E|E]; rewrite E in *; discriminate.
Qed.

Lemma parseForLoop_body_post (pB : M Block) (pE : M Expression) f :
  (forall st, post (blockOK 0) f st (pB st)) ->
  (forall st, post (exprOK 0) f st (pE st)) ->
  forall st,
    m_recursionDepth st <= maxRecursionDepth ->
    post (statementOK 1) f st (parseForLoop_body pB pE st).
Proof.
  intros HB HE st Hdepth. unfold parseForLoop_body. unfold_monad.
  repeat step; finish; good_solve.
Qed.

Lemma parseFunctionDefinition_body_post (pB : M Block) f :
  (forall st, post (blockOK 0) f st (pB st)) ->
  forall st,
    m_recursionDepth st <= maxRecursionDepth ->
    post (statementOK 1) f st
         (parseFunctionDefinition_body m_dialect maxRecursionDepth pB st).
Proof.
  intros HB st Hdepth. pose proof (parseTypedName_post f) as HT.
  pose proof (expectAsmIdentifier_post f) as HA.
  unfold parseFunctionDefinition_body. unfold_monad.
  repeat step; try solve [finish].
  all: step_while
    (fun (_ : PState) (l : list TypedName) =>
       forallb (fun v => negb (builtin m_dialect (tn_name v))) l = true)
    (fun (_ : PState) (l : list TypedName) =>
       forallb (fun v => negb (builtin m_dialect (tn_name v))) l = true) f;
    [ repeat step; finish; good_solve | reflexivity | | finish | finish ].
  all: repeat step; try solve [finish; good_solve].
  all: step_while
    (fun (_ : PState) (l : list TypedName) =>
       forallb (fun v => negb (builtin m_dialect (tn_name v))) l = true)
    (fun (_ : PState) (l : list TypedName) =>
       forallb (fun v => negb (builtin m_dialect (tn_name v))) l = true) f;
    [ repeat step; finish; good_solve | reflexivity | | finish | finish ].
  all: repeat step; try solve [finish; good_solve].
Qed.

Lemma forallb_rev {A} (p : A -> bool) (l : list A) :
  forallb p (rev l) = forallb p l.
Proof.
  induction l as [|x l IH]; cbn; [reflexivity|].
  rewrite forallb_app, IH. cbn. rewrite andb_true_r. apply andb_comm.
Qed.

Lemma casesWellFormed_snoc (cases : list Case) (c : Case) :
  forallb (fun c => negb (isDefaultCase c)) cases = true ->
  casesWellFormed (cases ++ [c]) = true.
Proof.
  intros H. unfold casesWellFormed. rewrite rev_app_distr. cbn.
  rewrite forallb_rev. exact H.
Qed.

Lemma casesWellFormed_back (cases : list Case) (c : Case) :
  forallb (fun c => negb (isDefaultCase c)) cases = true ->
  back cases = Some c ->
  casesWellFormed cases = true.
Proof.
  intros H. unfold casesWellFormed, back. rewrite <- forallb_rev in H.
  destruct (rev cases); [discriminate|]. cbn in H.
  apply andb_true_iff in H. intros _. apply H.
Qed.

Definition casesSoFar (st : PState) (cases : list Case) : Prop :=
  forallb (allCase nodeOK) cases = true
  /\ forallb (fun c => negb (isDefaultCase c)) cases = true
  /\ m_recursionDepth st + list_max (map caseNesting cases)
     <= maxRecursionDepth.

Lemma parseSwitch_post (pE : M Expression) (pC : M Case) f :
  (forall st, post (exprOK 0) f st (pE st)) ->
  (forall st,
      currentToken st = Token.Case \/ currentToken st = Token.Default ->
      post (caseOK 0) f st (pC st)) ->
  forall st,
    m_recursionDepth st <= maxRecursionDepth ->
    currentToken st = Token.Switch ->
    post (statementOK 1) f st (parseSwitch pE pC st).
Proof.
  intros HE HC st Hdepth Hsw. unfold parseSwitch, parseCases. unfold_monad.
  repeat step; try solve [finish].
  step_while casesSoFar (fun (st' : PState) l => casesSoFar st' l) f;
    unfold casesSoFar in *.
  - repeat step; try solve [finish; good_solve].
  - finish.
  - repeat step; try solve [finish].
    all: finish; good_solve.
    all: first [ rewrite casesWellFormed_snoc by assumption; reflexivity
               | erewrite casesWellFormed_back by eassumption; reflexivity ].
  - finish.
  - finish.
Qed.

Definition namesSoFar (_ : PState) (s : ElementaryOperation * list Identifier)
  : Prop :=
  forallb (fun i => negb (builtin m_dialect (id_name i))) (snd s) = true.

(** The loop over the targets ends with the identifier read last, which is
    the last of the names. *)
Definition namesRead (_ : PState) (r : Identifier * list Identifier) : Prop :=
  forallb (fun i => negb (builtin m_dialect (id_name i))) (snd r) = true
  /\ back (snd r) = Some (fst r).

Lemma parseAssignment_post (pE : M Expression) f :
  (forall st, post (exprOK 0) f st (pE st)) ->
  forall elementary st0 st,
    List.length (tokens st) < List.length (tokens st0) ->
    m_recursionDepth st = m_recursionDepth st0 ->
    m_insideFunction st = m_insideFunction st0 ->
    m_currentForLoopComponent st = m_currentForLoopComponent st0 ->
    fatalCount (m_errors st) = fatalCount (m_errors st0) ->
    post (statementOK 1) f st0
         (parseAssignment m_dialect maxRecursionDepth u256 pE elementary st).
Proof.
  intros HE elementary st0 st Hlt Hd Hi Hc He.
  pose proof (parseElementaryOperation_post f) as HO.
  unfold parseAssignment. unfold_monad.
  step_while namesSoFar namesRead f; unfold namesSoFar, namesRead in *.
  - destruct s as [e names]. cbn [snd fst] in *. cbv beta iota.
    repeat step; try solve [finish; good_solve; try apply back_snoc].
  - reflexivity.
  - destruct a as [identifier names]. cbn [snd fst] in *. cbv beta iota.
    repeat step; try solve [finish; good_solve].
  - finish.
  - finish.
Qed.

Lemma parseSimpleStatement_post (pE : M Expression)
  (pC : ElementaryOperation -> M Expression) f :
  (forall st, post (exprOK 0) f st (pE st)) ->
  (forall op st, post (callOK 0 op) f st (pC op st)) ->
  forall st,
    post (statementOK 1) f st
         (parseSimpleStatement m_dialect maxRecursionDepth u256 pE pC st).
Proof.
  intros HE HC st. pose proof (parseElementaryOperation_post f) as HO.
  unfold parseSimpleStatement.
  unfold bind at 1.
  pose proof (HO st) as Hs. destruct (parseElementaryOperation st) as [e st1| | |];
    cbn [post] in Hs; try solve [finish].
  destruct Hs as (Hd & Hi & Hc & He & Hlt & Hop & _).
  pose proof (@parseAssignment_post pE f HE e st st1 Hlt Hd Hi Hc He) as HA.
  unfold_monad.
  destruct (currentToken st1) eqn:Htok; try solve [finish]; try exact HA.
  repeat step; finish; good_solve.
Qed.

Lemma parseStatement_body_post
  (pVD pFD pFL : M Statement) (pB : M Block) (pE : M Expression)
  (pCase : M Case) (pCall : ElementaryOperation -> M Expression) f :
  (forall st, post (statementOK 0) f st (pVD st)) ->
  (forall st, post (statementOK 0) f st (pFD st)) ->
  (forall st, post (statementOK 0) f st (pFL st)) ->
  (forall st, post (blockOK 0) f st (pB st)) ->
  (forall st, post (exprOK 0) f st (pE st)) ->
  (forall st,
      currentToken st = Token.Case \/ currentToken st = Token.Default ->
      post (caseOK 0) f st (pCase st)) ->
  (forall op st, post (callOK 0 op) f st (pCall op st)) ->
  forall st,
    m_recursionDepth st <= maxRecursionDepth ->
    post (statementOK 1) f st
         (parseStatement_body m_dialect maxRecursionDepth u256
            pVD pFD pFL pB pE pCase pCall st).
Proof.
  intros HVD HFD HFL HB HE HCase HCall st Hdepth.
  pose proof (@parseSimpleStatement_post pE pCall f HE HCall st) as HSimple.
  pose proof (@parseSwitch_post pE pCase f HE HCase st Hdepth) as HSwitch.
  unfold parseStatement_body. unfold bind at 1. unfold gets at 1.
  destruct (currentToken st) eqn:Htok; try exact HSimple; auto.
  - (* { *) clear HSimple HSwitch. unfold_monad. repeat step; finish; good_solve.
  - (* function *) clear HSimple HSwitch. repeat step; finish.
  - (* let *) clear HSimple HSwitch. repeat step; finish.
  - (* if *) clear HSimple HSwitch. unfold_monad. repeat step; finish; good_solve.
  - (* for *) clear HSimple HSwitch. repeat step; finish.
  - (* break *) clear HSimple HSwitch. unfold_monad. repeat step; finish; good_solve.
  - (* continue *) clear HSimple HSwitch. unfold_monad.
    repeat step; finish; good_solve.
  - (* identifier *) clear HSwitch. unfold bind at 1. unfold gets at 1.
    destruct (String.eqb (currentLiteral st) "leave"); [ | exact HSimple ].
    clear HSimple. unfold_monad. repeat step; finish; good_solve.
Qed.

(** Every production keeps its guarantee, whatever the fuel. *)
Theorem productions_post (f : nat) :
  (forall st, post (blockOK 0) f st (parseBlock f st))
  /\ (forall st, post (statementOK 0) f st (parseStatement f st))
  /\ (forall st,
        currentToken st = Token.Case \/ currentToken st = Token.Default ->
        post (caseOK 0) f st (parseCase f st))
  /\ (forall st, post (statementOK 0) f st (parseForLoop f st))
  /\ (forall st, post (statementOK 0) f st (parseFunctionDefinition f st)).
Proof.
  induction f as [|f (IHB & IHS & IHC & IHL & IHF)].
  - repeat split; intros; cbn [parseBlock parseStatement parseCase parseForLoop
                                parseFunctionDefinition];
      apply recursionGuard_outOfFuel.
  - repeat split; intros;
      cbn [parseBlock parseStatement parseCase parseForLoop
           parseFunctionDefinition].
    + apply recursionGuard_post with (goodB := blockOK 1); [ | transfer ].
      intros st0 Hd. apply parseBlock_body_post; [exact IHS | exact Hd].
    + apply recursionGuard_post with (goodB := statementOK 1); [ | transfer ].
      intros st0 Hd. apply parseStatement_body_post; auto.
      * intros; apply parseVariableDeclaration_post.
      * intros; apply parseExpression_post.
      * intros; apply parseCall_post.
    + apply recursionGuard_post_at with (goodB := caseOK 1); [ | transfer ].
      intros Hd. apply parseCase_body_post; [exact IHB | exact Hd | assumption].
    + apply recursionGuard_post with (goodB := statementOK 1); [ | transfer ].
      intros st0 Hd. apply parseForLoop_body_post; auto.
      intros; apply parseExpression_post.
    + apply recursionGuard_post with (goodB := statementOK 1); [ | transfer ].
      intros st0 Hd. apply parseFunctionDefinition_body_post; auto.
Qed.

End ParserProperties.

(** ** Properties of all statements of a tree *)

Section AllImpl.

Variables P Q : Statement -> bool.
Hypothesis PQ : forall s, P s = true -> Q s = true.

Fixpoint allStatements_impl (s : Statement) {struct s} :
  allStatements P s = true -> allStatements Q s = true
with allBlock_impl (b : Block) {struct b} :
  allBlock P b = true -> allBlock Q b = true
with allCase_impl (c : Case) {struct c} :
  allCase P c = true -> allCase Q c = true.
Proof.
  - destruct s; cbn [allStatements]; intros H; apply andb_true_iff in H;
      destruct H as [H1 H2]; rewrite (PQ H1); cbn [andb]; try reflexivity.
    + exact (allBlock_impl _ H2).
    + exact (allBlock_impl _ H2).
    + clear H1. revert H2.
      induction cases as [|c cases IH]; cbn [forallb]; [reflexivity|].
      intros H. apply andb_true_iff in H. destruct H as [Hc Hr].
      rewrite (allCase_impl c Hc). exact (IH Hr).
    + apply andb_true_iff in H2. destruct H2 as [H2 H3].
      apply andb_true_iff in H2. destruct H2 as [H2 H4].
      rewrite (allBlock_impl _ H2), (allBlock_impl _ H3), (allBlock_impl _ H4).
      reflexivity.
    + exact (allBlock_impl _ H2).
  - destruct b as [l statements]; cbn [allBlock].
    induction statements as [|s statements IH]; cbn [forallb];
      [reflexivity|].
    intros H. apply andb_true_iff in H. destruct H as [Hs Hr].
    rewrite (allStatements_impl s Hs). exact (IH Hr).
  - destruct c as [l v b]; cbn [allCase]. exact (allBlock_impl b).
Qed.

End AllImpl.

(** ** The shape of a list of cases *)

Lemma filter_none {A} (p : A -> bool) (l : list A) :
  forallb (fun x => negb (p x)) l = true -> filter p l = [].
Proof.
  induction l as [|x l IH]; cbn; [reflexivity|].
  intros H. apply andb_true_iff in H. destruct H as [Hx Hl].
  apply negb_true_iff in Hx. rewrite Hx. auto.
Qed.

Lemma casesWellFormed_front (cases : list Case) :
  casesWellFormed cases = true <->
  exists front c,
    cases = front ++ [c]
    /\ forallb (fun c => negb (isDefaultCase c)) front = true.
Proof.
  unfold casesWellFormed. split.
  - destruct (rev cases) as [|c front] eqn:E; [discriminate|].
    intros H. exists (rev front), c. split.
    + rewrite <- (rev_involutive cases), E. reflexivity.
    + rewrite forallb_rev. exact H.
  - intros (front & c & -> & H). rewrite rev_app_distr. cbn.
    rewrite forallb_rev. exact H.
Qed.

Lemma casesWellFormed_shape (cases : list Case) :
  casesWellFormed cases = true <-> switchShape cases.
Proof.
  rewrite casesWellFormed_front. unfold switchShape. split.
  - intros (front & c & -> & H). split; [|split].
    + destruct front; discriminate.
    + rewrite filter_app, (filter_none _ _ H). cbn.
      destruct (isDefaultCase c); cbn; lia.
    + intros i d Hi Hd. rewrite length_app. cbn.
      destruct (Nat.lt_ge_cases i (List.length front)) as [Hlt|Hge].
      * rewrite nth_error_app1 in Hi by assumption.
        apply nth_error_In in Hi.
        rewrite forallb_forall in H. specialize (H _ Hi).
        rewrite Hd in H. discriminate.
      * assert (i < List.length (front ++ [c])).
        { apply nth_error_Some. congruence. }
        rewrite length_app in H0. cbn in H0. lia.
  - intros (Hne & _ & Hlast).
    destruct (rev cases) as [|c rfront] eqn:E.
    + exfalso. apply Hne. rewrite <- (rev_involutive cases), E. reflexivity.
    + assert (Hc : cases = rev rfront ++ [c]).
      { rewrite <- (rev_involutive cases), E. reflexivity. }
      exists (rev rfront), c. split; [exact Hc|].
      apply forallb_forall. intros d Hd.
      apply In_nth_error in Hd. destruct Hd as (i & Hi).
      destruct (isDefaultCase d) eqn:Ed; [|reflexivity].
      exfalso.
      assert (Hi' : nth_error cases i = Some d).
      { rewrite Hc, nth_error_app1; [exact Hi|].
        apply nth_error_Some. congruence. }
      specialize (Hlast i d Hi' Ed).
      assert (i < List.length (rev rfront)).
      { apply nth_error_Some. congruence. }
      rewrite Hc, length_app in Hlast. cbn in Hlast. lia.
Qed.

(** ** The entry point *)

Section ParserClaims.

Variable m_dialect : Dialect.
Variable maxRecursionDepth : nat.
Variable u256 : string -> option N.

Local Abbreviation recursionGuard := (@recursionGuard maxRecursionDepth).
Local Abbreviation expectAsmIdentifier := (expectAsmIdentifier m_dialect).
Local Abbreviation parseTypedName := (parseTypedName m_dialect maxRecursionDepth).
Local Abbreviation parseElementaryOperation :=
  (parseElementaryOperation m_dialect maxRecursionDepth u256).
Local Abbreviation post := (@post maxRecursionDepth).
Local Abbreviation nodeOK := (nodeOK m_dialect).
Local Abbreviation statementOK := (statementOK m_dialect maxRecursionDepth).
Local Abbreviation blockOK := (blockOK m_dialect maxRecursionDepth).
Local Abbreviation caseOK := (caseOK m_dialect maxRecursionDepth).
Local Abbreviation parseExpression :=
  (parseExpression m_dialect maxRecursionDepth u256).
Local Abbreviation parseCall := (parseCall m_dialect maxRecursionDepth u256).
Local Abbreviation parseVariableDeclaration :=
  (parseVariableDeclaration m_dialect maxRecursionDepth u256).
Local Abbreviation parseBlock := (parseBlock m_dialect maxRecursionDepth u256).
Local Abbreviation parseStatement :=
  (parseStatement m_dialect maxRecursionDepth u256).
Local Abbreviation parseCase := (parseCase m_dialect maxRecursionDepth u256).
Local Abbreviation parseForLoop :=
  (parseForLoop m_dialect maxRecursionDepth u256).
Local Abbreviation parseFunctionDefinition :=
  (parseFunctionDefinition m_dialect maxRecursionDepth u256).
Local Abbreviation parseTry := (parseTry m_dialect maxRecursionDepth u256).
Local Abbreviation parse := (parse m_dialect maxRecursionDepth u256).
Local Abbreviation isValidNumberLiteral := (isValidNumberLiteral u256).

Lemma parseBlock_post f st : post (blockOK 0) f st (parseBlock f st).
Proof. apply productions_post. Qed.

Lemma parseStatement_post f st :
  post (statementOK 0) f st (parseStatement f st).
Proof. apply productions_post. Qed.

Lemma parseForLoop_post f st : post (statementOK 0) f st (parseForLoop f st).
Proof. apply productions_post. Qed.

Lemma parseFunctionDefinition_post f st :
  post (statementOK 0) f st (parseFunctionDefinition f st).
Proof. apply productions_post. Qed.

Lemma parseTry_post f reuse st :
  post (blockOK 0) f st (parseTry f reuse st).
Proof.
  pose proof (parseBlock_post f) as HB.
  unfold parseTry. unfold_monad. repeat step; finish.
Qed.

(** What a call of [parse] amounts to. *)
Lemma parse_post fuel sc reuse st :
  match parse fuel sc reuse st with
  | Returned (Some b) st' =>
      (exists st'', parseTry fuel reuse (parseEntry sc st) = Ok b st''
                    /\ st' = resetScanner st'')
      /\ m_recursionDepth st' = 0
      /\ m_insideFunction st' = m_insideFunction st
      /\ m_currentForLoopComponent st' = m_currentForLoopComponent st
      /\ fatalCount (m_errors st') = fatalCount (m_errors st)
      /\ allBlock nodeOK b = true
      /\ blockNesting b <= maxRecursionDepth
  | Returned None st' =>
      (exists st'', parseTry fuel reuse (parseEntry sc st) = Fatal st''
                    /\ st' = resetScanner st'')
      /\ fatalCount (m_errors st') = S (fatalCount (m_errors st))
  | Threw _ => False
  | NoFuel => fuel < maxRecursionDepth
  end.
Proof.
  unfold parse.
  pose proof (parseTry_post fuel reuse (parseEntry sc st)) as H.
  destruct (parseTry fuel reuse (parseEntry sc st)) as [b st'| st' | |];
    cbn [post] in H.
  - unfold parseEntry, resetScanner, blockOK in *. finish. eauto.
  - unfold parseEntry in H. norm_state.
    destruct (m_errors st') eqn:E; [cbn in H; lia|].
    unfold resetScanner. norm_state. rewrite E. split; eauto.
  - contradiction.
  - unfold parseEntry in H. norm_state. lia.
Qed.

(** C4: [parse] returns nothing exactly when a fatal parse error was raised
    while parsing, that is when the body of its [try] unwinds, which is also
    exactly when the sink has one more fatal diagnostic than before; if it
    returns nothing the sink is not empty, and if no fatal error is raised it
    returns the block.  With fuel for the recursion bound [parse] always
    returns. *)
Theorem parse_nothing_iff_fatal fuel sc reuse st :
  maxRecursionDepth <= fuel ->
  exists r st',
    parse fuel sc reuse st = Returned r st'
    /\ (r = None <->
        exists st'', parseTry fuel reuse (parseEntry sc st) = Fatal st'')
    /\ (r = None <->
        fatalCount (m_errors st') = S (fatalCount (m_errors st)))
    /\ (r = None -> m_errors st' <> [])
    /\ (forall b st'',
          parseTry fuel reuse (parseEntry sc st) = Ok b st'' -> r = Some b)
    /\ ((forall st'', parseTry fuel reuse (parseEntry sc st) <> Fatal st'') ->
        exists b, r = Some b).
Proof.
  intros Hfuel. pose proof (parse_post fuel sc reuse st) as H.
  destruct (parse fuel sc reuse st) as [[b|] st'| |]; [ | | contradiction | lia ].
  - destruct H as ((st'' & Htry & _) & _ & _ & _ & Hcount & _).
    exists (Some b), st'. rewrite Htry.
    repeat split; intros; try discriminate; try congruence; try lia; eauto.
    destruct H as (st1 & E). discriminate.
  - destruct H as ((st'' & Htry & _) & Hcount).
    exists None, st'. rewrite Htry.
    repeat split; intros; try discriminate; try congruence; try lia; eauto.
    all: try (exfalso;
              match goal with
              | H : forall _, _ <> _ |- _ => apply (H st''); reflexivity
              end).
    apply fatalCount_pos_nonempty. lia.
Qed.

(** C3, as the code has it: the two context fields are put back on every
    normal return of [parseFunctionDefinition] and of [parseForLoop], and so
    they are what they were when [parse] returns a block. *)
Theorem context_restored_on_return f st st' :
  (exists s, parseFunctionDefinition f st = Ok s st')
  \/ (exists s, parseForLoop f st = Ok s st')
  \/ (exists sc reuse b, parse f sc reuse st = Returned (Some b) st') ->
  m_insideFunction st' = m_insideFunction st
  /\ m_currentForLoopComponent st' = m_currentForLoopComponent st.
Proof.
  intros [(s & E) | [(s & E) | (sc & reuse & b & E)]].
  - pose proof (parseFunctionDefinition_post f st) as H. rewrite E in H.
    cbn in H. intuition.
  - pose proof (parseForLoop_post f st) as H. rewrite E in H.
    cbn in H. intuition.
  - pose proof (parse_post f sc reuse st) as H. rewrite E in H. intuition.
Qed.

(** *** Switch statements *)

Lemma loop_cases_exit (pC : M Case) n acc st cases st' :
  loop n (fun cases : list Case =>
            tok <- gets currentToken ;;
            if Token.eqb tok Token.Case
            then c <- pC ;; continue_ (cases ++ [c])
            else break_ cases) acc st = Ok cases st' ->
  Token.eqb (currentToken st') Token.Case = false
  /\ (Token.eqb (currentToken st) Token.Case = false ->
      cases = acc /\ st' = st).
Proof.
  revert acc st. induction n as [|n IH]; intros acc st; cbn [loop];
    [discriminate|].
  unfold_monad.
  destruct (Token.eqb (currentToken st) Token.Case) eqn:E.
  - destruct (pC st) as [c st1| | |]; try discriminate.
    intros H. apply IH in H. split; [apply H | discriminate].
  - intros H. injection H as <- <-. auto.
Qed.

Lemma parseCases_exit (pC : M Case) st cases st' :
  parseCases pC st = Ok cases st' ->
  Token.eqb (currentToken st') Token.Case = false.
Proof.
  unfold parseCases, while. intros H. apply loop_cases_exit in H. apply H.
Qed.

Lemma parseStatement_switch f st :
  m_recursionDepth st < maxRecursionDepth ->
  currentToken st = Token.Switch ->
  parseStatement (S f) st =
  match parseSwitch (parseExpression f) (parseCase f) (entered st) with
  | Ok a st2 => Ok a (decreaseRecursionDepth st2)
  | Fatal st2 => Fatal (decreaseRecursionDepth st2)
  | AssertFail msg => AssertFail msg
  | OutOfFuel => OutOfFuel
  end.
Proof.
  intros Hd Htok. cbn [parseStatement]. rewrite recursionGuard_eq. cbv zeta.
  destruct (Nat.ltb_spec maxRecursionDepth (S (m_recursionDepth st)));
    [lia|].
  unfold parseStatement_body. unfold bind at 1. unfold gets at 1.
  change (currentToken (setRecursionDepth (S (m_recursionDepth st)) st))
    with (currentToken st).
  rewrite Htok. reflexivity.
Qed.

Lemma switch_errors f st e st1 cases st2 :
  m_recursionDepth st < maxRecursionDepth ->
  currentToken st = Token.Switch ->
  parseExpression f (skipToken (entered st)) = Ok e st1 ->
  parseCases (parseCase f) st1 = Ok cases st2 ->
  (forall c st3,
      currentToken st2 = Token.Default ->
      parseCase f st2 = Ok c st3 ->
      currentToken st3 = Token.Default ->
      raises (parseStatement (S f) st) (m_errors st3) (location st3)
             "Only one default case allowed.")
  /\ (forall c st3,
        currentToken st2 = Token.Default ->
        parseCase f st2 = Ok c st3 ->
        currentToken st3 = Token.Case ->
        raises (parseStatement (S f) st) (m_errors st3) (location st3)
               "Case not allowed after default case.")
  /\ (currentToken st2 <> Token.Default ->
      cases = [] ->
      raises (parseStatement (S f) st) (m_errors st2) (location st2)
             "Switch statement without any cases.").
Proof.
  intros Hd Htok HE HC.
  pose proof (@parseCases_exit _ _ _ _ HC) as Hexit.
  repeat split; intros;
    unfold raises; rewrite (@parseStatement_switch f st Hd Htok);
    unfold parseSwitch; unfold bind at 1;
    unfold createWithLocation, gets at 1;
    unfold bind at 1; unfold advance, modify at 1;
    unfold bind at 1; rewrite HE;
    unfold bind at 1; rewrite HC;
    unfold_monad.
  - rewrite H. cbn [Token.eqb]. rewrite H0. cbv beta iota.
    rewrite H1. cbn [Token.eqb]. eexists. split; reflexivity.
  - rewrite H. cbn [Token.eqb]. rewrite H0. cbv beta iota.
    rewrite H1. cbn [Token.eqb]. eexists. split; reflexivity.
  - subst cases.
    destruct (Token.eqb (currentToken st2) Token.Default) eqn:E;
      [apply Token_eqb_eq in E; contradiction|].
    cbv beta iota. rewrite ?E, ?Hexit. cbv beta iota. rewrite ?E, ?Hexit.
    cbn [back rev]. eexists. split; reflexivity.
Qed.

(** C5: every switch of a tree that [parse] returns has at least one case,
    at most one default case, and its default case, if any, last; a second
    [default] clause, a [case] clause after the [default] clause, and a
    switch without clauses are fatal errors with the messages of the
    specification. *)
Theorem switch_cases_well_formed :
  (forall fuel sc reuse st b st',
      parse fuel sc reuse st = Returned (Some b) st' ->
      allBlock switchWellFormed b = true)
  /\ (forall cases, casesWellFormed cases = true <-> switchShape cases)
  /\ (forall f st e st1 cases st2,
        m_recursionDepth st < maxRecursionDepth ->
        currentToken st = Token.Switch ->
        parseExpression f (skipToken (entered st)) = Ok e st1 ->
        parseCases (parseCase f) st1 = Ok cases st2 ->
        (forall c st3,
            currentToken st2 = Token.Default ->
            parseCase f st2 = Ok c st3 ->
            currentToken st3 = Token.Default ->
            raises (parseStatement (S f) st) (m_errors st3) (location st3)
                   "Only one default case allowed.")
        /\ (forall c st3,
              currentToken st2 = Token.Default ->
              parseCase f st2 = Ok c st3 ->
              currentToken st3 = Token.Case ->
              raises (parseStatement (S f) st) (m_errors st3) (location st3)
                     "Case not allowed after default case.")
        /\ (currentToken st2 <> Token.Default ->
            cases = [] ->
            raises (parseStatement (S f) st) (m_errors st2) (location st2)
                   "Switch statement without any cases.")).
Proof.
  split; [|split].
  - intros fuel sc reuse st b st' E.
    pose proof (parse_post fuel sc reuse st) as H. rewrite E in H.
    destruct H as (_ & _ & _ & _ & _ & H & _).
    revert H. apply allBlock_impl. intros s Hs.
    apply andb_true_iff in Hs. destruct Hs as (Hs & _).
    apply andb_true_iff in Hs. apply Hs.
  - apply casesWellFormed_shape.
  - apply switch_errors.
Qed.

(** *** Built-in names *)

Lemma guard_passes {A} (body : M A) st :
  m_recursionDepth st < maxRecursionDepth ->
  recursionGuard body st =
  match body (entered st) with
  | Ok a st2 => Ok a (decreaseRecursionDepth st2)
  | Fatal st2 => Fatal (decreaseRecursionDepth st2)
  | AssertFail msg => AssertFail msg
  | OutOfFuel => OutOfFuel
  end.
Proof.
  intros Hd. rewrite recursionGuard_eq. cbv zeta.
  destruct (Nat.ltb_spec maxRecursionDepth (S (m_recursionDepth st)));
    [lia | reflexivity].
Qed.

Lemma builtin_requires_call st :
  m_recursionDepth st < maxRecursionDepth ->
  isIdentifierClass (currentToken st) = true ->
  builtin m_dialect (currentLiteral st) = true ->
  currentToken (skipToken st) <> Token.LParen ->
  raises (parseElementaryOperation st) (m_errors st)
         (location (skipToken st))
         ("Expected '(' but got "
          ++ Token.friendlyName (currentToken (skipToken st))).
Proof.
  intros Hd Hc Hb Hn. unfold parseElementaryOperation.
  rewrite guard_passes by assumption. unfold_monad.
  unfold raises, entered in *. norm_state.
  destruct (Token.eqb
              (tok_kind (scannerCurrent (scannerNext (m_scanner st))))
              Token.LParen) eqn:E;
    [apply Token_eqb_eq in E; contradiction|].
  destruct (tok_kind (scannerCurrent (m_scanner st))); try discriminate;
    cbv beta iota; norm_state; rewrite Hb; cbv beta iota; norm_state;
    rewrite E; eexists; (split; [reflexivity|]); reflexivity.
Qed.

Lemma builtin_not_declarable st :
  isIdentifierClass (currentToken st) = true ->
  builtin m_dialect (currentLiteral st) = true ->
  raises (expectAsmIdentifier st) (m_errors st) (location st)
         ("Cannot use builtin function name " ++ dquote ++ currentLiteral st
          ++ dquote ++ " as identifier name.").
Proof.
  intros Hc Hb. unfold expectAsmIdentifier. unfold_monad.
  rewrite Hc, Hb. eexists. split; reflexivity.
Qed.

(** What holds of built-in names: no assignment target and no declared name
    of a tree that [parse] returns is a built-in; a built-in name read as an
    operand has to be followed by an opening parenthesis, so in the place of
    an assignment target it is the fatal error of that expectation; and a
    built-in name in the place of a declared name is the fatal error
    "Cannot use builtin function name ... as identifier name.". *)
Theorem builtin_names_protected :
  (forall fuel sc reuse st b st',
      parse fuel sc reuse st = Returned (Some b) st' ->
      allBlock (namesNotBuiltin m_dialect) b = true)
  /\ (forall st,
        m_recursionDepth st < maxRecursionDepth ->
        isIdentifierClass (currentToken st) = true ->
        builtin m_dialect (currentLiteral st) = true ->
        currentToken (skipToken st) <> Token.LParen ->
        raises (parseElementaryOperation st) (m_errors st)
               (location (skipToken st))
               ("Expected '(' but got "
                ++ Token.friendlyName (currentToken (skipToken st))))
  /\ (forall st,
        isIdentifierClass (currentToken st) = true ->
        builtin m_dialect (currentLiteral st) = true ->
        raises (expectAsmIdentifier st) (m_errors st) (location st)
               ("Cannot use builtin function name " ++ dquote
                ++ currentLiteral st ++ dquote ++ " as identifier name.")).
Proof.
  split; [|split].
  - intros fuel sc reuse st b st' E.
    pose proof (parse_post fuel sc reuse st) as H. rewrite E in H.
    destruct H as (_ & _ & _ & _ & _ & H & _).
    revert H. apply allBlock_impl. intros s Hs.
    apply andb_true_iff in Hs. destruct Hs as (Hs & _).
    apply andb_true_iff in Hs. apply Hs.
  - apply builtin_requires_call.
  - apply builtin_not_declarable.
Qed.

(** *** Statements that begin with an operand *)

Lemma parseStatement_simple f st :
  m_recursionDepth st < maxRecursionDepth ->
  startsSimpleStatement st = true ->
  parseStatement (S f) st =
  match parseSimpleStatement m_dialect maxRecursionDepth u256
          (parseExpression f) (parseCall f) (entered st) with
  | Ok a st2 => Ok a (decreaseRecursionDepth st2)
  | Fatal st2 => Fatal (decreaseRecursionDepth st2)
  | AssertFail msg => AssertFail msg
  | OutOfFuel => OutOfFuel
  end.
Proof.
  intros Hd Hs. cbn [parseStatement]. rewrite guard_passes by assumption.
  unfold parseStatement_body. unfold bind at 1. unfold gets at 1.
  unfold startsSimpleStatement in Hs.
  change (currentToken (entered st))
    with (tok_kind (scannerCurrent (m_scanner st))).
  destruct (tok_kind (scannerCurrent (m_scanner st))); try discriminate;
    try reflexivity.
  unfold bind at 1. unfold gets at 1.
  change (currentLiteral (entered st))
    with (tok_literal (scannerCurrent (m_scanner st))).
  apply negb_true_iff in Hs. rewrite Hs. reflexivity.
Qed.

(** C1, as the code has it: in every dialect, a statement that begins with
    an elementary operation and goes on with a token other than an opening
    parenthesis, a comma and [:=] is the fatal error "Call or assignment
    expected."; a bare identifier or literal is not a statement. *)
Theorem bare_operand_rejected f st e st1 :
  m_recursionDepth st < maxRecursionDepth ->
  startsSimpleStatement st = true ->
  parseElementaryOperation (entered st) = Ok e st1 ->
  currentToken st1 <> Token.LParen ->
  currentToken st1 <> Token.Comma ->
  currentToken st1 <> Token.AssemblyAssign ->
  raises (parseStatement (S f) st) (m_errors st1) (location st1)
         "Call or assignment expected.".
Proof.
  intros Hd Hs He H1 H2 H3.
  rewrite parseStatement_simple by assumption.
  unfold parseSimpleStatement. unfold bind at 1. rewrite He.
  unfold_monad.
  destruct (currentToken st1); try contradiction;
    eexists; split; reflexivity.
Qed.

(** *** Number literals *)

Lemma memChar_digits (c : ascii) : memChar c "0123456789" = isDecimalDigit c.
Proof. destruct c as [[] [] [] [] [] [] [] []]; reflexivity. Qed.

Lemma find_first_not_of_digits (l : string) :
  find_first_not_of "0123456789" l = None <-> allDecimalDigits l = true.
Proof.
  induction l as [|c l IH]; cbn [find_first_not_of allDecimalDigits].
  - split; reflexivity.
  - rewrite memChar_digits. destruct (isDecimalDigit c); cbn.
    + rewrite <- IH. destruct (find_first_not_of "0123456789" l); cbn;
        split; congruence.
    + split; discriminate.
Qed.

Lemma isValidNumberLiteral_iff (l : string) :
  isValidNumberLiteral l = true <->
  (exists v, u256 l = Some v)
  /\ (String.prefix "0x" l = true \/ allDecimalDigits l = true).
Proof.
  unfold isValidNumberLiteral. destruct (u256 l) as [v|].
  - destruct (String.prefix "0x" l).
    + split; [eauto|reflexivity].
    + rewrite <- find_first_not_of_digits.
      destruct (find_first_not_of "0123456789" l).
      * split; [discriminate|]. intros (_ & [H|H]); discriminate.
      * split; eauto.
  - split; [discriminate|]. intros ((v & H) & _). discriminate.
Qed.

Lemma invalid_number_literal st :
  m_recursionDepth st < maxRecursionDepth ->
  currentToken st = Token.Number ->
  isValidNumberLiteral (currentLiteral st) = false ->
  raises (parseElementaryOperation st) (m_errors st) (location st)
         "Invalid number literal.".
Proof.
  intros Hd Htok Hv. unfold parseElementaryOperation.
  rewrite guard_passes by assumption. unfold_monad.
  unfold raises, entered in *. norm_state. rewrite Htok.
  cbv beta iota. norm_state. rewrite Hv. cbn [negb]. cbv beta iota.
  eexists. split; reflexivity.
Qed.

(** *** Misplaced keywords *)

Lemma leave_state_eq (st : PState) msg :
  decreaseRecursionDepth (skipToken (noted msg (entered st)))
  = skipToken (noted msg st).
Proof. destruct st, msg; reflexivity. Qed.

(** One keyword, by the context fields at its token: [break] and [continue]
    outside a loop body, and [leave] outside a function, record the
    recoverable error of the specification's table, and in every case the
    statement is returned and the keyword consumed, so that parsing goes on;
    in a loop body, and for [leave] inside a function, nothing is
    recorded. *)
Lemma keyword_statement_returned f st :
  m_recursionDepth st < maxRecursionDepth ->
  (currentToken st = Token.Break ->
   parseStatement (S f) st =
   Ok (Break (location st))
      (skipToken
         (noted (misplacedMessage "break" (m_currentForLoopComponent st))
                st)))
  /\ (currentToken st = Token.Continue ->
      parseStatement (S f) st =
      Ok (Continue (location st))
         (skipToken
            (noted (misplacedMessage "continue"
                      (m_currentForLoopComponent st)) st)))
  /\ (currentToken st = Token.Identifier ->
      currentLiteral st = "leave" ->
      parseStatement (S f) st =
      Ok (Leave (location st))
         (skipToken
            (noted (if m_insideFunction st then None
                    else Some ("Keyword " ++ dquote ++ "leave" ++ dquote
                               ++ " can only be used inside a function.")
                              %string)
                   st)))
  /\ (forall which,
        m_currentForLoopComponent st = ForLoopComponent.ForLoopBody ->
        noted (misplacedMessage which (m_currentForLoopComponent st)) st
        = st).
Proof.
  intros Hd. repeat split.
  - intros Htok. cbn [parseStatement]. rewrite guard_passes by assumption.
    unfold parseStatement_body. unfold bind at 1. unfold gets at 1.
    change (currentToken (entered st)) with (currentToken st). rewrite Htok.
    unfold_monad. rewrite <- leave_state_eq.
    change (m_currentForLoopComponent (entered st))
      with (m_currentForLoopComponent st).
    destruct (m_currentForLoopComponent st); reflexivity.
  - intros Htok. cbn [parseStatement]. rewrite guard_passes by assumption.
    unfold parseStatement_body. unfold bind at 1. unfold gets at 1.
    change (currentToken (entered st)) with (currentToken st). rewrite Htok.
    unfold_monad. rewrite <- leave_state_eq.
    change (m_currentForLoopComponent (entered st))
      with (m_currentForLoopComponent st).
    destruct (m_currentForLoopComponent st); reflexivity.
  - intros Htok Hlit. cbn [parseStatement]. rewrite guard_passes by assumption.
    unfold parseStatement_body. unfold bind at 1. unfold gets at 1.
    change (currentToken (entered st)) with (currentToken st). rewrite Htok.
    unfold bind at 1. unfold gets at 1.
    change (currentLiteral (entered st)) with (currentLiteral st).
    rewrite Hlit. cbn [String.eqb Ascii.eqb Bool.eqb andb].
    unfold_monad. rewrite <- leave_state_eq.
    change (m_insideFunction (entered st)) with (m_insideFunction st).
    destruct (m_insideFunction st); reflexivity.
  - intros which ->. reflexivity.
Qed.

(** *** The recursion guard *)

Lemma guard_rejects {A} (body : M A) st :
  maxRecursionDepth <= m_recursionDepth st ->
  raises (recursionGuard body st) (m_errors st) (location st)
         "Maximum recursion depth reached during parsing.".
Proof.
  intros Hd. rewrite recursionGuard_eq. cbv zeta.
  destruct (Nat.ltb_spec maxRecursionDepth (S (m_recursionDepth st)));
    [|lia].
  eexists. split; reflexivity.
Qed.

(** Every production is its body under the recursion guard. *)
Lemma runProduction_guarded p fuel st :
  exists body : M unit,
    runProduction m_dialect maxRecursionDepth u256 p fuel st
    = recursionGuard body st.
Proof.
  assert (G : forall A (body : M A) st,
             forget (recursionGuard body st)
             = recursionGuard (fun st' => forget (body st')) st).
  { intros A body st0. rewrite !recursionGuard_eq. cbv zeta.
    destruct (Nat.ltb maxRecursionDepth (S (m_recursionDepth st0)));
      [reflexivity|].
    destruct (body _); reflexivity. }
  destruct p; cbn [runProduction];
    try (destruct fuel;
         cbn [parseBlock parseStatement parseCase parseForLoop
              parseFunctionDefinition parseExpression parseCall]);
    unfold parseVariableDeclaration, parseElementaryOperation, parseTypedName;
    rewrite G; eexists; reflexivity.
Qed.

Lemma runProduction_rejects p fuel st :
  maxRecursionDepth <= m_recursionDepth st ->
  raises (runProduction m_dialect maxRecursionDepth u256 p fuel st)
         (m_errors st) (location st)
         "Maximum recursion depth reached during parsing.".
Proof.
  intros Hd. destruct (runProduction_guarded p fuel st) as (body & ->).
  apply guard_rejects. exact Hd.
Qed.

Lemma post_depth {A} (good : PState -> A -> Prop) f st (r : Result A) st' :
  post good f st r -> forget r = Ok tt st' ->
  m_recursionDepth st' = m_recursionDepth st.
Proof.
  destruct r; cbn; try discriminate. intros H E. injection E as <-. apply H.
Qed.

Lemma parseCase_depth fuel st st' :
  forget (parseCase fuel st) = Ok tt st' ->
  m_recursionDepth st' = m_recursionDepth st.
Proof.
  destruct (Token.eqb (currentToken st) Token.Case) eqn:E1.
  { apply Token_eqb_eq in E1. intros E.
    eapply (@post_depth _ _ fuel); [|exact E]. apply productions_post. auto. }
  destruct (Token.eqb (currentToken st) Token.Default) eqn:E2.
  { apply Token_eqb_eq in E2. intros E.
    eapply (@post_depth _ _ fuel); [|exact E]. apply productions_post. auto. }
  destruct fuel; cbn [parseCase]; rewrite recursionGuard_eq; cbv zeta;
    destruct (Nat.ltb maxRecursionDepth (S (m_recursionDepth st)));
    try discriminate.
  unfold parseCase_body. unfold_monad.
  change (currentToken (setRecursionDepth (S (m_recursionDepth st)) st))
    with (currentToken st).
  rewrite E1, E2. discriminate.
Qed.

Lemma runProduction_depth p fuel st st' :
  runProduction m_dialect maxRecursionDepth u256 p fuel st = Ok tt st' ->
  m_recursionDepth st' = m_recursionDepth st.
Proof.
  destruct p; cbn [runProduction]; try apply parseCase_depth;
    intros E; (eapply (@post_depth _ _ fuel); [|exact E]).
  - apply parseBlock_post.
  - apply parseStatement_post.
  - apply parseForLoop_post.
  - apply parseExpression_post.
  - apply parseElementaryOperation_post.
  - apply parseVariableDeclaration_post.
  - apply parseFunctionDefinition_post.
  - apply parseCall_post.
  - apply parseTypedName_post.
Qed.

Lemma notOk_bind {A B} (m : M A) (k : A -> M B) st :
  notOk (m st) -> notOk (bind m k st).
Proof. unfold bind. destruct (m st); cbn; auto. contradiction. Qed.

Lemma notOk_guard {A} (body : M A) st :
  notOk (body (entered st)) -> notOk (recursionGuard body st).
Proof.
  intros H. rewrite recursionGuard_eq. cbv zeta.
  destruct (Nat.ltb maxRecursionDepth (S (m_recursionDepth st)));
    [exact I|].
  fold (entered st). destruct (body (entered st)); cbn in *; auto.
Qed.

Lemma notOk_guard_outOfFuel {A} st :
  notOk (recursionGuard (fun st' => @outOfFuel A st') st).
Proof. apply notOk_guard. exact I. Qed.

Lemma notOk_guard_full {A} (body : M A) st :
  maxRecursionDepth <= m_recursionDepth st -> notOk (recursionGuard body st).
Proof.
  intros H. rewrite recursionGuard_eq. cbv zeta.
  destruct (Nat.ltb_spec maxRecursionDepth (S (m_recursionDepth st)));
    [exact I | lia].
Qed.

(** Braces nested beyond the bound: the block is not parsed. *)
Lemma nested_blocks_notOk (braces : list TokenInfo) :
  Forall (fun t => tok_kind t = Token.LBrace) braces ->
  forall fuel st rest,
    tokens st = braces ++ rest ->
    maxRecursionDepth + 1 < m_recursionDepth st + 2 * List.length braces ->
    notOk (parseBlock fuel st).
Proof.
  induction 1 as [|t bs Ht Hbs IH]; intros fuel st rest Htok Hdepth.
  - cbn in Hdepth.
    destruct fuel; cbn [parseBlock]; apply notOk_guard_full; lia.
  - destruct fuel as [|f]; cbn [parseBlock];
      [apply notOk_guard_outOfFuel|].
    destruct (Nat.le_gt_cases maxRecursionDepth (m_recursionDepth st))
      as [Hfull|Hroom]; [apply notOk_guard_full; exact Hfull|].
    apply notOk_guard.
    unfold parseBlock_body. unfold bind at 1.
    unfold createWithLocation, gets at 1. unfold bind at 1.
    assert (Hcur : currentToken (entered st) = Token.LBrace).
    { unfold currentToken, scannerCurrent, entered. cbn.
      unfold tokens in Htok. rewrite Htok. exact Ht. }
    unfold expectToken. unfold bind at 1. unfold gets at 1.
    rewrite Hcur. cbn [Token.eqb]. unfold advance, modify.
    apply notOk_bind. unfold while. cbn [loop]. apply notOk_bind.
    assert (Htok1 : tokens (skipToken (entered st)) = bs ++ rest).
    { unfold tokens, skipToken, entered in *. cbn. rewrite Htok. reflexivity. }
    destruct bs as [|t' bs'].
    { cbn in Hdepth. lia. }
    assert (Hcur1 : currentToken (skipToken (entered st)) = Token.LBrace).
    { unfold currentToken, scannerCurrent. unfold tokens in Htok1.
      rewrite Htok1. cbn. inversion Hbs; assumption. }
    unfold bind at 1. unfold gets at 1. rewrite Hcur1. cbn [Token.eqb negb].
    apply notOk_bind.
    destruct f as [|f']; cbn [parseStatement];
      [apply notOk_guard_outOfFuel|].
    apply notOk_guard.
    unfold parseStatement_body. unfold bind at 1. unfold gets at 1.
    change (currentToken (entered (skipToken (entered st))))
      with (currentToken (skipToken (entered st))).
    rewrite Hcur1. apply notOk_bind.
    apply (IH f' (entered (skipToken (entered st))) rest).
    + exact Htok1.
    + cbn in *. lia.
Qed.

Lemma nested_blocks_rejected braces rest fuel sc reuse st :
  Forall (fun t => tok_kind t = Token.LBrace) braces ->
  sc_tokens sc = braces ++ rest ->
  maxRecursionDepth + 1 < 2 * List.length braces ->
  maxRecursionDepth <= fuel ->
  exists st', parse fuel sc reuse st = Returned None st'
              /\ m_errors st' <> [].
Proof.
  intros Hb Htok Hdeep Hfuel.
  pose proof (parse_post fuel sc reuse st) as H.
  assert (Hno : notOk (parseTry fuel reuse (parseEntry sc st))).
  { unfold parseTry. apply notOk_bind.
    apply (@nested_blocks_notOk braces Hb fuel (parseEntry sc st) rest).
    - exact Htok.
    - cbn. lia. }
  unfold parse in *.
  destruct (parseTry fuel reuse (parseEntry sc st)) as [b st1|st1| |];
    [ contradiction | | contradiction | lia ].
  destruct (m_errors st1) eqn:E; [contradiction|].
  eexists. split; [reflexivity|].
  apply fatalCount_pos_nonempty. destruct H as (_ & H). lia.
Qed.

Lemma parse_within_bound fuel sc reuse st :
  maxRecursionDepth <= fuel ->
  exists r st',
    parse fuel sc reuse st = Returned r st'
    /\ match r with
       | Some b => blockNesting b <= maxRecursionDepth
       | None => m_errors st' <> []
       end.
Proof.
  intros Hfuel. pose proof (parse_post fuel sc reuse st) as H.
  destruct (parse fuel sc reuse st) as [[b|] st'| |]; [ | | contradiction | lia ].
  - exists (Some b), st'. split; [reflexivity|]. apply H.
  - exists None, st'. split; [reflexivity|].
    apply fatalCount_pos_nonempty. destruct H as (_ & H). lia.
Qed.

(** Every assignment of a returned tree is located from the begin of its
    last target to the end of its value. *)
Lemma assignments_located fuel sc reuse st b st' :
  parse fuel sc reuse st = Returned (Some b) st' ->
  allBlock assignmentLocated b = true.
Proof.
  intros E. pose proof (parse_post fuel sc reuse st) as H. rewrite E in H.
  destruct H as (_ & _ & _ & _ & _ & H & _).
  revert H. apply allBlock_impl. intros s Hs.
  apply andb_true_iff in Hs. apply Hs.
Qed.

(** C9: [parse] starts from depth 0 whatever the depth was; every production
    runs its body under the recursion guard, which enters the body one level
    deeper and leaves it one level up, on a value as on a fatal unwinding; a
    production entered at the bound is the fatal error "Maximum recursion
    depth reached during parsing."; a production that returns leaves the
    depth as it was; [parse] returns either a block whose productions are
    nested within the bound, or nothing with the sink not empty; and when
    the braces at the beginning of the input are nested beyond the bound,
    [parse] returns nothing and the sink is not empty. *)
Theorem recursion_depth_guard :
  (forall fuel sc reuse st d,
      parse fuel sc reuse (setRecursionDepth d st) = parse fuel sc reuse st
      /\ m_recursionDepth (parseEntry sc st) = 0)
  /\ (forall p fuel st,
        exists body : M unit,
          runProduction m_dialect maxRecursionDepth u256 p fuel st
          = recursionGuard body st)
  /\ (forall A (body : M A) st,
        m_recursionDepth st < maxRecursionDepth ->
        recursionGuard body st =
        match body (entered st) with
        | Ok a st2 => Ok a (decreaseRecursionDepth st2)
        | Fatal st2 => Fatal (decreaseRecursionDepth st2)
        | AssertFail msg => AssertFail msg
        | OutOfFuel => OutOfFuel
        end)
  /\ (forall p fuel st,
        maxRecursionDepth <= m_recursionDepth st ->
        raises (runProduction m_dialect maxRecursionDepth u256 p fuel st)
               (m_errors st) (location st)
               "Maximum recursion depth reached during parsing.")
  /\ (forall p fuel st st',
        runProduction m_dialect maxRecursionDepth u256 p fuel st = Ok tt st' ->
        m_recursionDepth st' = m_recursionDepth st)
  /\ (forall fuel sc reuse st,
        maxRecursionDepth <= fuel ->
        exists r st',
          parse fuel sc reuse st = Returned r st'
          /\ match r with
             | Some b => blockNesting b <= maxRecursionDepth
             | None => m_errors st' <> []
             end)
  /\ (forall braces rest fuel sc reuse st,
        Forall (fun t => tok_kind t = Token.LBrace) braces ->
        sc_tokens sc = braces ++ rest ->
        maxRecursionDepth + 1 < 2 * List.length braces ->
        maxRecursionDepth <= fuel ->
        exists st', parse fuel sc reuse st = Returned None st'
                    /\ m_errors st' <> []).
Proof.
  repeat apply conj.
  - intros. split; reflexivity.
  - apply runProduction_guarded.
  - intros A body st. apply guard_passes.
  - apply runProduction_rejects.
  - apply runProduction_depth.
  - apply parse_within_bound.
  - apply nested_blocks_rejected.
Qed.

End ParserClaims.

Lemma parse_nothing_iff_fatal_witness :
  8 <= 8
  /\ exists r st',
      parse looseDialect 8 u256_of_string 8 (scannerOf bareIdentifier) false
            freshParser = Returned r st'
      /\ (r = None <->
          exists st'',
            parseTry looseDialect 8 u256_of_string 8 false
                     (parseEntry (scannerOf bareIdentifier) freshParser)
            = Fatal st'')
      /\ (r = None <->
          fatalCount (m_errors st') = S (fatalCount (m_errors freshParser)))
      /\ (r = None -> m_errors st' <> [])
      /\ (forall b st'',
            parseTry looseDialect 8 u256_of_string 8 false
                     (parseEntry (scannerOf bareIdentifier) freshParser)
            = Ok b st'' -> r = Some b)
      /\ ((forall st'',
             parseTry looseDialect 8 u256_of_string 8 false
                      (parseEntry (scannerOf bareIdentifier) freshParser)
             <> Fatal st'') ->
          exists b, r = Some b).
Proof.
  split; [lia|].
  apply (@parse_nothing_iff_fatal looseDialect 8 u256_of_string 8
           (scannerOf bareIdentifier) false freshParser).
  lia.
Defined.

(** The fields are not put back when a fatal error unwinds the parse: after
    [{ function f() { ) }] the parser is still inside a function, and after
    [{ for { } x { } { ) }] still in a loop body. *)
Lemma context_not_restored_on_fatal :
  (exists st',
      parse looseDialect 8 u256_of_string 8 (scannerOf fatalInFunction) false
            freshParser = Returned None st'
      /\ m_insideFunction st' <> m_insideFunction freshParser)
  /\ (exists st',
        parse looseDialect 8 u256_of_string 8 (scannerOf fatalInLoopBody)
              false freshParser = Returned None st'
        /\ m_currentForLoopComponent st'
           <> m_currentForLoopComponent freshParser).
Proof.
  split; eexists; (split; [vm_compute; reflexivity | vm_compute; discriminate]).
Qed.

Lemma context_restored_on_return_witness :
  exists st',
    parse looseDialect 8 u256_of_string 8 (scannerOf functionAndLoop) false
          freshParser
    = Returned (Some (mkBlock (mkLoc 0 48)
         [ FunctionDefinition (mkLoc 2 24) "f" [] []
             (mkBlock (mkLoc 15 24) [Leave (mkLoc 17 22)]);
           ForLoop (mkLoc 25 46) (mkBlock (mkLoc 29 31) [])
             (ExprIdentifier (mkIdentifier (mkLoc 32 33) "x"))
             (mkBlock (mkLoc 34 36) [])
             (mkBlock (mkLoc 37 46) [Break (mkLoc 39 44)]) ])) st'
    /\ m_insideFunction st' = m_insideFunction freshParser
    /\ m_currentForLoopComponent st'
       = m_currentForLoopComponent freshParser.
Proof.
  eexists. split; [vm_compute; reflexivity|].
  apply (@context_restored_on_return looseDialect 8 u256_of_string 8
           freshParser).
  right. right. exists (scannerOf functionAndLoop), false. eexists.
  vm_compute. reflexivity.
Defined.

(** In the loose dialect [{ x }] and [{ 7 }] are not accepted: the operand is
    read, the token after it is the closing brace, and the statement is the
    fatal error, not an expression statement. *)
Lemma bare_operand_not_accepted :
  (exists st1 st',
      parseElementaryOperation looseDialect 8 u256_of_string
        (entered (reading (tl bareIdentifier)))
      = Ok (ExprIdentifier (mkIdentifier (mkLoc 2 3) "x")) st1
      /\ currentToken st1 = Token.RBrace
      /\ parseStatement looseDialect 8 u256_of_string 4
           (reading (tl bareIdentifier)) = Fatal st'
      /\ lastError st'
         = Some (mkError ErrorType.ParserError (mkLoc 4 5)
                         "Call or assignment expected."))
  /\ (exists st1 st',
        parseElementaryOperation looseDialect 8 u256_of_string
          (entered (reading (tl bareLiteral)))
        = Ok (ExprLiteral (mkLiteral (mkLoc 2 3) LiteralKind.Number "7" EmptyString))
             st1
        /\ currentToken st1 = Token.RBrace
        /\ parseStatement looseDialect 8 u256_of_string 4
             (reading (tl bareLiteral)) = Fatal st'
        /\ lastError st'
           = Some (mkError ErrorType.ParserError (mkLoc 4 5)
                           "Call or assignment expected."))
  /\ (exists st',
        parse looseDialect 8 u256_of_string 8 (scannerOf bareIdentifier)
              false freshParser = Returned None st').
Proof.
  repeat split; repeat eexists; vm_compute; reflexivity.
Qed.

Lemma bare_operand_rejected_witness :
  raises (parseStatement looseDialect 8 u256_of_string 4
            (reading (tl bareIdentifier)))
         [] (mkLoc 4 5) "Call or assignment expected.".
Proof.
  apply (@bare_operand_rejected looseDialect 8 u256_of_string 3
           (reading (tl bareIdentifier))
           (ExprIdentifier (mkIdentifier (mkLoc 2 3) "x"))
           (setRecursionDepth 1 (reading [tk Token.RBrace EmptyString 4 5]))).
  - vm_compute. lia.
  - reflexivity.
  - vm_compute. reflexivity.
  - vm_compute. discriminate.
  - vm_compute. discriminate.
  - vm_compute. discriminate.
Defined.

(** C2 at [{ a, b := f() }]: the assignment spans 5 to 13, from the second
    target [b], while the first target [a] begins at 2. *)
Theorem assignment_location_starts_at_last_target :
  exists st',
    parse looseDialect 8 u256_of_string 8 (scannerOf multiAssignment) false
          freshParser
    = Returned
        (Some (mkBlock (mkLoc 0 15)
           [ Assignment (mkLoc 5 13)
               [ mkIdentifier (mkLoc 2 3) "a"; mkIdentifier (mkLoc 5 6) "b" ]
               (ExprFunctionCall (mkLoc 10 13)
                  (mkIdentifier (mkLoc 10 11) "f") []) ]))
        st'.
Proof.
  eexists. vm_compute. reflexivity.
Qed.

Lemma switch_cases_well_formed_witness :
  exists b st',
    parse looseDialect 8 u256_of_string 8 (scannerOf switchWithDefault) false
          freshParser = Returned (Some b) st'
    /\ allBlock switchWellFormed b = true.
Proof.
  eexists. eexists. split; [vm_compute; reflexivity|].
  apply (proj1 (switch_cases_well_formed looseDialect 8 u256_of_string)
               8 (scannerOf switchWithDefault) false freshParser _
               (resetScanner (setRecursionDepth 0
                  (setScanner (scannerOf []) freshParser)))).
  vm_compute. reflexivity.
Defined.

(** C6: [{ add := 1 }] with the built-in [add]: the parse returns nothing,
    and its one diagnostic is the fatal error of the parenthesis expected
    after a built-in, at [:=]; "Cannot assign to builtin function", the
    error that [parseStatement] has for this, is not reported. *)
Lemma assignment_to_builtin_message :
  exists st',
    parse looseDialect 8 u256_of_string 8 (scannerOf assignToBuiltin) false
          freshParser = Returned None st'
    /\ m_errors st'
       = [mkError ErrorType.ParserError (mkLoc 6 8)
                  "Expected '(' but got ':='"]
    /\ ~ In ("Cannot assign to builtin function " ++ dquote ++ "add"
             ++ dquote ++ ".")%string
            (map err_message (m_errors st')).
Proof.
  eexists. split; [vm_compute; reflexivity|]. split; [reflexivity|].
  cbn. intros [H|[]]. discriminate.
Qed.

Lemma recursion_depth_guard_witness :
  exists st',
    parse looseDialect 4 u256_of_string 4
          (scannerOf (repeat (tk Token.LBrace EmptyString 0 1) 3)) false
          freshParser
    = Returned None st'
    /\ m_errors st' <> [].
Proof.
  apply (proj2 (proj2 (proj2 (proj2 (proj2 (proj2
           (recursion_depth_guard looseDialect 4 u256_of_string))))))
           (repeat (tk Token.LBrace EmptyString 0 1) 3) []).
  - repeat constructor.
  - reflexivity.
  - vm_compute. lia.
  - lia.
Defined.

(** ** The instruction-name tables *)

Section StdMapFacts.

Variables (K V : Type) (compare : K -> K -> comparison).
Hypothesis compare_eq : forall a b, compare a b = Eq <-> a = b.
Hypothesis compare_antisym : forall a b, compare b a = CompOpp (compare a b).
Hypothesis compare_trans :
  forall a b c, compare a b = Lt -> compare b c = Lt -> compare a c = Lt.

Local Abbreviation find := (@mapFind K V compare).
Local Abbreviation assign := (@mapAssign K V compare).
Local Abbreviation sorted := (@mapSorted K V compare).

Lemma compare_refl (a : K) : compare a a = Eq.
Proof. apply compare_eq. reflexivity. Qed.

Lemma mapFind_assign_eq k v (m : StdMap K V) : find k (assign k v m) = Some v.
Proof.
  induction m as [|[k' v'] m IH]; cbn.
  - rewrite compare_refl. reflexivity.
  - destruct (compare k k') eqn:E; cbn.
    + rewrite compare_refl. reflexivity.
    + rewrite compare_refl. reflexivity.
    + rewrite E. exact IH.
Qed.

Lemma mapFind_assign_ne k k' v (m : StdMap K V) :
  k <> k' -> find k (assign k' v m) = find k m.
Proof.
  intros Hne.
  assert (Hc : compare k k' <> Eq) by (rewrite compare_eq; exact Hne).
  induction m as [|[k1 v1] m IH]; cbn.
  - destruct (compare k k'); congruence.
  - destruct (compare k' k1) eqn:E; cbn.
    + apply compare_eq in E. subst k1.
      destruct (compare k k'); congruence.
    + destruct (compare k k'); congruence.
    + destruct (compare k k1); auto.
Qed.

Lemma mapFind_In k v (m : StdMap K V) : find k m = Some v -> In (k, v) m.
Proof.
  induction m as [|[k' v'] m IH]; cbn; [discriminate|].
  destruct (compare k k') eqn:E; auto.
  intros H. injection H as ->. apply compare_eq in E. subst. auto.
Qed.

Lemma mapSorted_find k v (m : StdMap K V) :
  sorted m -> In (k, v) m -> find k m = Some v.
Proof.
  induction m as [|[k' v'] m IH]; cbn; [contradiction|].
  intros [Habove Hs] [E|Hin].
  - injection E as -> ->. rewrite compare_refl. reflexivity.
  - rewrite Forall_forall in Habove. specialize (Habove _ Hin). cbn in Habove.
    rewrite compare_antisym, Habove. cbn. auto.
Qed.

Lemma mapSorted_assign k v (m : StdMap K V) : sorted m -> sorted (assign k v m).
Proof.
  induction m as [|[k' v'] m IH]; cbn.
  - auto.
  - intros [Habove Hs]. destruct (compare k k') eqn:E; cbn.
    + apply compare_eq in E. subst k'. auto.
    + split; [|auto]. constructor; [exact E|].
      rewrite Forall_forall in *. intros e He.
      apply compare_trans with k'; auto.
    + split; [|auto].
      assert (Hk : compare k' k = Lt) by (rewrite compare_antisym, E; reflexivity).
      clear IH Hs. induction m as [|[k1 v1] m IHm]; cbn.
      * constructor; auto.
      * inversion Habove as [|? ? H1 H2]; subst. cbn in H1.
        destruct (compare k k1); constructor; cbn; auto.
Qed.

Lemma mapAssign_not_empty k v (m : StdMap K V) :
  mapEmpty (assign k v m) = false.
Proof. destruct m as [|[k' v'] m]; cbn; [reflexivity|]. destruct (compare k k'); reflexivity. Qed.

Lemma mapEmpty_nil (m : StdMap K V) : mapEmpty m = true -> m = [].
Proof. destruct m; [reflexivity | discriminate]. Qed.

End StdMapFacts.

Lemma string_lt_irrefl (a : string) : String_as_OT.compare a a <> Lt.
Proof.
  exact (@StrictOrder_Irreflexive _ _ String_as_OT.lt_strorder a).
Qed.

Lemma string_compare_trans (a b c : string) :
  String_as_OT.compare a b = Lt -> String_as_OT.compare b c = Lt ->
  String_as_OT.compare a c = Lt.
Proof.
  exact (@StrictOrder_Transitive _ _ String_as_OT.lt_strorder a b c).
Qed.

Lemma string_compare_eq (a b : string) :
  String_as_OT.compare a b = Eq <-> a = b.
Proof.
  destruct (String_as_OT.compare_spec a b) as [E|L|L]; split; intros H;
    try discriminate; try assumption; try reflexivity;
    cbv [String_as_OT.eq] in *; subst;
    exfalso; exact (string_lt_irrefl _ L).
Qed.

Lemma string_compare_antisym (a b : string) :
  String_as_OT.compare b a = CompOpp (String_as_OT.compare a b).
Proof.
  destruct (String_as_OT.compare_spec a b) as [E|L|L];
    destruct (String_as_OT.compare_spec b a) as [E'|L'|L'];
    cbn; try reflexivity; cbv [String_as_OT.eq] in *; subst; exfalso;
    match goal with
    | H : String_as_OT.lt ?x ?x |- _ => exact (string_lt_irrefl _ H)
    | H1 : String_as_OT.lt ?x ?y, H2 : String_as_OT.lt ?y ?x |- _ =>
        exact (string_lt_irrefl _ (@string_compare_trans _ _ _ H1 H2))
    end.
Qed.

Lemma N_compare_antisym (a b : N) : N.compare b a = CompOpp (N.compare a b).
Proof. apply N.compare_antisym. Qed.

Section InstructionTableFacts.

Variable c_instructions : list (string * Instruction).
Variables JUMPDEST SELFDESTRUCT KECCAK256 : Instruction.
Variable isPushInstruction : Instruction -> bool.

Local Abbreviation instructions :=
  (instructions c_instructions JUMPDEST isPushInstruction).
Local Abbreviation instructionNames :=
  (instructionNames c_instructions JUMPDEST SELFDESTRUCT KECCAK256
                    isPushInstruction).

Local Abbreviation excluded := (excluded JUMPDEST isPushInstruction).
Local Abbreviation keep := (keep JUMPDEST isPushInstruction).
Local Abbreviation builtInstructions :=
  (builtInstructions c_instructions JUMPDEST isPushInstruction).
Local Abbreviation builtNames :=
  (builtNames c_instructions JUMPDEST SELFDESTRUCT KECCAK256
              isPushInstruction).

Lemma stringFind_keep table acc k :
  stringFind k (fold_left keep table acc) =
  match lastByName excluded k table with
  | Some i => Some i
  | None => stringFind k acc
  end.
Proof.
  revert acc. induction table as [|[name instr] table IH]; intros acc;
    cbn [fold_left lastByName]; [reflexivity|].
  rewrite IH. destruct (lastByName excluded k table); [reflexivity|].
  unfold keep. cbn [fst snd].
  destruct (excluded instr); cbn [negb andb]; [reflexivity|].
  destruct (String.eqb_spec (lowercase name) k) as [->|Hne].
  - apply mapFind_assign_eq. apply string_compare_eq.
  - apply mapFind_assign_ne; [apply string_compare_eq | congruence].
Qed.

Lemma keep_sorted table acc :
  mapSorted String_as_OT.compare acc ->
  mapSorted String_as_OT.compare (fold_left keep table acc).
Proof.
  revert acc. induction table as [|e table IH]; intros acc Hs; cbn;
    [exact Hs|].
  apply IH. unfold keep.
  destruct (excluded (snd e)); [exact Hs|].
  apply mapSorted_assign;
    [ apply string_compare_eq | apply string_compare_antisym
    | apply string_compare_trans | exact Hs ].
Qed.

Lemma lastByName_In k table i :
  lastByName excluded k table = Some i ->
  exists name, In (name, i) table /\ lowercase name = k /\ excluded i = false.
Proof.
  induction table as [|[name instr] table IH]; cbn; [discriminate|].
  destruct (lastByName excluded k table) as [j|].
  - intros E. destruct (IH E) as (n & H1 & H2 & H3). exists n. auto.
  - destruct (excluded instr) eqn:Ex; cbn; [discriminate|].
    destruct (String.eqb_spec (lowercase name) k); [|discriminate].
    intros E. injection E as <-. exists name. auto.
Qed.

Lemma lastByName_some name i table :
  In (name, i) table -> excluded i = false ->
  exists j, lastByName excluded (lowercase name) table = Some j.
Proof.
  induction table as [|[n instr] table IH]; cbn; [contradiction|].
  intros [E|Hin] Hex.
  - injection E as -> ->.
    destruct (lastByName excluded (lowercase name) table); [eauto|].
    rewrite Hex, String.eqb_refl. cbn. eauto.
  - destruct (IH Hin Hex) as (j & ->). eauto.
Qed.

Lemma opcodeFind_nameOf instrs acc i :
  opcodeFind i (fold_left nameOf instrs acc) =
  match lastByOpcode i instrs with
  | Some n => Some n
  | None => opcodeFind i acc
  end.
Proof.
  revert acc. induction instrs as [|[name instr] instrs IH]; intros acc;
    cbn [fold_left lastByOpcode]; [reflexivity|].
  rewrite IH. destruct (lastByOpcode i instrs); [reflexivity|].
  unfold nameOf. cbn [fst snd].
  destruct (N.eqb_spec instr i) as [->|Hne].
  - apply mapFind_assign_eq. apply N.compare_eq_iff.
  - apply mapFind_assign_ne; [apply N.compare_eq_iff | congruence].
Qed.

Lemma lastByOpcode_In i instrs n :
  lastByOpcode i instrs = Some n -> In (n, i) instrs.
Proof.
  induction instrs as [|[name instr] instrs IH]; cbn; [discriminate|].
  destruct (lastByOpcode i instrs).
  - intros E. auto.
  - destruct (N.eqb_spec instr i); [|discriminate].
    intros E. injection E as <-. subst. auto.
Qed.

Lemma lastByOpcode_some n i instrs :
  In (n, i) instrs -> exists n', lastByOpcode i instrs = Some n'.
Proof.
  induction instrs as [|[name instr] instrs IH]; cbn; [contradiction|].
  intros [E|Hin].
  - injection E as -> ->. destruct (lastByOpcode i instrs); [eauto|].
    rewrite N.eqb_refl. eauto.
  - destruct (IH Hin) as (n' & ->). eauto.
Qed.

Lemma instructions_first : instructions noStatics
  = (mkStatics builtInstructions [], builtInstructions).
Proof. reflexivity. Qed.

Lemma instructions_again names :
  instructions (mkStatics builtInstructions names)
  = (mkStatics builtInstructions names, builtInstructions).
Proof.
  unfold instructions. cbn [s_instructions s_instructionNames].
  destruct (mapEmpty builtInstructions) eqn:E; [|reflexivity].
  apply mapEmpty_nil in E.
  assert (H : fold_left keep c_instructions builtInstructions
              = builtInstructions).
  { rewrite E at 1. reflexivity. }
  cbv zeta. rewrite H. reflexivity.
Qed.

Lemma instructionNames_first :
  instructionNames (mkStatics builtInstructions [])
  = (mkStatics builtInstructions builtNames, builtNames).
Proof.
  unfold instructionNames. cbn [s_instructionNames mapEmpty].
  rewrite instructions_again. reflexivity.
Qed.

Lemma instructionNames_again :
  instructionNames (mkStatics builtInstructions builtNames)
  = (mkStatics builtInstructions builtNames, builtNames).
Proof.
  unfold instructionNames. cbn [s_instructionNames].
  unfold builtNames at 1. unfold opcodeAssign at 1.
  rewrite mapAssign_not_empty. reflexivity.
Qed.

Lemma builtInstructions_sorted :
  mapSorted String_as_OT.compare builtInstructions.
Proof. apply keep_sorted. exact I. Qed.

Lemma excluded_false i :
  excluded i = false <-> i <> JUMPDEST /\ isPushInstruction i = false.
Proof.
  unfold excluded. rewrite orb_false_iff, N.eqb_neq. reflexivity.
Qed.

Lemma stringFind_built n i :
  stringFind n builtInstructions = Some i <->
  lastByName excluded n c_instructions = Some i.
Proof.
  unfold builtInstructions. rewrite stringFind_keep.
  destruct (lastByName excluded n c_instructions); cbn; split; congruence.
Qed.

Lemma opcodeFind_built i n :
  i <> SELFDESTRUCT -> i <> KECCAK256 ->
  (opcodeFind i builtNames = Some n <->
   lastByOpcode i builtInstructions = Some n).
Proof.
  intros H1 H2. unfold builtNames, opcodeFind, opcodeAssign.
  rewrite !mapFind_assign_ne by (try apply N.compare_eq_iff; assumption).
  fold opcodeFind. rewrite opcodeFind_nameOf.
  destruct (lastByOpcode i builtInstructions); cbn; split; congruence.
Qed.

(** C10: the first table maps the name in lower case of every entry of the
    opcode table, the jump destination and the pushes left out, to its
    opcode, and holds nothing else; the second table is its inverse on the
    opcodes other than the two overridden ones, which map to
    [selfdestruct] and [keccak256]; both are built by the first call and
    left as they are by every later one. *)
Theorem instruction_tables :
  (forall n1 i1 n2 i2,
      In (n1, i1) c_instructions -> In (n2, i2) c_instructions ->
      lowercase n1 = lowercase n2 -> i1 = i2) ->
  SELFDESTRUCT <> KECCAK256 ->
  (forall name i,
      In (name, i) c_instructions -> i <> JUMPDEST ->
      isPushInstruction i = false ->
      stringFind (lowercase name) builtInstructions = Some i)
  /\ (forall n i,
        stringFind n builtInstructions = Some i ->
        exists name,
          In (name, i) c_instructions /\ lowercase name = n
          /\ i <> JUMPDEST /\ isPushInstruction i = false)
  /\ (forall i n,
        i <> SELFDESTRUCT -> i <> KECCAK256 ->
        opcodeFind i builtNames = Some n ->
        stringFind n builtInstructions = Some i)
  /\ (forall n i,
        i <> SELFDESTRUCT -> i <> KECCAK256 ->
        (forall n', stringFind n' builtInstructions = Some i -> n' = n) ->
        stringFind n builtInstructions = Some i ->
        opcodeFind i builtNames = Some n)
  /\ opcodeFind SELFDESTRUCT builtNames = Some "selfdestruct"
  /\ opcodeFind KECCAK256 builtNames = Some "keccak256"
  /\ instructions noStatics
     = (mkStatics builtInstructions [], builtInstructions)
  /\ instructionNames noStatics
     = (mkStatics builtInstructions builtNames, builtNames)
  /\ instructionNames (fst (instructions noStatics))
     = (mkStatics builtInstructions builtNames, builtNames)
  /\ instructions (mkStatics builtInstructions builtNames)
     = (mkStatics builtInstructions builtNames, builtInstructions)
  /\ instructionNames (mkStatics builtInstructions builtNames)
     = (mkStatics builtInstructions builtNames, builtNames).
Proof.
  intros Hkeys Hdistinct. repeat apply conj.
  - intros name i Hin Hj Hp.
    assert (Hex : excluded i = false) by (apply excluded_false; auto).
    destruct (@lastByName_some name i c_instructions Hin Hex) as (j & Hj').
    apply stringFind_built. rewrite Hj'. f_equal.
    destruct (@lastByName_In _ _ _ Hj') as (name' & Hin' & Hlow & _).
    apply (Hkeys name' j name i); auto.
  - intros n i H. apply stringFind_built in H.
    destruct (@lastByName_In _ _ _ H) as (name & Hin & Hlow & Hex).
    apply excluded_false in Hex. exists name. intuition.
  - intros i n H1 H2 H. apply opcodeFind_built in H; auto.
    apply lastByOpcode_In in H.
    apply mapSorted_find; auto using string_compare_eq,
      string_compare_antisym, builtInstructions_sorted.
  - intros n i H1 H2 Huniq H. apply opcodeFind_built; auto.
    apply mapFind_In in H; [|apply string_compare_eq].
    destruct (@lastByOpcode_some _ _ _ H) as (n' & Hn').
    rewrite Hn'. f_equal. apply Huniq.
    apply lastByOpcode_In in Hn'.
    apply mapSorted_find; auto using string_compare_eq,
      string_compare_antisym, builtInstructions_sorted.
  - unfold builtNames, opcodeFind, opcodeAssign.
    rewrite mapFind_assign_ne by (try apply N.compare_eq_iff; assumption).
    apply mapFind_assign_eq. apply N.compare_eq_iff.
  - unfold builtNames, opcodeFind, opcodeAssign.
    apply mapFind_assign_eq. apply N.compare_eq_iff.
  - apply instructions_first.
  - reflexivity.
  - rewrite instructions_first. apply instructionNames_first.
  - apply instructions_again.
  - apply instructionNames_again.
Qed.

End InstructionTableFacts.

Lemma sampleOpcodes_names n1 i1 n2 i2 :
  In (n1, i1) sampleOpcodes -> In (n2, i2) sampleOpcodes ->
  lowercase n1 = lowercase n2 -> i1 = i2.
Proof.
  unfold sampleOpcodes. cbn [In]. intros H1 H2.
  repeat (destruct H1 as [H1|H1]; [injection H1 as <- <-|]);
    try contradiction;
    repeat (destruct H2 as [H2|H2]; [injection H2 as <- <-|]);
    try contradiction; cbn; intros E; try reflexivity; discriminate.
Qed.

Lemma instruction_tables_witness :
  stringFind "add" (builtInstructions sampleOpcodes 91%N sampleIsPush)
  = Some 1%N
  /\ stringFind "sha3" (builtInstructions sampleOpcodes 91%N sampleIsPush)
     = Some 32%N
  /\ opcodeFind 255%N (builtNames sampleOpcodes 91%N 255%N 32%N sampleIsPush)
     = Some "selfdestruct"
  /\ opcodeFind 32%N (builtNames sampleOpcodes 91%N 255%N 32%N sampleIsPush)
     = Some "keccak256".
Proof.
  pose proof (@instruction_tables sampleOpcodes 91%N 255%N 32%N sampleIsPush
                sampleOpcodes_names ltac:(discriminate)) as H.
  destruct H as (H1 & _ & _ & _ & H5 & H6 & _).
  split; [|split; [|split]].
  - apply (H1 "ADD" 1%N); [cbn; auto | discriminate | reflexivity].
  - apply (H1 "SHA3" 32%N); [cbn; auto 10 | discriminate | reflexivity].
  - exact H5.
  - exact H6.
Defined.

(** * Further properties of the parser *)

(** ** What a parse leaves in place *)

Lemma prefixOf_refl {A} (l : list A) : prefixOf l l.
Proof. exists []. symmetry. apply app_nil_r. Qed.

Lemma prefixOf_trans {A} (l1 l2 l3 : list A) :
  prefixOf l1 l2 -> prefixOf l2 l3 -> prefixOf l1 l3.
Proof.
  intros [r1 ->] [r2 ->]. exists (r1 ++ r2). symmetry. apply app_assoc.
Qed.

Lemma prefixOf_snoc {A} (l l' : list A) (x : A) :
  prefixOf l l' -> prefixOf l (l' ++ [x]).
Proof.
  intros [r ->]. exists (r ++ [x]). symmetry. apply app_assoc.
Qed.

Lemma prefixOf_snoc_l {A} (l l' : list A) (x : A) :
  prefixOf (l ++ [x]) l' -> prefixOf l l'.
Proof.
  intros [r ->]. exists ([x] ++ r). symmetry. apply app_assoc.
Qed.

Lemma suffixOf_refl {A} (l : list A) : suffixOf l l.
Proof. exists []. reflexivity. Qed.

Lemma suffixOf_trans {A} (l1 l2 l3 : list A) :
  suffixOf l1 l2 -> suffixOf l2 l3 -> suffixOf l1 l3.
Proof.
  intros [f1 ->] [f2 ->]. exists (f2 ++ f1). apply app_assoc.
Qed.

Lemma suffixOf_tl {A} (l' l : list A) : suffixOf l' l -> suffixOf (tl l') l.
Proof.
  intros [f ->]. destruct l' as [|x l']; cbn.
  - exists f. reflexivity.
  - exists (f ++ [x]). rewrite <- app_assoc. reflexivity.
Qed.

Lemma suffixOf_tl_l {A} (l' l : list A) : suffixOf l' (tl l) -> suffixOf l' l.
Proof.
  intros H. apply suffixOf_trans with (l2 := tl l); [exact H|].
  apply suffixOf_tl, suffixOf_refl.
Qed.

(** The diagnostics and the tokens of a later state, by the facts at
    hand. *)
Ltac solve_prefix :=
  first [ apply prefixOf_refl
        | apply prefixOf_snoc; solve_prefix
        | match goal with
          | H : prefixOf ?y ?x |- prefixOf _ ?x =>
              apply (fun p => prefixOf_trans p H); solve_prefix
          end ].

Ltac solve_suffix :=
  first [ apply suffixOf_refl
        | apply suffixOf_tl; solve_suffix
        | match goal with
          | H : suffixOf ?x ?y |- suffixOf ?x _ =>
              apply (suffixOf_trans H); solve_suffix
          end ].

Lemma follows_refl (st : PState) : follows st st.
Proof.
  repeat split; [apply prefixOf_refl | apply suffixOf_refl].
Qed.

Lemma follows_trans (st1 st2 st3 : PState) :
  follows st1 st2 -> follows st2 st3 -> follows st1 st3.
Proof.
  intros (P1 & S1 & E1 & M1) (P2 & S2 & E2 & M2). repeat split.
  - eapply prefixOf_trans; eassumption.
  - eapply suffixOf_trans; eassumption.
  - congruence.
  - congruence.
Qed.

Ltac fnorm :=
  unfold tokens, currentToken, currentLiteral, location, endPosition,
    position, decreaseRecursionDepth, reportError, skipToken, entered in *;
  cbn [m_scanner m_errors m_recursionDepth m_insideFunction
       m_currentForLoopComponent setScanner setErrors setRecursionDepth
       setInsideFunction setCurrentForLoopComponent scannerNext sc_tokens
       sc_eos sc_period supportPeriodInIdentifier Nat.pred] in *.

Ltac fbase :=
  cbn [frame roundFrame loopFrame] in *;
  unfold follows in *;
  split_post;
  repeat match goal with
  | H : ?x = _ |- _ => is_var x; subst x
  end;
  fnorm.

Ltac solve_fatal :=
  first [ assumption
        | unfold endsFatal; cbn [m_errors]; do 2 eexists; split;
          reflexivity ].

Ltac ffollows :=
  repeat split;
  try exact I; try solve [solve_prefix]; try solve [solve_suffix];
  try solve [solve_fatal];
  try congruence.

(** One step of the execution, as [step], for [frame]. *)
Ltac fstep :=
  match goal with
  | H : forall st, frame _ st (?p st) |- frame _ _ (?p ?s) =>
      let Hs := fresh "Hs" in
      pose proof (H s) as Hs; destruct (p s); cbn [frame] in Hs
  | H : forall x st, frame _ st (?p x st) |- frame _ _ (?p ?x ?s) =>
      let Hs := fresh "Hs" in
      pose proof (H x s) as Hs; destruct (p x s); cbn [frame] in Hs
  | H : forall st, frame _ st (?p st)
    |- context [match ?p ?s with _ => _ end] =>
      let Hs := fresh "Hs" in
      pose proof (H s) as Hs; destruct (p s); cbn [frame] in Hs
  | H : forall x st, frame _ st (?p x st)
    |- context [match ?p ?x ?s with _ => _ end] =>
      let Hs := fresh "Hs" in
      pose proof (H x s) as Hs; destruct (p x s); cbn [frame] in Hs
  | |- context [match ?x with _ => _ end] =>
      lazymatch x with
      | context [match _ with _ => _ end] => fail
      | while _ _ _ => fail
      | _ => destruct x eqn:?
      end
  end; cbv beta iota.

Lemma loop_frame {T A} (body : T -> M (T + A)) (goodS : PState -> T -> Prop)
  (goodA : PState -> A -> Prop) :
  (forall s st, goodS st s -> roundFrame goodS goodA st (body s st)) ->
  forall n s st, goodS st s -> loopFrame goodA st (loop n body s st).
Proof.
  intros Hb. induction n as [|n IH]; intros s st Hs; [exact I|].
  cbn [loop]. unfold bind. specialize (Hb s st Hs).
  destruct (body s st) as [[s'|a] st'| | |]; cbn in *; auto.
  destruct Hb as (Hf & Hs'). specialize (IH s' st' Hs').
  destruct (loop n body s' st'); cbn in *; auto.
  - split; [eapply follows_trans; [exact Hf | apply IH] | apply IH].
  - split; [eapply follows_trans; [exact Hf | apply IH] | apply IH].
Qed.

Lemma while_frame {T A} (body : T -> M (T + A)) (goodS : PState -> T -> Prop)
  (goodA : PState -> A -> Prop) :
  (forall s st, goodS st s -> roundFrame goodS goodA st (body s st)) ->
  forall s st, goodS st s -> loopFrame goodA st (while body s st).
Proof. intros Hb s st Hs. unfold while. apply loop_frame with (goodS := goodS); auto. Qed.

Ltac fstep_while gS gA :=
  match goal with
  | |- context [match while ?body ?s ?st with _ => _ end] =>
      let Hw := fresh "Hw" in
      assert (Hw : loopFrame gA st (while body s st));
      [ apply while_frame with (goodS := gS);
        [ let s' := fresh "s" in
          let st' := fresh "st" in
          let Hs := fresh "Hgood" in
          intros s' st' Hs; unfold_monad
        | ]
      | destruct (while body s st); cbn [loopFrame] in Hw; cbv beta iota ]
  end.

Ltac frewrite :=
  repeat match goal with
  | H : ?x = true |- context [?x] => rewrite H
  | H : ?x = false |- context [?x] => rewrite H
  end.

Ltac fsolve :=
  unfold typedNameFr, operandFr, callFr, statementFr, blockFr, caseFr,
    startsAt in *;
  fnorm;
  intros;
  split_post;
  repeat match goal with
  | H : ?P -> _, H' : ?P |- _ =>
      match type of P with Prop => specialize (H H') end
  end;
  split_post;
  cbn [allSubexpressions statementLocation block_location locationOf
       loc_start loc_end fst snd] in *;
  repeat match goal with
  | H : negb _ = false |- _ => apply negb_false_iff in H
  | H : negb _ = true |- _ => apply negb_true_iff in H
  | H : _ && _ = true |- _ => apply andb_true_iff in H; destruct H
  | H : exprFacts _ _ ?e = true |- _ =>
      lazymatch e with
      | ExprFunctionCall _ _ _ => idtac
      | ExprIdentifier _ => idtac
      | ExprLiteral _ => idtac
      end;
      unfold exprFacts, numberValid, literalTyped, operandNotBuiltin,
        callStart, isBooleanKind in H;
      cbn [andb] in H
  end;
  repeat split; try congruence;
  cbn [allStatements allBlock allCase allSubexpressions forallb];
  rewrite ?flat_map_app, ?forallb_app;
  cbn [allStatements allBlock allCase allSubexpressions forallb flat_map];
  rewrite ?app_nil_r;
  frewrite;
  unfold nodeFacts, onExpressions, onTypedNames;
  cbn [statementExpressions statementTypedNames forallb app
       allSubexpressions];
  rewrite ?flat_map_app, ?forallb_app;
  cbn [forallb allSubexpressions flat_map];
  rewrite ?app_nil_r;
  frewrite;
  unfold locationEnds, hasNames;
  rewrite ?forallb_app;
  cbn [forallb];
  frewrite;
  unfold exprFacts, typedNameTyped, numberValid, literalTyped,
    operandNotBuiltin, callStart, caseEnds, isBooleanKind;
  cbn [statementExpressions statementTypedNames caseExpressions case_value
       case_location case_body block_location locationOf statementLocation
       forallb flat_map app allSubexpressions
       tn_type tn_location tn_name lit_kind lit_value lit_type lit_location
       id_name id_location loc_start loc_end];
  rewrite ?forallb_app;
  repeat match goal with
  | H : back ?l = Some _ |- context [back ?l] => rewrite H
  end;
  frewrite;
  rewrite ?Z.eqb_refl;
  cbn [andb negb]; try reflexivity.

Ltac ffinish := fbase; ffollows; fsolve.

Section FrameProperties.

Variable m_dialect : Dialect.
Variable maxRecursionDepth : nat.
Variable u256 : string -> option N.

Local Abbreviation recursionGuard := (@recursionGuard maxRecursionDepth).
Local Abbreviation expectAsmIdentifier := (expectAsmIdentifier m_dialect).
Local Abbreviation parseTypedName := (parseTypedName m_dialect maxRecursionDepth).
Local Abbreviation parseElementaryOperation :=
  (parseElementaryOperation m_dialect maxRecursionDepth u256).
Local Abbreviation exprFacts := (exprFacts m_dialect u256).
Local Abbreviation nodeFacts := (nodeFacts m_dialect u256).
Local Abbreviation typedNameTyped := (typedNameTyped m_dialect).
Local Abbreviation typedNameFr := (typedNameFr m_dialect).
Local Abbreviation operandFr := (operandFr m_dialect u256).
Local Abbreviation callFr := (callFr m_dialect u256).
Local Abbreviation statementFr := (statementFr m_dialect u256).
Local Abbreviation blockFr := (blockFr m_dialect u256).
Local Abbreviation caseFr := (caseFr m_dialect u256).
Local Abbreviation parseExpression :=
  (parseExpression m_dialect maxRecursionDepth u256).
Local Abbreviation parseCall := (parseCall m_dialect maxRecursionDepth u256).
Local Abbreviation parseVariableDeclaration :=
  (parseVariableDeclaration m_dialect maxRecursionDepth u256).
Local Abbreviation parseBlock := (parseBlock m_dialect maxRecursionDepth u256).
Local Abbreviation parseStatement :=
  (parseStatement m_dialect maxRecursionDepth u256).
Local Abbreviation parseCase := (parseCase m_dialect maxRecursionDepth u256).
Local Abbreviation parseForLoop :=
  (parseForLoop m_dialect maxRecursionDepth u256).
Local Abbreviation parseFunctionDefinition :=
  (parseFunctionDefinition m_dialect maxRecursionDepth u256).
Local Abbreviation parseTry := (parseTry m_dialect maxRecursionDepth u256).
Local Abbreviation parse := (parse m_dialect maxRecursionDepth u256).

Lemma recursionGuard_frame_at {A} (good : PState -> PState -> A -> Prop)
  (body : M A) (st : PState) :
  frame good (entered st) (body (entered st)) ->
  (forall st' a, good (entered st) st' a ->
                 good st (decreaseRecursionDepth st') a) ->
  frame good st (recursionGuard body st).
Proof.
  intros Hb Hg. rewrite recursionGuard_eq. cbv zeta. fold (entered st).
  destruct (Nat.ltb maxRecursionDepth (S (m_recursionDepth st))).
  - fbase. ffollows.
  - destruct (body (entered st)); cbn [frame] in *; auto.
    destruct Hb as (Hf & Hb). split; [exact Hf | apply Hg, Hb].
Qed.

Lemma recursionGuard_frame {A} (good : PState -> PState -> A -> Prop)
  (body : M A) :
  (forall st, frame good st (body st)) ->
  (forall st st' a, good (entered st) st' a ->
                    good st (decreaseRecursionDepth st') a) ->
  forall st, frame good st (recursionGuard body st).
Proof. intros Hb Hg st. apply recursionGuard_frame_at; [apply Hb | apply Hg]. Qed.

Lemma expectAsmIdentifier_frame :
  forall st,
    frame (fun _ _ name => builtin m_dialect name = false) st
          (expectAsmIdentifier st).
Proof.
  intros st. unfold expectAsmIdentifier. unfold_monad.
  repeat fstep; fbase; ffollows.
Qed.

Lemma parseTypedName_frame :
  forall st, frame typedNameFr st (parseTypedName st).
Proof.
  unfold parseTypedName.
  apply recursionGuard_frame; [ | auto ].
  intros st. pose proof expectAsmIdentifier_frame as HA.
  unfold_monad. repeat fstep; ffinish.
Qed.

Lemma parseElementaryOperation_frame :
  forall st, frame operandFr st (parseElementaryOperation st).
Proof.
  unfold parseElementaryOperation.
  apply recursionGuard_frame; [ | auto ].
  intros st. pose proof expectAsmIdentifier_frame as HA.
  unfold_monad. repeat fstep; ffinish.
Qed.

Lemma parseBlock_body_frame (pS : M Statement) :
  (forall st, frame statementFr st (pS st)) ->
  forall st, frame blockFr st (parseBlock_body pS st).
Proof.
  intros HS st. unfold parseBlock_body. unfold_monad.
  repeat fstep; try solve [ffinish].
  fstep_while
    (fun (_ : PState) (l : list Statement) =>
       forallb (allStatements nodeFacts) l = true)
    (fun (_ : PState) (l : list Statement) =>
       forallb (allStatements nodeFacts) l = true).
  - repeat fstep; ffinish.
  - reflexivity.
  - ffinish.
  - ffinish.
  - ffinish.
  - ffinish.
Qed.

Lemma parseCall_body_frame (pE : M Expression) :
  (forall st, frame operandFr st (pE st)) ->
  forall op st, frame (callFr op) st (parseCall_body m_dialect pE op st).
Proof.
  intros HE op st. unfold parseCall_body. unfold_monad.
  repeat fstep; try solve [ffinish].
  all: fstep_while
         (fun (_ : PState) (l : list Expression) =>
            allSubexpressions exprFacts op = true ->
            forallb (allSubexpressions exprFacts) l = true)
         (fun (_ : PState) (l : list Expression) =>
            allSubexpressions exprFacts op = true ->
            forallb (allSubexpressions exprFacts) l = true);
    [ repeat fstep; ffinish | ffinish | repeat fstep; ffinish .. ].
Qed.

Lemma parseExpression_body_frame (pC : ElementaryOperation -> M Expression) :
  (forall op st, frame (callFr op) st (pC op st)) ->
  forall st,
    frame operandFr st
          (parseExpression_body m_dialect maxRecursionDepth u256 pC st).
Proof.
  intros HC st. pose proof parseElementaryOperation_frame as HO.
  unfold parseExpression_body. unfold_monad.
  repeat fstep; try solve [ffinish].
Qed.

Lemma recursionGuard_outOfFuel_frame {A}
  (good : PState -> PState -> A -> Prop) :
  forall st, frame good st (recursionGuard (fun st' => outOfFuel st') st).
Proof.
  intros st. rewrite recursionGuard_eq. cbv zeta.
  destruct (Nat.ltb maxRecursionDepth (S (m_recursionDepth st)));
    [ | exact I ].
  fbase. ffollows.
Qed.

Lemma parseExpression_parseCall_frame f :
  (forall st, frame operandFr st (parseExpression f st))
  /\ (forall op st, frame (callFr op) st (parseCall f op st)).
Proof.
  induction f as [|f [IHE IHC]]; split; intros; cbn [parseExpression parseCall].
  - apply recursionGuard_outOfFuel_frame.
  - apply recursionGuard_outOfFuel_frame.
  - apply recursionGuard_frame; [ | auto ].
    intros st0. apply parseExpression_body_frame. exact IHC.
  - apply recursionGuard_frame; [ | auto ].
    intros st0. apply parseCall_body_frame. exact IHE.
Qed.

Lemma parseExpression_frame f st : frame operandFr st (parseExpression f st).
Proof. apply parseExpression_parseCall_frame. Qed.

Lemma parseCall_frame f op st : frame (callFr op) st (parseCall f op st).
Proof. apply parseExpression_parseCall_frame. Qed.

Lemma last_map_snoc {A B} (f : A -> B) (l : list A) (x : A) (d : B) :
  last (map f (l ++ [x])) d = f x.
Proof. rewrite map_app. cbn. apply last_last. Qed.

Lemma back_nil {A} : back (@nil A) = None.
Proof. reflexivity. Qed.

Lemma parseVariableDeclaration_body_frame (pE : M Expression) :
  (forall st, frame operandFr st (pE st)) ->
  forall st,
    frame statementFr st
          (parseVariableDeclaration_body m_dialect maxRecursionDepth pE st).
Proof.
  intros HE st. pose proof parseTypedName_frame as HT.
  unfold parseVariableDeclaration_body. unfold_monad.
  repeat fstep; try solve [ffinish].
  fstep_while
    (fun (_ : PState) (l : list TypedName) =>
       forallb typedNameTyped l = true)
    (fun (_ : PState) (l : list TypedName) =>
       forallb typedNameTyped l = true /\ exists tn, endsWith l tn).
  - repeat fstep; ffinish.
    exists a. split; [apply back_snoc | intros; apply last_map_snoc].
  - reflexivity.
  - destruct Hw as (Hf & Hall & tn & Hback & Hlast).
    assert (Hne : match a with [] => false | _ :: _ => true end = true).
    { destruct a; [discriminate | reflexivity]. }
    repeat fstep; ffinish.
    all: rewrite ?Hlast, ?Z.eqb_refl, ?Hne; reflexivity.
  - ffinish.
  - ffinish.
  - ffinish.
Qed.

Lemma parseVariableDeclaration_frame f st :
  frame statementFr st (parseVariableDeclaration f st).
Proof.
  destruct f; unfold parseVariableDeclaration.
  - apply recursionGuard_outOfFuel_frame.
  - apply recursionGuard_frame; [ | auto ].
    intros st0. apply parseVariableDeclaration_body_frame.
    intros; apply parseExpression_frame.
Qed.

Lemma parseCase_body_frame (pB : M Block) :
  (forall st, frame blockFr st (pB st)) ->
  forall st,
    frame caseFr st (parseCase_body m_dialect maxRecursionDepth u256 pB st).
Proof.
  intros HB st. pose proof parseElementaryOperation_frame as HO.
  unfold parseCase_body. unfold_monad.
  repeat fstep; try solve [ffinish].
Qed.

Lemma parseForLoop_body_frame (pB : M Block) (pE : M Expression) :
  (forall st, frame blockFr st (pB st)) ->
  (forall st, frame operandFr st (pE st)) ->
  forall st, frame statementFr st (parseForLoop_body pB pE st).
Proof.
  intros HB HE st. unfold parseForLoop_body. unfold_monad.
  repeat fstep; ffinish.
Qed.

Lemma parseFunctionDefinition_body_frame (pB : M Block) :
  (forall st, frame blockFr st (pB st)) ->
  forall st,
    frame statementFr st
          (parseFunctionDefinition_body m_dialect maxRecursionDepth pB st).
Proof.
  intros HB st. pose proof parseTypedName_frame as HT.
  pose proof expectAsmIdentifier_frame as HA.
  unfold parseFunctionDefinition_body. unfold_monad.
  repeat fstep; try solve [ffinish].
  all: fstep_while
    (fun (_ : PState) (l : list TypedName) =>
       forallb typedNameTyped l = true)
    (fun (_ : PState) (l : list TypedName) =>
       forallb typedNameTyped l = true);
    [ repeat fstep; ffinish | reflexivity | | ffinish .. ].
  all: repeat fstep; try solve [ffinish].
  all: fstep_while
    (fun (_ : PState) (l : list TypedName) =>
       forallb typedNameTyped l = true)
    (fun (_ : PState) (l : list TypedName) =>
       forallb typedNameTyped l = true);
    [ repeat fstep; ffinish | reflexivity | | ffinish .. ].
  all: repeat fstep; try solve [ffinish].
Qed.

Lemma parseSwitch_frame (pE : M Expression) (pC : M Case) :
  (forall st, frame operandFr st (pE st)) ->
  (forall st, frame caseFr st (pC st)) ->
  forall st, frame statementFr st (parseSwitch pE pC st).
Proof.
  intros HE HC st. unfold parseSwitch, parseCases. unfold_monad.
  repeat fstep; try solve [ffinish].
  fstep_while (casesFacts m_dialect u256) (casesFacts m_dialect u256);
    unfold casesFacts in *.
  - repeat fstep; try solve [ffinish].
  - repeat split; reflexivity.
  - repeat fstep; try solve [ffinish].
  - ffinish.
  - ffinish.
  - ffinish.
Qed.

Lemma targetsRead_snoc first st (e : Identifier) (names : list Identifier) :
  (names = [] -> loc_start (id_location e) = loc_start first) ->
  targetsRead first st (e, names ++ [e]).
Proof.
  unfold targetsRead. cbn [fst snd].
  destruct names as [|n1 [|n2 names]]; cbn; auto.
Qed.

Lemma parseAssignment_frame (pE : M Expression) :
  (forall st, frame operandFr st (pE st)) ->
  forall elementary st0 st,
    follows st0 st ->
    allSubexpressions exprFacts elementary = true ->
    loc_start (locationOf elementary) = loc_start (location st0) ->
    frame statementFr st0
          (parseAssignment m_dialect maxRecursionDepth u256 pE elementary st).
Proof.
  intros HE elementary st0 st Hf Hall Hstart.
  pose proof parseElementaryOperation_frame as HO.
  unfold parseAssignment. unfold_monad.
  fstep_while (targetsSoFar m_dialect u256 (location st0))
              (targetsRead (location st0));
    unfold targetsSoFar in *.
  - destruct s as [e names]. cbn [snd fst] in *. cbv beta iota.
    repeat fstep; ffinish.
    + apply targetsRead_snoc. assumption.
    + match goal with
      | E : _ ++ [_] = [] |- _ => destruct names; discriminate E
      end.
  - cbn [fst snd]. auto.
  - destruct a as [identifier names]. unfold targetsRead in Hw.
    cbn [snd fst] in *. cbv beta iota.
    repeat fstep; try solve [ffinish].
    destruct names as [|n1 [|n2 names]]; [tauto | | ]; ffinish.
  - ffinish.
  - ffinish.
  - ffinish.
Qed.

Lemma parseSimpleStatement_frame (pE : M Expression)
  (pC : ElementaryOperation -> M Expression) :
  (forall st, frame operandFr st (pE st)) ->
  (forall op st, frame (callFr op) st (pC op st)) ->
  forall st,
    frame statementFr st
          (parseSimpleStatement m_dialect maxRecursionDepth u256 pE pC st).
Proof.
  intros HE HC st. pose proof parseElementaryOperation_frame as HO.
  unfold parseSimpleStatement.
  unfold bind at 1.
  pose proof (HO st) as Hs.
  destruct (parseElementaryOperation st) as [e st1| | |];
    cbn [frame] in Hs; try solve [ffinish].
  destruct Hs as (Hf & Hall & Hstart).
  pose proof (@parseAssignment_frame pE HE e st st1 Hf Hall Hstart) as HA.
  unfold_monad.
  destruct (currentToken st1) eqn:Htok; try solve [ffinish]; try exact HA.
  repeat fstep; ffinish.
Qed.

Lemma parseStatement_body_frame
  (pVD pFD pFL : M Statement) (pB : M Block) (pE : M Expression)
  (pCase : M Case) (pCall : ElementaryOperation -> M Expression) :
  (forall st, frame statementFr st (pVD st)) ->
  (forall st, frame statementFr st (pFD st)) ->
  (forall st, frame statementFr st (pFL st)) ->
  (forall st, frame blockFr st (pB st)) ->
  (forall st, frame operandFr st (pE st)) ->
  (forall st, frame caseFr st (pCase st)) ->
  (forall op st, frame (callFr op) st (pCall op st)) ->
  forall st,
    frame statementFr st
          (parseStatement_body m_dialect maxRecursionDepth u256
             pVD pFD pFL pB pE pCase pCall st).
Proof.
  intros HVD HFD HFL HB HE HCase HCall st.
  pose proof (@parseSimpleStatement_frame pE pCall HE HCall st) as HSimple.
  pose proof (@parseSwitch_frame pE pCase HE HCase st) as HSwitch.
  unfold parseStatement_body. unfold bind at 1. unfold gets at 1.
  destruct (currentToken st) eqn:Htok; try exact HSimple; auto.
  - (* { *) clear HSimple HSwitch. unfold_monad. repeat fstep; ffinish.
  - (* if *) clear HSimple HSwitch. unfold_monad. repeat fstep; ffinish.
  - (* break *) clear HSimple HSwitch. unfold_monad. repeat fstep; ffinish.
  - (* continue *) clear HSimple HSwitch. unfold_monad.
    repeat fstep; ffinish.
  - (* identifier *) clear HSwitch. unfold bind at 1. unfold gets at 1.
    destruct (String.eqb (currentLiteral st) "leave"); [ | exact HSimple ].
    clear HSimple. unfold_monad. repeat fstep; ffinish.
Qed.

(** Every production keeps the diagnostics and the order of the tokens, and
    what it returns holds the facts of [nodeFacts]. *)
Theorem productions_frame (f : nat) :
  (forall st, frame blockFr st (parseBlock f st))
  /\ (forall st, frame statementFr st (parseStatement f st))
  /\ (forall st, frame caseFr st (parseCase f st))
  /\ (forall st, frame statementFr st (parseForLoop f st))
  /\ (forall st, frame statementFr st (parseFunctionDefinition f st)).
Proof.
  induction f as [|f (IHB & IHS & IHC & IHL & IHF)].
  - repeat split; intros; cbn [parseBlock parseStatement parseCase parseForLoop
                                parseFunctionDefinition];
      apply recursionGuard_outOfFuel_frame.
  - repeat split; intros;
      cbn [parseBlock parseStatement parseCase parseForLoop
           parseFunctionDefinition].
    + apply recursionGuard_frame; [ | auto ].
      intros st0. apply parseBlock_body_frame. exact IHS.
    + apply recursionGuard_frame; [ | auto ].
      intros st0. apply parseStatement_body_frame; auto.
      * intros; apply parseVariableDeclaration_frame.
      * intros; apply parseExpression_frame.
      * intros; apply parseCall_frame.
    + apply recursionGuard_frame; [ | auto ].
      intros st0. apply parseCase_body_frame. exact IHB.
    + apply recursionGuard_frame; [ | auto ].
      intros st0. apply parseForLoop_body_frame; auto.
      intros; apply parseExpression_frame.
    + apply recursionGuard_frame; [ | auto ].
      intros st0. apply parseFunctionDefinition_body_frame; auto.
Qed.

End FrameProperties.

(** ** Facts of all expressions of a tree *)

Section AllSubexpressions.

Variables P Q : Expression -> bool.
Hypothesis PQ : forall e, P e = true -> Q e = true.

Fixpoint allSubexpressions_impl (e : Expression) {struct e} :
  allSubexpressions P e = true -> allSubexpressions Q e = true.
Proof.
  destruct e as [l f arguments|i|l]; cbn [allSubexpressions]; intros H;
    apply andb_true_iff in H; destruct H as [H1 H2]; rewrite (PQ H1);
    cbn [andb]; try reflexivity.
  clear H1. revert H2.
  induction arguments as [|a arguments IH]; cbn [forallb]; [reflexivity|].
  intros H. apply andb_true_iff in H. destruct H as [Ha Hr].
  rewrite (allSubexpressions_impl a Ha). exact (IH Hr).
Qed.

Lemma onExpressions_impl (s : Statement) :
  onExpressions P s = true -> onExpressions Q s = true.
Proof.
  unfold onExpressions. rewrite !forallb_forall. intros H e He.
  apply allSubexpressions_impl, H, He.
Qed.

End AllSubexpressions.

Section FrameClaims.

Variable m_dialect : Dialect.
Variable maxRecursionDepth : nat.
Variable u256 : string -> option N.

Local Abbreviation recursionGuard := (@recursionGuard maxRecursionDepth).
Local Abbreviation parseElementaryOperation :=
  (parseElementaryOperation m_dialect maxRecursionDepth u256).
Local Abbreviation exprFacts := (exprFacts m_dialect u256).
Local Abbreviation nodeFacts := (nodeFacts m_dialect u256).
Local Abbreviation numberValid := (numberValid u256).
Local Abbreviation literalTyped := (literalTyped m_dialect).
Local Abbreviation operandNotBuiltin := (operandNotBuiltin m_dialect).
Local Abbreviation typedNameTyped := (typedNameTyped m_dialect).
Local Abbreviation statementFr := (statementFr m_dialect u256).
Local Abbreviation blockFr := (blockFr m_dialect u256).
Local Abbreviation caseFr := (caseFr m_dialect u256).
Local Abbreviation operandFr := (operandFr m_dialect u256).
Local Abbreviation parseExpression :=
  (parseExpression m_dialect maxRecursionDepth u256).
Local Abbreviation parseCall := (parseCall m_dialect maxRecursionDepth u256).
Local Abbreviation parseVariableDeclaration :=
  (parseVariableDeclaration m_dialect maxRecursionDepth u256).
Local Abbreviation parseBlock := (parseBlock m_dialect maxRecursionDepth u256).
Local Abbreviation parseStatement :=
  (parseStatement m_dialect maxRecursionDepth u256).
Local Abbreviation parseCase := (parseCase m_dialect maxRecursionDepth u256).
Local Abbreviation parseForLoop :=
  (parseForLoop m_dialect maxRecursionDepth u256).
Local Abbreviation parseFunctionDefinition :=
  (parseFunctionDefinition m_dialect maxRecursionDepth u256).
Local Abbreviation parseTypedName :=
  (parseTypedName m_dialect maxRecursionDepth).
Local Abbreviation parseTry := (parseTry m_dialect maxRecursionDepth u256).
Local Abbreviation parse := (parse m_dialect maxRecursionDepth u256).
Local Abbreviation runProduction :=
  (runProduction m_dialect maxRecursionDepth u256).

Lemma parseBlock_frame f st : frame blockFr st (parseBlock f st).
Proof. apply productions_frame. Qed.

Lemma parseStatement_frame f st : frame statementFr st (parseStatement f st).
Proof. apply productions_frame. Qed.

Lemma parseTry_frame f reuse st : frame blockFr st (parseTry f reuse st).
Proof.
  pose proof (parseBlock_frame f) as HB.
  unfold parseTry. unfold_monad. repeat fstep; ffinish.
Qed.

(** What a call of [parse] leaves in place, and what the block it returns
    holds. *)
Lemma parse_frame fuel sc reuse st :
  match parse fuel sc reuse st with
  | Returned r st' =>
      prefixOf (m_errors st) (m_errors st')
      /\ suffixOf (tokens st') (sc_tokens sc)
      /\ sc_eos (m_scanner st') = sc_eos sc
      /\ sc_period (m_scanner st') = false
      /\ match r with
         | Some b =>
             allBlock nodeFacts b = true
             /\ loc_start (block_location b)
                = loc_start (tok_location (scannerCurrent sc))
         | None => endsFatal st'
         end
  | _ => True
  end.
Proof.
  unfold parse.
  pose proof (parseTry_frame fuel reuse (parseEntry sc st)) as H.
  destruct (parseTry fuel reuse (parseEntry sc st)) as [b st'| st' | |];
    cbn [frame] in H; auto.
  - unfold parseEntry, resetScanner, blockFr in *. fbase. ffollows.
  - case_eq (m_errors st'); [intros; exact I | intros e l E; clear E].
    unfold parseEntry, resetScanner in *. fbase. ffollows.
Qed.

Lemma runProduction_frame p fuel st :
  frame anyFr st (runProduction p fuel st).
Proof.
  assert (G : forall A (good : PState -> PState -> A -> Prop) (r : Result A),
             frame good st r -> frame anyFr st (forget r)).
  { intros A good r. destruct r; cbn; intuition. exact I. }
  destruct p; cbn [runProduction]; eapply G.
  - apply parseBlock_frame.
  - apply parseStatement_frame.
  - apply productions_frame.
  - apply productions_frame.
  - apply parseExpression_frame.
  - apply parseElementaryOperation_frame.
  - apply parseVariableDeclaration_frame.
  - apply productions_frame.
  - apply parseCall_frame.
  - apply parseTypedName_frame.
Qed.

(** X1: whatever [parse] returns, the diagnostics the sink held are still
    there, before the new ones; the scanner is the one handed in, moved
    forward, with the periods in identifiers switched off; and a production
    that returns or unwinds has only added diagnostics and consumed tokens. *)
Theorem diagnostics_kept_scanner_forward :
  (forall fuel sc reuse st r st',
      parse fuel sc reuse st = Returned r st' ->
      prefixOf (m_errors st) (m_errors st')
      /\ suffixOf (tokens st') (sc_tokens sc)
      /\ sc_eos (m_scanner st') = sc_eos sc
      /\ sc_period (m_scanner st') = false)
  /\ (forall p fuel st st',
        runProduction p fuel st = Ok tt st'
        \/ runProduction p fuel st = Fatal st' ->
        follows st st').
Proof.
  split.
  - intros fuel sc reuse st r st' E.
    pose proof (parse_frame fuel sc reuse st) as H. rewrite E in H.
    intuition.
  - intros p fuel st st' E.
    pose proof (runProduction_frame p fuel st) as H.
    destruct E as [E|E]; rewrite E in H; cbn in H; intuition.
Qed.

Lemma fatalCount_none (es : list Error) :
  fatalCount es = 0 -> Forall (fun e => isSyntaxError e = true) es.
Proof.
  induction es as [|e es IH]; [constructor|].
  change (e :: es) with ([e] ++ es). rewrite fatalCount_app.
  unfold fatalCount at 1. cbn [filter List.length].
  unfold isParserError, isSyntaxError.
  destruct (err_type e) eqn:Et; cbn [List.length]; intros H; [|discriminate].
  constructor; [unfold isSyntaxError; rewrite Et; reflexivity|].
  apply IH, H.
Qed.

(** X2: the diagnostics of one call of [parse]: they come after the ones the
    sink held; with a block returned they are all recoverable ones, and with
    nothing returned the last one is the fatal error and the ones before it
    are recoverable. *)
Theorem diagnostics_of_a_parse fuel sc reuse st r st' :
  parse fuel sc reuse st = Returned r st' ->
  exists new,
    m_errors st' = m_errors st ++ new
    /\ match r with
       | Some _ => Forall (fun e => isSyntaxError e = true) new
       | None =>
           exists front e,
             new = front ++ [e]
             /\ Forall (fun e => isSyntaxError e = true) front
             /\ isParserError e = true
       end.
Proof.
  intros E.
  pose proof (parse_frame fuel sc reuse st) as HF.
  pose proof (parse_post m_dialect maxRecursionDepth u256 fuel sc reuse st)
    as HP.
  rewrite E in HF, HP.
  destruct HF as ((new & Hnew) & _ & _ & _ & HF).
  exists new. split; [exact Hnew|].
  destruct r as [b|].
  - destruct HP as (_ & _ & _ & _ & Hcount & _).
    rewrite Hnew, fatalCount_app in Hcount.
    apply fatalCount_none. lia.
  - destruct HP as (_ & Hcount). destruct HF as (front0 & e & He & Hfatal).
    rewrite Hnew, fatalCount_app in Hcount.
    destruct (@exists_last _ new) as (front & e' & ->).
    { intros ->. cbn in Hcount. lia. }
    rewrite Hnew, app_assoc in He. apply app_inj_tail in He.
    destruct He as (_ & <-).
    exists front, e'. repeat split; auto.
    apply fatalCount_none. rewrite fatalCount_app in Hcount.
    unfold fatalCount at 3 in Hcount. cbn in Hcount. rewrite Hfatal in Hcount.
    cbn in Hcount. lia.
Qed.

(** *** A block and its braces *)

Lemma current_cons (sc : Scanner) (k : Token.t) :
  tok_kind (scannerCurrent sc) = k -> k <> Token.EOS ->
  exists rest, sc_tokens sc = scannerCurrent sc :: rest.
Proof.
  unfold scannerCurrent. destruct (sc_tokens sc) as [|t rest]; cbn.
  - congruence.
  - eauto.
Qed.

Lemma parseBlock_body_spans (pS : M Statement)
  (good : PState -> PState -> Statement -> Prop) :
  (forall st, frame good st (pS st)) ->
  forall st,
    match parseBlock_body pS st with
    | Ok b st' =>
        exists open inner close,
          tokens st = open :: inner ++ close :: tokens st'
          /\ tok_kind open = Token.LBrace
          /\ tok_kind close = Token.RBrace
          /\ block_location b
             = mkLoc (loc_start (tok_location open))
                     (loc_end (tok_location close))
    | _ => True
    end.
Proof.
  intros HS st. unfold parseBlock_body. unfold_monad.
  repeat fstep; try exact I.
  fstep_while
    (fun (_ : PState) (_ : list Statement) => True)
    (fun (st' : PState) (_ : list Statement) =>
       currentToken st' = Token.RBrace).
  - repeat fstep; fbase; ffollows.
    apply negb_false_iff, Token_eqb_eq in Heqb0. exact Heqb0.
  - exact I.
  - destruct Hw as ((_ & Hsuf & _) & Hclose).
    apply Token_eqb_eq in Heqb.
    destruct (@current_cons (m_scanner st) _ Heqb ltac:(discriminate))
      as (rest & Hopen).
    destruct (@current_cons (m_scanner st0) _ Hclose ltac:(discriminate))
      as (rest' & Hcl).
    destruct Hsuf as (inner & Hinner).
    exists (scannerCurrent (m_scanner st)), inner,
           (scannerCurrent (m_scanner st0)).
    unfold tokens, skipToken in *. cbn in *.
    rewrite Hopen in *. rewrite Hcl in *. cbn in *.
    repeat split; auto. rewrite Hinner. reflexivity.
  - exact I.
  - exact I.
  - exact I.
Qed.

(** X3: a block that is returned was read from an opening brace up to a
    closing brace, the last token it consumed, and its location goes from the
    begin of the one to the end of the other. *)
Theorem block_spans_its_braces f st b st' :
  parseBlock f st = Ok b st' ->
  exists open inner close,
    tokens st = open :: inner ++ close :: tokens st'
    /\ tok_kind open = Token.LBrace
    /\ tok_kind close = Token.RBrace
    /\ block_location b
       = mkLoc (loc_start (tok_location open)) (loc_end (tok_location close)).
Proof.
  destruct f as [|f].
  { change (parseBlock 0 st)
      with (recursionGuard (fun st0 => @outOfFuel Block st0) st).
    rewrite recursionGuard_eq. cbv zeta.
    destruct (Nat.ltb maxRecursionDepth (S (m_recursionDepth st)));
      discriminate. }
  change (parseBlock (S f) st)
    with (recursionGuard
            (fun st0 => parseBlock_body (fun st' => parseStatement f st') st0)
            st).
  rewrite recursionGuard_eq. cbv zeta.
  destruct (Nat.ltb maxRecursionDepth (S (m_recursionDepth st)));
    try discriminate.
  pose proof (@parseBlock_body_spans (fun st' => parseStatement f st') _
                (parseStatement_frame f) (entered st)) as H.
  fold (entered st).
  destruct (parseBlock_body (fun st' => parseStatement f st') (entered st))
    as [b0 st0| | |]; try discriminate.
  intros E. injection E as <- <-. exact H.
Qed.

(** *** What every statement of a returned tree holds *)

Lemma nodeFacts_iff (s : Statement) :
  nodeFacts s = true <->
  onExpressions exprFacts s = true /\ onTypedNames typedNameTyped s = true
  /\ locationEnds s = true /\ hasNames s = true.
Proof.
  unfold nodeFacts. rewrite !andb_true_iff. tauto.
Qed.

Lemma exprFacts_iff (e : Expression) :
  exprFacts e = true <->
  numberValid e = true /\ literalTyped e = true
  /\ operandNotBuiltin e = true
  /\ callStart e = true.
Proof.
  unfold exprFacts. rewrite !andb_true_iff. tauto.
Qed.

Lemma parse_nodeFacts fuel sc reuse st b st' :
  parse fuel sc reuse st = Returned (Some b) st' ->
  allBlock nodeFacts b = true.
Proof.
  intros E. pose proof (parse_frame fuel sc reuse st) as H. rewrite E in H.
  apply H.
Qed.

(** X4: every number literal of a returned tree, the values of the cases
    included, has passed [isValidNumberLiteral]. *)
Theorem returned_numbers_valid fuel sc reuse st b st' :
  parse fuel sc reuse st = Returned (Some b) st' ->
  allBlock (onExpressions numberValid) b = true.
Proof.
  intros E. apply parse_nodeFacts in E. revert E.
  apply allBlock_impl. intros s Hs. apply nodeFacts_iff in Hs.
  destruct Hs as (Hs & _). revert Hs. apply onExpressions_impl.
  intros e He. apply exprFacts_iff in He. apply He.
Qed.

(** X5: the types of a returned tree: in the typed flavour every literal and
    every typed name has a type that is not a built-in name; in the other one
    every type is empty and no literal is [true] or [false]. *)
Theorem returned_types_by_flavour fuel sc reuse st b st' :
  parse fuel sc reuse st = Returned (Some b) st' ->
  allBlock (onExpressions literalTyped) b = true
  /\ allBlock (onTypedNames typedNameTyped) b = true.
Proof.
  intros E. apply parse_nodeFacts in E. split; revert E.
  - apply allBlock_impl. intros s Hs. apply nodeFacts_iff in Hs.
    destruct Hs as (Hs & _). revert Hs. apply onExpressions_impl.
    intros e He. apply exprFacts_iff in He. apply He.
  - apply allBlock_impl. intros s Hs. apply nodeFacts_iff in Hs. apply Hs.
Qed.

(** X6: a built-in name never stands for itself in a returned tree: where an
    expression is an identifier, it is not a built-in. *)
Theorem builtin_only_called fuel sc reuse st b st' :
  parse fuel sc reuse st = Returned (Some b) st' ->
  allBlock (onExpressions operandNotBuiltin) b = true.
Proof.
  intros E. apply parse_nodeFacts in E. revert E.
  apply allBlock_impl. intros s Hs. apply nodeFacts_iff in Hs.
  destruct Hs as (Hs & _). revert Hs. apply onExpressions_impl.
  intros e He. apply exprFacts_iff in He. apply He.
Qed.

(** X7: where the locations of a returned tree end: each statement with its
    last component, as [locationEnds] has it, and each call begins where its
    name begins. *)
Theorem locations_follow_components fuel sc reuse st b st' :
  parse fuel sc reuse st = Returned (Some b) st' ->
  allBlock locationEnds b = true
  /\ allBlock (onExpressions callStart) b = true.
Proof.
  intros E. apply parse_nodeFacts in E. split; revert E.
  - apply allBlock_impl. intros s Hs. apply nodeFacts_iff in Hs. apply Hs.
  - apply allBlock_impl. intros s Hs. apply nodeFacts_iff in Hs.
    destruct Hs as (Hs & _). revert Hs. apply onExpressions_impl.
    intros e He. apply exprFacts_iff in He. apply He.
Qed.

(** X8: no assignment of a returned tree is without a target and no
    declaration without a variable. *)
Theorem names_never_empty fuel sc reuse st b st' :
  parse fuel sc reuse st = Returned (Some b) st' ->
  allBlock hasNames b = true.
Proof.
  intros E. apply parse_nodeFacts in E. revert E.
  apply allBlock_impl. intros s Hs. apply nodeFacts_iff in Hs. apply Hs.
Qed.

(** X9: a statement that is returned begins at the first token of its text,
    unless it is an assignment to several targets; an expression always does. *)
Theorem nodes_begin_at_first_token f st :
  (forall s st', parseStatement f st = Ok s st' -> startsAt (location st) s)
  /\ (forall e st',
        parseExpression f st = Ok e st' ->
        loc_start (locationOf e) = loc_start (location st)).
Proof.
  split.
  - intros s st' E. pose proof (parseStatement_frame f st) as H.
    rewrite E in H. apply H.
  - intros e st' E. pose proof (@parseExpression_frame m_dialect maxRecursionDepth u256 f st)
      as H.
    rewrite E in H. apply H.
Qed.

End FrameClaims.

(** ** How the productions end *)

Section ParserBehaviour.

Variable m_dialect : Dialect.
Variable maxRecursionDepth : nat.
Variable u256 : string -> option N.

Local Abbreviation recursionGuard := (@recursionGuard maxRecursionDepth).
Local Abbreviation expectAsmIdentifier := (expectAsmIdentifier m_dialect).
Local Abbreviation parseElementaryOperation :=
  (parseElementaryOperation m_dialect maxRecursionDepth u256).
Local Abbreviation post := (@post maxRecursionDepth).
Local Abbreviation parseExpression :=
  (parseExpression m_dialect maxRecursionDepth u256).
Local Abbreviation parseCall := (parseCall m_dialect maxRecursionDepth u256).
Local Abbreviation parseVariableDeclaration :=
  (parseVariableDeclaration m_dialect maxRecursionDepth u256).
Local Abbreviation parseBlock := (parseBlock m_dialect maxRecursionDepth u256).
Local Abbreviation parseStatement :=
  (parseStatement m_dialect maxRecursionDepth u256).
Local Abbreviation parseCase := (parseCase m_dialect maxRecursionDepth u256).
Local Abbreviation parseForLoop :=
  (parseForLoop m_dialect maxRecursionDepth u256).
Local Abbreviation parseFunctionDefinition :=
  (parseFunctionDefinition m_dialect maxRecursionDepth u256).
Local Abbreviation parseTypedName :=
  (parseTypedName m_dialect maxRecursionDepth).
Local Abbreviation parseTry := (parseTry m_dialect maxRecursionDepth u256).
Local Abbreviation parse := (parse m_dialect maxRecursionDepth u256).
Local Abbreviation runProduction :=
  (runProduction m_dialect maxRecursionDepth u256).
Local Abbreviation ending := (ending maxRecursionDepth).

Lemma post_ending {A} (good : PState -> A -> Prop) p fuel st (r : Result A) :
  post good fuel st r -> ending p fuel st (forget r).
Proof. destruct r; cbn; intuition. Qed.

Lemma parseCase_elsewhere f st :
  m_recursionDepth st < maxRecursionDepth ->
  currentToken st <> Token.Case ->
  currentToken st <> Token.Default ->
  parseCase (S f) st = AssertFail "Case or default case expected.".
Proof.
  intros Hd H1 H2.
  change (parseCase (S f) st)
    with (recursionGuard
            (fun st0 =>
               parseCase_body m_dialect maxRecursionDepth u256
                 (fun st' => parseBlock f st') st0) st).
  rewrite guard_passes by assumption.
  unfold parseCase_body. unfold_monad.
  change (currentToken (entered st)) with (currentToken st).
  destruct (Token.eqb (currentToken st) Token.Default) eqn:E1;
    [apply Token_eqb_eq in E1; contradiction|].
  destruct (Token.eqb (currentToken st) Token.Case) eqn:E2;
    [apply Token_eqb_eq in E2; contradiction|].
  reflexivity.
Qed.

Lemma parseCase_ending fuel st :
  ending PCase fuel st (forget (parseCase fuel st)).
Proof.
  destruct (Token.eqb (currentToken st) Token.Case) eqn:E1.
  { apply Token_eqb_eq in E1. eapply post_ending.
    apply productions_post. auto. }
  destruct (Token.eqb (currentToken st) Token.Default) eqn:E2.
  { apply Token_eqb_eq in E2. eapply post_ending.
    apply productions_post. auto. }
  assert (H1 : currentToken st <> Token.Case).
  { intros E. rewrite E in E1. discriminate. }
  assert (H2 : currentToken st <> Token.Default).
  { intros E. rewrite E in E2. discriminate. }
  destruct fuel as [|f].
  - change (parseCase 0 st)
      with (recursionGuard (fun st0 => @outOfFuel Case st0) st).
    rewrite recursionGuard_eq. cbv zeta.
    destruct (Nat.ltb_spec maxRecursionDepth (S (m_recursionDepth st))).
    + cbn. apply fatalCount_parser.
    + cbn. lia.
  - destruct (Nat.le_gt_cases maxRecursionDepth (m_recursionDepth st))
      as [Hfull|Hroom].
    + change (parseCase (S f) st)
        with (recursionGuard
                (fun st0 =>
                   parseCase_body m_dialect maxRecursionDepth u256
                     (fun st' => parseBlock f st') st0) st).
      rewrite recursionGuard_eq. cbv zeta.
      destruct (Nat.ltb_spec maxRecursionDepth (S (m_recursionDepth st)));
        [|lia].
      cbn. apply fatalCount_parser.
    + rewrite parseCase_elsewhere by assumption. cbn. auto.
Qed.

Lemma runProduction_ending p fuel st :
  ending p fuel st (runProduction p fuel st).
Proof.
  destruct p; cbn [runProduction]; try apply parseCase_ending;
    eapply post_ending.
  - apply productions_post.
  - apply productions_post.
  - apply productions_post.
  - apply parseExpression_post.
  - apply parseElementaryOperation_post.
  - apply parseVariableDeclaration_post.
  - apply productions_post.
  - apply parseCall_post.
  - apply parseTypedName_post.
Qed.

(** X10: a production that returns has consumed at least one token and
    recorded no fatal diagnostic; one that unwinds has recorded exactly one. *)
Theorem productions_consume_or_raise p fuel st :
  match runProduction p fuel st with
  | Ok _ st' =>
      List.length (tokens st') < List.length (tokens st)
      /\ fatalCount (m_errors st') = fatalCount (m_errors st)
  | Fatal st' => fatalCount (m_errors st') = S (fatalCount (m_errors st))
  | _ => True
  end.
Proof.
  pose proof (runProduction_ending p fuel st) as H.
  destruct (runProduction p fuel st); cbn in H; auto.
Qed.

(** X11: with fuel for the levels the recursion guard leaves, a production
    returns or raises a fatal error: the loops end, and no assertion fails but
    the one of [parseCase], and that one exactly when it is called on a token
    that is neither [case] nor [default]. *)
Theorem productions_end_without_assertion :
  (forall p fuel st,
      maxRecursionDepth <= fuel + m_recursionDepth st ->
      match runProduction p fuel st with
      | Ok _ _ => True
      | Fatal _ => True
      | AssertFail msg =>
          p = PCase /\ currentToken st <> Token.Case
          /\ currentToken st <> Token.Default
          /\ msg = "Case or default case expected."
      | OutOfFuel => False
      end)
  /\ (forall f st,
        m_recursionDepth st < maxRecursionDepth ->
        currentToken st <> Token.Case ->
        currentToken st <> Token.Default ->
        parseCase (S f) st = AssertFail "Case or default case expected.").
Proof.
  split.
  - intros p fuel st Hfuel.
    pose proof (runProduction_ending p fuel st) as H.
    destruct (runProduction p fuel st); cbn in H; auto. lia.
  - apply parseCase_elsewhere.
Qed.

(** *** Where the input goes wrong *)

Lemma parse_unwinds fuel sc reuse st st1 es e :
  parseTry fuel reuse (parseEntry sc st) = Fatal st1 ->
  m_errors st1 = es ++ [e] ->
  parse fuel sc reuse st = Returned None (resetScanner st1).
Proof.
  intros E He. unfold parse. rewrite E, He.
  destruct es; reflexivity.
Qed.

(** X12: an input that does not begin with an opening brace, the empty one
    included, makes [parse] return nothing, with one fatal diagnostic, at its
    first token, after the ones the sink held. *)
Theorem parse_expects_block f sc reuse st :
  0 < maxRecursionDepth ->
  tok_kind (scannerCurrent sc) <> Token.LBrace ->
  exists st' msg,
    parse (S f) sc reuse st = Returned None st'
    /\ m_errors st'
       = m_errors st
         ++ [mkError ErrorType.ParserError (tok_location (scannerCurrent sc))
               msg].
Proof.
  intros Hmax Htok. do 2 eexists. split.
  - eapply parse_unwinds with (es := m_errors st).
    + unfold parseTry. unfold bind at 1.
      change (parseBlock (S f) (parseEntry sc st))
        with (recursionGuard
                (fun st0 =>
                   parseBlock_body (fun st' => parseStatement f st') st0)
                (parseEntry sc st)).
      rewrite guard_passes by (cbn; lia).
      unfold parseBlock_body. unfold_monad.
      change (currentToken (entered (parseEntry sc st)))
        with (tok_kind (scannerCurrent sc)).
      destruct (Token.eqb (tok_kind (scannerCurrent sc)) Token.LBrace) eqn:E;
        [apply Token_eqb_eq in E; contradiction|].
      reflexivity.
    + reflexivity.
  - reflexivity.
Qed.

(** X13: after the block: a caller that reuses the scanner gets it where the
    block ends; otherwise the end of the source has to follow, and a token
    left over makes [parse] return nothing although the block was read, with a
    fatal diagnostic at that token. *)
Theorem parse_expects_end_of_source fuel sc st b st1 :
  parseBlock fuel (parseEntry sc st) = Ok b st1 ->
  parse fuel sc true st = Returned (Some b) (resetScanner st1)
  /\ (currentToken st1 = Token.EOS ->
      parse fuel sc false st
      = Returned (Some b) (resetScanner (skipToken st1)))
  /\ (currentToken st1 <> Token.EOS ->
      exists st' msg,
        parse fuel sc false st = Returned None st'
        /\ m_errors st'
           = m_errors st1 ++ [mkError ErrorType.ParserError (location st1) msg]).
Proof.
  intros E. repeat split.
  - unfold parse, parseTry. unfold bind at 1. rewrite E. reflexivity.
  - intros Htok. unfold parse, parseTry. unfold bind at 1. rewrite E.
    unfold_monad. cbn [negb]. rewrite Htok. reflexivity.
  - intros Htok. do 2 eexists. split.
    + eapply parse_unwinds with (es := m_errors st1).
      * unfold parseTry. unfold bind at 1. rewrite E.
        unfold_monad. cbn [negb].
        destruct (Token.eqb (currentToken st1) Token.EOS) eqn:E1;
          [apply Token_eqb_eq in E1; contradiction|].
        reflexivity.
      * reflexivity.
    + reflexivity.
Qed.

(** X14: where a statement is expected, a token that can begin neither a
    statement nor an operand is a fatal error at that token: the end of the
    source in a block that is not closed, a [case] outside a switch, a
    parenthesis. *)
Theorem stray_token_rejected f st :
  S (m_recursionDepth st) < maxRecursionDepth ->
  startsSimpleStatement st = true ->
  isIdentifierClass (currentToken st) = false ->
  isLiteralClass (currentToken st) = false ->
  raises (parseStatement (S f) st) (m_errors st) (location st)
         (if AsmFlavour.isYul (flavour m_dialect)
          then "Literal or identifier expected."
          else "Literal, identifier or instruction expected.").
Proof.
  intros Hd Hs Hi Hl.
  rewrite parseStatement_simple by (try lia; assumption).
  unfold parseSimpleStatement. unfold bind at 1.
  unfold parseElementaryOperation.
  rewrite guard_passes by (cbn; lia).
  unfold_monad.
  change (currentToken (entered (entered st))) with (currentToken st).
  destruct (currentToken st); try discriminate; eexists; split; reflexivity.
Qed.

(** X15: outside the typed flavour [true] and [false] are read and then
    refused: the diagnostic is at the token after the literal. *)
Theorem boolean_literal_refused st :
  m_recursionDepth st < maxRecursionDepth ->
  AsmFlavour.isYul (flavour m_dialect) = false ->
  currentToken st = Token.TrueLiteral \/ currentToken st = Token.FalseLiteral ->
  raises (parseElementaryOperation st) (m_errors st)
         (location (skipToken st))
         "True and false are not valid literals.".
Proof.
  intros Hd Hy Htok.
  unfold parseElementaryOperation.
  rewrite guard_passes by assumption.
  unfold_monad.
  change (currentToken (entered st)) with (currentToken st).
  rewrite Hy.
  destruct Htok as [-> | ->]; eexists; split; reflexivity.
Qed.

(** X16: a literal cannot be called: when a parenthesis follows it, the
    expression is a fatal error at the parenthesis. *)
Theorem literal_not_callable f st l st1 :
  S (m_recursionDepth st) < maxRecursionDepth ->
  parseElementaryOperation (entered st) = Ok (ExprLiteral l) st1 ->
  currentToken st1 = Token.LParen ->
  raises (parseExpression (S (S f)) st) (m_errors st1) (location st1)
         (if AsmFlavour.isYul (flavour m_dialect)
          then "Function name expected."
          else ("Assembly instruction or function name required in front of "
                ++ dquote ++ "(" ++ dquote ++ ")")).
Proof.
  intros Hd He Htok.
  pose proof (parseElementaryOperation_post m_dialect maxRecursionDepth u256
                0 (entered st)) as Hp.
  rewrite He in Hp. cbn [post] in Hp.
  destruct Hp as (Hdepth & _).
  change (parseExpression (S (S f)) st)
    with (recursionGuard
            (fun st0 =>
               parseExpression_body m_dialect maxRecursionDepth u256
                 (fun op st' => parseCall (S f) op st') st0) st).
  rewrite guard_passes by lia.
  unfold parseExpression_body. unfold bind at 1. rewrite He.
  unfold bind at 1. unfold gets at 1. rewrite Htok.
  cbn [isFunctionCall Token.eqb orb].
  change (parseCall (S f) (ExprLiteral l) st1)
    with (recursionGuard
            (fun st0 =>
               parseCall_body m_dialect
                 (fun st' => parseExpression f st') (ExprLiteral l) st0) st1).
  rewrite guard_passes by (cbn in Hdepth; lia).
  unfold parseCall_body. unfold_monad.
  eexists. split; reflexivity.
Qed.

(** X17: the value of a case has to be a literal. *)
Theorem case_value_literal f st e st1 :
  m_recursionDepth st < maxRecursionDepth ->
  currentToken st = Token.Case ->
  parseElementaryOperation (skipToken (entered st)) = Ok e st1 ->
  isLiteral e = false ->
  raises (parseCase (S f) st) (m_errors st1) (location st1)
         "Literal expected.".
Proof.
  intros Hd Htok He Hl.
  change (parseCase (S f) st)
    with (recursionGuard
            (fun st0 =>
               parseCase_body m_dialect maxRecursionDepth u256
                 (fun st' => parseBlock f st') st0) st).
  rewrite guard_passes by assumption.
  unfold parseCase_body. unfold bind at 1. unfold createWithLocation.
  unfold gets at 1. unfold bind at 1. unfold gets at 1.
  change (currentToken (entered st)) with (currentToken st). rewrite Htok.
  cbn [Token.eqb]. unfold bind at 1. unfold bind at 1.
  unfold advance at 1. unfold modify at 1. unfold bind at 1. rewrite He.
  destruct e; try discriminate; eexists; split; reflexivity.
Qed.

(** X18: only a name can be assigned to: an operand that is not an identifier,
    before a comma or [:=], is a fatal error at that token. *)
Theorem assignment_needs_variable_name f st e st1 :
  m_recursionDepth st < maxRecursionDepth ->
  startsSimpleStatement st = true ->
  parseElementaryOperation (entered st) = Ok e st1 ->
  isIdentifier e = false ->
  (currentToken st1 = Token.Comma ->
   raises (parseStatement (S f) st) (m_errors st1) (location st1)
          ("Variable name must precede " ++ dquote ++ "," ++ dquote
           ++ " in multiple assignment."))
  /\ (currentToken st1 = Token.AssemblyAssign ->
      raises (parseStatement (S f) st) (m_errors st1) (location st1)
             ("Variable name must precede " ++ dquote ++ ":=" ++ dquote
              ++ " in assignment.")).
Proof.
  intros Hd Hs He Hi.
  rewrite parseStatement_simple by assumption.
  split; intros Htok;
    unfold parseSimpleStatement; unfold bind at 1; rewrite He;
    unfold bind at 1; unfold gets at 1; rewrite Htok; cbv beta iota;
    unfold parseAssignment, while; cbn [loop]; unfold_monad;
    destruct e; try discriminate; rewrite Htok;
    eexists; split; reflexivity.
Qed.

(** X19: an [if] has the location of its keyword: unlike the other statements
    with a body, its end is not moved to the end of the body. *)
Theorem if_located_at_keyword f st s st' :
  currentToken st = Token.If ->
  parseStatement (S f) st = Ok s st' ->
  exists condition body, s = If (location st) condition body.
Proof.
  intros Htok.
  change (parseStatement (S f) st)
    with (recursionGuard
            (fun st0 =>
               parseStatement_body m_dialect maxRecursionDepth u256
                 (parseVariableDeclaration f)
                 (fun st' => parseFunctionDefinition f st')
                 (fun st' => parseForLoop f st')
                 (fun st' => parseBlock f st')
                 (parseExpression f)
                 (fun st' => parseCase f st')
                 (parseCall f) st0) st).
  rewrite recursionGuard_eq. cbv zeta.
  destruct (Nat.ltb maxRecursionDepth (S (m_recursionDepth st)));
    [discriminate|].
  unfold parseStatement_body. unfold bind at 1. unfold gets at 1.
  change (currentToken (setRecursionDepth (S (m_recursionDepth st)) st))
    with (currentToken st).
  rewrite Htok. unfold_monad.
  repeat step; try discriminate.
  intros E. injection E as <- _. eauto.
Qed.

(** A call that is returned was read up to its closing parenthesis: its
    location begins with the operand it is made from and ends with that
    parenthesis, and its name is the operand's. *)
Lemma parseCall_body_spans (pE : M Expression)
  (good : PState -> PState -> Expression -> Prop) :
  (forall st, frame good st (pE st)) ->
  forall op st,
    match parseCall_body m_dialect pE op st with
    | Ok e st' =>
        exists l name arguments front close,
          e = ExprFunctionCall l name arguments
          /\ tokens st = front ++ close :: tokens st'
          /\ tok_kind close = Token.RParen
          /\ l = mkLoc (loc_start (locationOf op))
                       (loc_end (tok_location close))
          /\ match op with
             | ExprIdentifier i => name = i
             | ExprFunctionCall _ i _ => name = i
             | ExprLiteral _ => False
             end
    | _ => True
    end.
Proof.
  intros HE op st. unfold parseCall_body. unfold_monad.
  assert (Hclose : forall st0 st1 : PState,
             follows st st0 ->
             Token.eqb (currentToken st0) Token.RParen = true ->
             exists front,
               tokens st = front ++ scannerCurrent (m_scanner st0)
                                 :: tokens (skipToken st0)).
  { intros st0 _ (_ & (front & Hfront) & _) Hk. apply Token_eqb_eq in Hk.
    destruct (@current_cons (m_scanner st0) _ Hk ltac:(discriminate))
      as (rest & Hrest).
    exists front. rewrite Hfront. unfold tokens, skipToken. cbn.
    rewrite Hrest. reflexivity. }
  repeat fstep; try exact I.
  all: try (fstep_while
         (fun (_ : PState) (_ : list Expression) => True)
         (fun (_ : PState) (_ : list Expression) => True);
         [ repeat fstep; fbase; ffollows | exact I | | exact I .. ];
         repeat fstep; try exact I).
  all: match goal with
       | |- exists _ _ _ _ _, ExprFunctionCall _ _ _ = _ /\ _ =>
           idtac
       end.
  all: match goal with
       | H : Token.eqb (currentToken ?s) Token.RParen = true |- _ =>
           destruct (Hclose s s) as (front & Hfront);
             [ fbase; ffollows | exact H | ]
       end.
  all: do 5 eexists; split; [reflexivity|]; split; [exact Hfront|];
    split; [apply Token_eqb_eq; assumption|]; split; reflexivity.
Qed.

(** X20: a call that is returned has the name of the operand it began with,
    was read up to a closing parenthesis, and its location goes from the begin
    of the operand to the end of that parenthesis. *)
Theorem call_spans_to_its_parenthesis f op st e st' :
  parseCall f op st = Ok e st' ->
  exists l name arguments front close,
    e = ExprFunctionCall l name arguments
    /\ tokens st = front ++ close :: tokens st'
    /\ tok_kind close = Token.RParen
    /\ l = mkLoc (loc_start (locationOf op)) (loc_end (tok_location close))
    /\ match op with
       | ExprIdentifier i => name = i
       | ExprFunctionCall _ i _ => name = i
       | ExprLiteral _ => False
       end.
Proof.
  destruct f as [|f].
  { change (parseCall 0 op st)
      with (recursionGuard (fun st0 => @outOfFuel Expression st0) st).
    rewrite recursionGuard_eq. cbv zeta.
    destruct (Nat.ltb maxRecursionDepth (S (m_recursionDepth st)));
      discriminate. }
  change (parseCall (S f) op st)
    with (recursionGuard
            (fun st0 =>
               parseCall_body m_dialect (fun st' => parseExpression f st')
                 op st0) st).
  rewrite recursionGuard_eq. cbv zeta.
  destruct (Nat.ltb maxRecursionDepth (S (m_recursionDepth st)));
    try discriminate.
  pose proof (@parseCall_body_spans (fun st' => parseExpression f st') _
                (parseExpression_frame m_dialect maxRecursionDepth u256 f)
                op (setRecursionDepth (S (m_recursionDepth st)) st)) as H.
  destruct (parseCall_body m_dialect (fun st' => parseExpression f st') op
              (setRecursionDepth (S (m_recursionDepth st)) st));
    try discriminate.
  intros E. injection E as <- <-. exact H.
Qed.

End ParserBehaviour.

(** ** More on the instruction tables *)

Lemma tolower_idempotent (c : ascii) : tolower (tolower c) = tolower c.
Proof.
  destruct c as [[] [] [] [] [] [] [] []]; reflexivity.
Qed.

Lemma lowercase_idempotent (s : string) : lowercase (lowercase s) = lowercase s.
Proof.
  induction s as [|c s IH]; cbn; [reflexivity|].
  rewrite tolower_idempotent, IH. reflexivity.
Qed.

Section InstructionTableOrder.

Variable c_instructions : list (string * Instruction).
Variables JUMPDEST SELFDESTRUCT KECCAK256 : Instruction.
Variable isPushInstruction : Instruction -> bool.

Local Abbreviation excluded := (excluded JUMPDEST isPushInstruction).
Local Abbreviation builtInstructions :=
  (builtInstructions c_instructions JUMPDEST isPushInstruction).
Local Abbreviation builtNames :=
  (builtNames c_instructions JUMPDEST SELFDESTRUCT KECCAK256
              isPushInstruction).

(** In a map in the order of its keys, the last entry with opcode [i] has
    the greatest of the names of [i]. *)
Lemma lastByOpcode_greatest (m : StdMap string Instruction) i n n' :
  mapSorted String_as_OT.compare m ->
  lastByOpcode i m = Some n -> In (n', i) m ->
  String_as_OT.compare n' n <> Gt.
Proof.
  induction m as [|[k v] m IH]; cbn [lastByOpcode In mapSorted];
    [contradiction|].
  intros [Habove Hs] Hlast Hin.
  destruct (lastByOpcode i m) as [n0|] eqn:E.
  - injection Hlast as ->. destruct Hin as [Heq|Hin].
    + injection Heq as -> ->. apply lastByOpcode_In in E.
      rewrite Forall_forall in Habove. specialize (Habove _ E).
      cbn in Habove. congruence.
    + apply IH; auto.
  - destruct (N.eqb_spec v i); [|discriminate]. injection Hlast as ->.
    destruct Hin as [Heq|Hin].
    + injection Heq as -> _.
      assert (H : String_as_OT.compare n' n' = Eq)
        by (apply string_compare_eq; reflexivity).
      congruence.
    + destruct (@lastByOpcode_some _ _ _ Hin) as (n0 & Hn0). congruence.
Qed.

(** X23: the names of both tables are in lower case. *)
Theorem instruction_names_lower_case :
  (forall n i, stringFind n builtInstructions = Some i -> lowercase n = n)
  /\ (forall i n, opcodeFind i builtNames = Some n -> lowercase n = n).
Proof.
  assert (H1 : forall n i,
             stringFind n builtInstructions = Some i -> lowercase n = n).
  { intros n i H. apply stringFind_built in H.
    destruct (@lastByName_In JUMPDEST isPushInstruction _ _ _ H)
      as (name & _ & <- & _).
    apply lowercase_idempotent. }
  split; [exact H1|].
  intros i n H. unfold builtNames, opcodeFind, opcodeAssign in H.
  destruct (N.eq_dec i KECCAK256) as [->|Hk].
  { rewrite mapFind_assign_eq in H by apply N.compare_eq_iff.
    injection H as <-. reflexivity. }
  rewrite mapFind_assign_ne in H
    by (try apply N.compare_eq_iff; assumption).
  destruct (N.eq_dec i SELFDESTRUCT) as [->|Hs].
  { rewrite mapFind_assign_eq in H by apply N.compare_eq_iff.
    injection H as <-. reflexivity. }
  rewrite mapFind_assign_ne in H
    by (try apply N.compare_eq_iff; assumption).
  fold opcodeFind in H. rewrite opcodeFind_nameOf in H.
  destruct (lastByOpcode i builtInstructions) as [n0|] eqn:E;
    [|discriminate].
  injection H as <-. apply lastByOpcode_In in E.
  apply (H1 n0 i).
  apply mapSorted_find;
    auto using string_compare_eq, string_compare_antisym,
      builtInstructions_sorted.
Qed.

(** X24: every opcode the first table holds has a name in the second, and for
    an opcode other than the two overridden ones it is the greatest of its
    names in the order of the strings: the loop over the first table goes
    through the names in that order and the last one stays. *)
Theorem opcode_named_by_greatest_name :
  (forall n i,
      stringFind n builtInstructions = Some i ->
      exists n', opcodeFind i builtNames = Some n')
  /\ (forall i n n',
        i <> SELFDESTRUCT -> i <> KECCAK256 ->
        opcodeFind i builtNames = Some n ->
        stringFind n' builtInstructions = Some i ->
        String_as_OT.compare n' n <> Gt).
Proof.
  split.
  - intros n i H.
    destruct (N.eq_dec i KECCAK256) as [->|Hk].
    { exists "keccak256". unfold builtNames, opcodeFind, opcodeAssign.
      apply mapFind_assign_eq. apply N.compare_eq_iff. }
    destruct (N.eq_dec i SELFDESTRUCT) as [->|Hs].
    { exists "selfdestruct".
      unfold builtNames, opcodeFind, opcodeAssign.
      rewrite mapFind_assign_ne
        by (try apply N.compare_eq_iff; assumption).
      apply mapFind_assign_eq. apply N.compare_eq_iff. }
    apply mapFind_In in H; [|apply string_compare_eq].
    destruct (@lastByOpcode_some _ _ _ H) as (n' & Hn').
    exists n'. apply opcodeFind_built; assumption.
  - intros i n n' Hs Hk Hn Hn'.
    apply opcodeFind_built in Hn; try assumption.
    apply mapFind_In in Hn'; [|apply string_compare_eq].
    apply (@lastByOpcode_greatest builtInstructions i n n');
      auto using builtInstructions_sorted.
Qed.

End InstructionTableOrder.

(** ** The properties at sample inputs *)

Lemma diagnostics_kept_scanner_forward_witness :
  exists st',
    parse looseDialect 8 u256_of_string 8 (scannerOf blockAndMore) false
          (setErrors [earlierError] freshParser) = Returned None st'
    /\ prefixOf [earlierError] (m_errors st')
    /\ suffixOf (tokens st') blockAndMore
    /\ sc_eos (m_scanner st') = mkLoc 1000 1000
    /\ sc_period (m_scanner st') = false.
Proof.
  eexists. split; [vm_compute; reflexivity|].
  eapply (proj1 (@diagnostics_kept_scanner_forward looseDialect 8
                  u256_of_string)
               8 (scannerOf blockAndMore) false
               (setErrors [earlierError] freshParser) None).
  vm_compute. reflexivity.
Defined.

Lemma diagnostics_of_a_parse_witness :
  exists b st',
    parse looseDialect 8 u256_of_string 8 (scannerOf breakOutside) false
          (setErrors [earlierError] freshParser) = Returned (Some b) st'
    /\ exists new,
        m_errors st' = [earlierError] ++ new
        /\ Forall (fun e => isSyntaxError e = true) new.
Proof.
  do 2 eexists. split; [vm_compute; reflexivity|].
  eapply (@diagnostics_of_a_parse looseDialect 8 u256_of_string 8
           (scannerOf breakOutside) false
           (setErrors [earlierError] freshParser) (Some _)).
  vm_compute. reflexivity.
Defined.

Lemma block_spans_its_braces_witness :
  exists b st',
    parseBlock looseDialect 8 u256_of_string 8 (reading declareAndAssign)
    = Ok b st'
    /\ exists open inner close,
        tokens (reading declareAndAssign)
        = open :: inner ++ close :: tokens st'
        /\ tok_kind open = Token.LBrace
        /\ tok_kind close = Token.RBrace
        /\ block_location b
           = mkLoc (loc_start (tok_location open))
                   (loc_end (tok_location close)).
Proof.
  do 2 eexists. split; [vm_compute; reflexivity|].
  eapply (@block_spans_its_braces looseDialect 8 u256_of_string 8
           (reading declareAndAssign)).
  vm_compute. reflexivity.
Defined.

Lemma returned_numbers_valid_witness :
  exists b st',
    parse looseDialect 8 u256_of_string 8 (scannerOf switchWithDefault) false
          freshParser = Returned (Some b) st'
    /\ allBlock (onExpressions (numberValid u256_of_string)) b = true.
Proof.
  do 2 eexists. split; [vm_compute; reflexivity|].
  eapply (@returned_numbers_valid looseDialect 8 u256_of_string 8
           (scannerOf switchWithDefault) false freshParser).
  vm_compute. reflexivity.
Defined.

Lemma returned_types_by_flavour_witness :
  exists b st',
    parse typedDialect 8 u256_of_string 8 (scannerOf typedDeclaration) false
          freshParser = Returned (Some b) st'
    /\ allBlock (onExpressions (literalTyped typedDialect)) b = true
    /\ allBlock (onTypedNames (typedNameTyped typedDialect)) b = true.
Proof.
  do 2 eexists. split; [vm_compute; reflexivity|].
  eapply (@returned_types_by_flavour typedDialect 8 u256_of_string 8
           (scannerOf typedDeclaration) false freshParser).
  vm_compute. reflexivity.
Defined.

Lemma builtin_only_called_witness :
  exists b st',
    parse looseDialect 8 u256_of_string 8 (scannerOf declareAndAssign) false
          freshParser = Returned (Some b) st'
    /\ allBlock (onExpressions (operandNotBuiltin looseDialect)) b = true.
Proof.
  do 2 eexists. split; [vm_compute; reflexivity|].
  eapply (@builtin_only_called looseDialect 8 u256_of_string 8
           (scannerOf declareAndAssign) false freshParser).
  vm_compute. reflexivity.
Defined.

Lemma locations_follow_components_witness :
  exists b st',
    parse looseDialect 8 u256_of_string 8 (scannerOf functionAndLoop) false
          freshParser = Returned (Some b) st'
    /\ allBlock locationEnds b = true
    /\ allBlock (onExpressions callStart) b = true.
Proof.
  do 2 eexists. split; [vm_compute; reflexivity|].
  eapply (@locations_follow_components looseDialect 8 u256_of_string 8
           (scannerOf functionAndLoop) false freshParser).
  vm_compute. reflexivity.
Defined.

Lemma names_never_empty_witness :
  exists b st',
    parse looseDialect 8 u256_of_string 8 (scannerOf multiAssignment) false
          freshParser = Returned (Some b) st'
    /\ allBlock hasNames b = true.
Proof.
  do 2 eexists. split; [vm_compute; reflexivity|].
  eapply (@names_never_empty looseDialect 8 u256_of_string 8
           (scannerOf multiAssignment) false freshParser).
  vm_compute. reflexivity.
Defined.

Lemma nodes_begin_at_first_token_witness :
  exists s st',
    parseStatement looseDialect 8 u256_of_string 8
                   (reading (tl declareAndAssign)) = Ok s st'
    /\ startsAt (location (reading (tl declareAndAssign))) s.
Proof.
  do 2 eexists. split; [vm_compute; reflexivity|].
  eapply (proj1 (@nodes_begin_at_first_token looseDialect 8 u256_of_string 8
                  (reading (tl declareAndAssign))) _ _).
  vm_compute. reflexivity.
Defined.

Lemma productions_end_without_assertion_witness :
  8 <= 8 + m_recursionDepth (reading caseOfName)
  /\ match runProduction looseDialect 8 u256_of_string PStatement 8
             (reading caseOfName) with
     | Ok _ _ => True
     | Fatal _ => True
     | AssertFail msg =>
         PStatement = PCase /\ currentToken (reading caseOfName) <> Token.Case
         /\ currentToken (reading caseOfName) <> Token.Default
         /\ msg = "Case or default case expected."
     | OutOfFuel => False
     end.
Proof.
  split; [cbn; lia|].
  eapply (proj1 (@productions_end_without_assertion looseDialect 8
                  u256_of_string) PStatement 8 (reading caseOfName)).
  cbn. lia.
Defined.

Lemma parse_expects_block_witness :
  0 < 8
  /\ tok_kind (scannerCurrent (scannerOf [])) <> Token.LBrace
  /\ exists st' msg,
      parse looseDialect 8 u256_of_string 8 (scannerOf []) false freshParser
      = Returned None st'
      /\ m_errors st'
         = m_errors freshParser
           ++ [mkError ErrorType.ParserError
                 (tok_location (scannerCurrent (scannerOf []))) msg].
Proof.
  split; [lia|]. split; [cbn; discriminate|].
  eapply (@parse_expects_block looseDialect 8 u256_of_string 7 (scannerOf [])
           false freshParser); [lia | cbn; discriminate].
Defined.

Lemma parse_expects_end_of_source_witness :
  exists b st1,
    parseBlock looseDialect 8 u256_of_string 8
               (parseEntry (scannerOf blockAndMore) freshParser) = Ok b st1
    /\ currentToken st1 <> Token.EOS
    /\ exists st' msg,
        parse looseDialect 8 u256_of_string 8 (scannerOf blockAndMore) false
              freshParser = Returned None st'
        /\ m_errors st'
           = m_errors st1
             ++ [mkError ErrorType.ParserError (location st1) msg].
Proof.
  do 2 eexists. split; [vm_compute; reflexivity|].
  split; [vm_compute; discriminate|].
  eapply (proj2 (proj2 (@parse_expects_end_of_source looseDialect 8
                         u256_of_string 8 (scannerOf blockAndMore)
                         freshParser _ _ eq_refl)));
    vm_compute; discriminate.
Defined.

Lemma stray_token_rejected_witness :
  S (m_recursionDepth (reading [])) < 8
  /\ raises (parseStatement looseDialect 8 u256_of_string 8 (reading []))
            (m_errors (reading [])) (location (reading []))
            "Literal, identifier or instruction expected.".
Proof.
  split; [cbn; lia|].
  eapply (@stray_token_rejected looseDialect 8 u256_of_string 7 (reading []));
    [cbn; lia | reflexivity | reflexivity | reflexivity].
Defined.

Lemma boolean_literal_refused_witness :
  currentToken (reading (skipn 6 typedDeclaration)) = Token.TrueLiteral
  /\ raises (parseElementaryOperation looseDialect 8 u256_of_string
               (reading (skipn 6 typedDeclaration)))
            (m_errors (reading (skipn 6 typedDeclaration)))
            (location (skipToken (reading (skipn 6 typedDeclaration))))
            "True and false are not valid literals.".
Proof.
  split; [reflexivity|].
  eapply (@boolean_literal_refused looseDialect 8 u256_of_string
           (reading (skipn 6 typedDeclaration)));
    [cbn; lia | reflexivity | left; reflexivity].
Defined.

Lemma literal_not_callable_witness :
  exists l st1,
    parseElementaryOperation looseDialect 8 u256_of_string
                             (entered (reading calledLiteral))
    = Ok (ExprLiteral l) st1
    /\ currentToken st1 = Token.LParen
    /\ raises (parseExpression looseDialect 8 u256_of_string 8
                 (reading calledLiteral))
              (m_errors st1) (location st1)
              ("Assembly instruction or function name required in front of "
               ++ dquote ++ "(" ++ dquote ++ ")").
Proof.
  do 2 eexists. split; [vm_compute; reflexivity|].
  split; [reflexivity|].
  eapply (@literal_not_callable looseDialect 8 u256_of_string 6
           (reading calledLiteral) _ _);
    [cbn; lia | vm_compute; reflexivity | reflexivity].
Defined.

Lemma case_value_literal_witness :
  exists e st1,
    parseElementaryOperation looseDialect 8 u256_of_string
                             (skipToken (entered (reading caseOfName)))
    = Ok e st1
    /\ isLiteral e = false
    /\ raises (parseCase looseDialect 8 u256_of_string 8
                 (reading caseOfName))
              (m_errors st1) (location st1) "Literal expected.".
Proof.
  do 2 eexists. split; [vm_compute; reflexivity|].
  split; [reflexivity|].
  eapply (@case_value_literal looseDialect 8 u256_of_string 7
           (reading caseOfName) _ _);
    [cbn; lia | reflexivity | vm_compute; reflexivity | reflexivity].
Defined.

Lemma assignment_needs_variable_name_witness :
  exists e st1,
    parseElementaryOperation looseDialect 8 u256_of_string
                             (entered (reading assignToLiteral)) = Ok e st1
    /\ isIdentifier e = false
    /\ currentToken st1 = Token.AssemblyAssign
    /\ raises (parseStatement looseDialect 8 u256_of_string 8
                 (reading assignToLiteral))
              (m_errors st1) (location st1)
              ("Variable name must precede " ++ dquote ++ ":=" ++ dquote
               ++ " in assignment.").
Proof.
  do 2 eexists. split; [vm_compute; reflexivity|].
  split; [reflexivity|]. split; [reflexivity|].
  eapply (proj2 (@assignment_needs_variable_name looseDialect 8
                  u256_of_string 7 (reading assignToLiteral) _ _
                  ltac:(cbn; lia) eq_refl eq_refl eq_refl)).
  reflexivity.
Defined.

Lemma if_located_at_keyword_witness :
  exists s st',
    parseStatement looseDialect 8 u256_of_string 8 (reading ifStatement)
    = Ok s st'
    /\ exists condition body,
        s = If (location (reading ifStatement)) condition body.
Proof.
  do 2 eexists. split; [vm_compute; reflexivity|].
  eapply (@if_located_at_keyword looseDialect 8 u256_of_string 7
           (reading ifStatement) _ _); [reflexivity | vm_compute; reflexivity].
Defined.

Lemma call_spans_to_its_parenthesis_witness :
  exists e st',
    parseCall looseDialect 8 u256_of_string 8
              (ExprIdentifier (mkIdentifier (mkLoc 18 19) "f"))
              (reading (skipn 8 declareAndAssign)) = Ok e st'
    /\ exists l name arguments front close,
        e = ExprFunctionCall l name arguments
        /\ tokens (reading (skipn 8 declareAndAssign))
           = front ++ close :: tokens st'
        /\ tok_kind close = Token.RParen
        /\ l = mkLoc 18 (loc_end (tok_location close))
        /\ name = mkIdentifier (mkLoc 18 19) "f".
Proof.
  do 2 eexists. split; [vm_compute; reflexivity|].
  eapply (@call_spans_to_its_parenthesis looseDialect 8 u256_of_string 8
           (ExprIdentifier (mkIdentifier (mkLoc 18 19) "f"))
           (reading (skipn 8 declareAndAssign))).
  vm_compute. reflexivity.
Defined.

Lemma instruction_names_lower_case_witness :
  opcodeFind 1%N (builtNames aliasOpcodes 91%N 255%N 32%N sampleIsPush)
  = Some "plus"
  /\ lowercase "plus" = "plus".
Proof.
  split; [reflexivity|].
  eapply (proj2 (@instruction_names_lower_case aliasOpcodes 91%N 255%N 32%N
                  sampleIsPush) 1%N "plus").
  reflexivity.
Defined.

Lemma opcode_named_by_greatest_name_witness :
  opcodeFind 1%N (builtNames aliasOpcodes 91%N 255%N 32%N sampleIsPush)
  = Some "plus"
  /\ stringFind "add" (builtInstructions aliasOpcodes 91%N sampleIsPush)
     = Some 1%N
  /\ String_as_OT.compare "add" "plus" <> Gt.
Proof.
  split; [reflexivity|]. split; [reflexivity|].
  eapply (proj2 (@opcode_named_by_greatest_name aliasOpcodes 91%N 255%N 32%N
                  sampleIsPush) 1%N "plus" "add");
    [discriminate | discriminate | reflexivity | reflexivity].
Defined.

(** * Where a node stands, and what is never raised *)

(** ** The diagnostics of a tree *)

Ltac nrewrite :=
  repeat match goal with
  | H : map noteOf (m_errors ?s) = _ |- context [map noteOf (m_errors ?s)] =>
      rewrite H
  | H : m_errors ?s = _ |- context [m_errors ?s] => rewrite H
  | H : m_insideFunction ?s = _ |- context [m_insideFunction ?s] => rewrite H
  | H : m_currentForLoopComponent ?s = _
    |- context [m_currentForLoopComponent ?s] => rewrite H
  end.

Ltac nsolve :=
  unfold silentRun, statementNoted, blockNoted, caseNoted, sameContext,
    notesOf in *;
  fnorm;
  intros;
  split_post;
  repeat match goal with
  | H : negb _ = true |- _ => apply negb_true_iff in H
  | H : negb _ = false |- _ => apply negb_false_iff in H
  end;
  repeat split;
  cbn [statementNotes blockNotes caseNotes flat_map];
  unfold keywordNote, misplacedMessage, functionInInit;
  rewrite ?flat_map_app;
  cbn [flat_map];
  rewrite ?map_app;
  cbn [map noteOf err_location err_message loc_start];
  nrewrite;
  rewrite ?map_app;
  cbn [map noteOf err_location err_message loc_start];
  rewrite ?app_nil_r, <- ?app_assoc;
  try reflexivity; try congruence.

Ltac nfinish := fbase; ffollows; nsolve.

(** The step over a loop that records nothing. *)
Ltac nstep_while T A :=
  match goal with
  | |- context [match while _ _ ?st with _ => _ end] =>
      fstep_while
        (fun (st' : PState) (_ : T) =>
           sameContext st st' /\ m_errors st' = m_errors st)
        (fun (st' : PState) (_ : A) =>
           sameContext st st' /\ m_errors st' = m_errors st)
  end.

Section NoteProperties.

Variable m_dialect : Dialect.
Variable maxRecursionDepth : nat.
Variable u256 : string -> option N.

Local Abbreviation recursionGuard := (@recursionGuard maxRecursionDepth).
Local Abbreviation expectAsmIdentifier := (expectAsmIdentifier m_dialect).
Local Abbreviation parseTypedName := (parseTypedName m_dialect maxRecursionDepth).
Local Abbreviation parseElementaryOperation :=
  (parseElementaryOperation m_dialect maxRecursionDepth u256).
Local Abbreviation parseExpression :=
  (parseExpression m_dialect maxRecursionDepth u256).
Local Abbreviation parseCall := (parseCall m_dialect maxRecursionDepth u256).
Local Abbreviation parseVariableDeclaration :=
  (parseVariableDeclaration m_dialect maxRecursionDepth u256).
Local Abbreviation parseBlock := (parseBlock m_dialect maxRecursionDepth u256).
Local Abbreviation parseStatement :=
  (parseStatement m_dialect maxRecursionDepth u256).
Local Abbreviation parseCase := (parseCase m_dialect maxRecursionDepth u256).
Local Abbreviation parseForLoop :=
  (parseForLoop m_dialect maxRecursionDepth u256).
Local Abbreviation parseFunctionDefinition :=
  (parseFunctionDefinition m_dialect maxRecursionDepth u256).
Local Abbreviation parseTry := (parseTry m_dialect maxRecursionDepth u256).
Local Abbreviation parse := (parse m_dialect maxRecursionDepth u256).

Lemma expectAsmIdentifier_silent :
  forall st, frame silentRun st (expectAsmIdentifier st).
Proof.
  intros st. unfold expectAsmIdentifier. unfold_monad.
  repeat fstep; nfinish.
Qed.

Lemma guard_silent {A} (st st' : PState) (a : A) :
  silentRun (entered st) st' a -> silentRun st (decreaseRecursionDepth st') a.
Proof. nsolve. Qed.

Lemma parseTypedName_silent :
  forall st, frame silentRun st (parseTypedName st).
Proof.
  unfold parseTypedName.
  apply recursionGuard_frame; [ | apply guard_silent ].
  intros st. pose proof expectAsmIdentifier_silent as HA.
  unfold_monad. repeat fstep; nfinish.
Qed.

Lemma parseElementaryOperation_silent :
  forall st, frame silentRun st (parseElementaryOperation st).
Proof.
  unfold parseElementaryOperation.
  apply recursionGuard_frame; [ | apply guard_silent ].
  intros st. pose proof expectAsmIdentifier_silent as HA.
  unfold_monad. repeat fstep; nfinish.
Qed.


Lemma parseCall_body_silent (pE : M Expression) :
  (forall st, frame silentRun st (pE st)) ->
  forall op st, frame silentRun st (parseCall_body m_dialect pE op st).
Proof.
  intros HE op st. unfold parseCall_body. unfold_monad.
  repeat fstep; try solve [nfinish].
  all: fstep_while
         (fun (st' : PState) (_ : list Expression) => silentRun st st' tt)
         (fun (st' : PState) (_ : list Expression) => silentRun st st' tt);
    [ repeat fstep; nfinish | nfinish | repeat fstep; nfinish .. ].
Qed.

Lemma parseExpression_body_silent (pC : ElementaryOperation -> M Expression) :
  (forall op st, frame silentRun st (pC op st)) ->
  forall st,
    frame silentRun st
          (parseExpression_body m_dialect maxRecursionDepth u256 pC st).
Proof.
  intros HC st. pose proof parseElementaryOperation_silent as HO.
  unfold parseExpression_body. unfold_monad.
  repeat fstep; try solve [nfinish].
Qed.

Lemma parseExpression_parseCall_silent f :
  (forall st, frame silentRun st (parseExpression f st))
  /\ (forall op st, frame silentRun st (parseCall f op st)).
Proof.
  induction f as [|f [IHE IHC]]; split; intros; cbn [parseExpression parseCall].
  - apply recursionGuard_outOfFuel_frame.
  - apply recursionGuard_outOfFuel_frame.
  - apply recursionGuard_frame; [ | apply guard_silent ].
    intros st0. apply parseExpression_body_silent. exact IHC.
  - apply recursionGuard_frame; [ | apply guard_silent ].
    intros st0. apply parseCall_body_silent. exact IHE.
Qed.

Lemma parseExpression_silent f st :
  frame silentRun st (parseExpression f st).
Proof. apply parseExpression_parseCall_silent. Qed.

Lemma parseCall_silent f op st : frame silentRun st (parseCall f op st).
Proof. apply parseExpression_parseCall_silent. Qed.


Lemma guard_statementNoted (st st' : PState) (s : Statement) :
  statementNoted (entered st) st' s ->
  statementNoted st (decreaseRecursionDepth st') s.
Proof. nsolve. Qed.

Lemma guard_blockNoted (st st' : PState) (b : Block) :
  blockNoted (entered st) st' b -> blockNoted st (decreaseRecursionDepth st') b.
Proof. nsolve. Qed.

Lemma guard_caseNoted (st st' : PState) (c : Case) :
  caseNoted (entered st) st' c -> caseNoted st (decreaseRecursionDepth st') c.
Proof. nsolve. Qed.

Lemma parseBlock_body_noted (pS : M Statement) :
  (forall st, frame statementNoted st (pS st)) ->
  forall st, frame blockNoted st (parseBlock_body pS st).
Proof.
  intros HS st. unfold parseBlock_body. unfold_monad.
  repeat fstep; try solve [nfinish].
  fstep_while
    (fun (st' : PState) (l : list Statement) =>
       blockNoted st st' (mkBlock (location st) l))
    (fun (st' : PState) (l : list Statement) =>
       blockNoted st st' (mkBlock (location st) l)).
  - repeat fstep; nfinish.
  - nfinish.
  - nfinish.
  - nfinish.
  - nfinish.
  - nfinish.
Qed.

Lemma parseVariableDeclaration_body_noted (pE : M Expression) :
  (forall st, frame silentRun st (pE st)) ->
  forall st,
    frame statementNoted st
          (parseVariableDeclaration_body m_dialect maxRecursionDepth pE st).
Proof.
  intros HE st. pose proof parseTypedName_silent as HT.
  unfold parseVariableDeclaration_body. unfold_monad.
  repeat fstep; try solve [nfinish].
  fstep_while
    (fun (st' : PState) (_ : list TypedName) => silentRun st st' tt)
    (fun (st' : PState) (_ : list TypedName) => silentRun st st' tt).
  - repeat fstep; nfinish.
  - nfinish.
  - repeat fstep; nfinish.
  - nfinish.
  - nfinish.
  - nfinish.
Qed.

Lemma parseVariableDeclaration_noted f st :
  frame statementNoted st (parseVariableDeclaration f st).
Proof.
  destruct f; unfold parseVariableDeclaration.
  - apply recursionGuard_outOfFuel_frame.
  - apply recursionGuard_frame; [ | apply guard_statementNoted ].
    intros st0. apply parseVariableDeclaration_body_noted.
    intros; apply parseExpression_silent.
Qed.

Lemma parseCase_body_noted (pB : M Block) :
  (forall st, frame blockNoted st (pB st)) ->
  forall st,
    frame caseNoted st (parseCase_body m_dialect maxRecursionDepth u256 pB st).
Proof.
  intros HB st. pose proof parseElementaryOperation_silent as HO.
  unfold parseCase_body. unfold_monad.
  repeat fstep; try solve [nfinish].
Qed.

Lemma parseForLoop_body_noted (pB : M Block) (pE : M Expression) :
  (forall st, frame blockNoted st (pB st)) ->
  (forall st, frame silentRun st (pE st)) ->
  forall st, frame statementNoted st (parseForLoop_body pB pE st).
Proof.
  intros HB HE st. unfold parseForLoop_body. unfold_monad.
  repeat fstep; nfinish.
Qed.


Lemma parseFunctionDefinition_body_noted (pB : M Block) :
  (forall st, frame blockNoted st (pB st)) ->
  forall st,
    frame statementNoted st
          (parseFunctionDefinition_body m_dialect maxRecursionDepth pB st).
Proof.
  intros HB st. pose proof parseTypedName_silent as HT.
  pose proof expectAsmIdentifier_silent as HA.
  unfold parseFunctionDefinition_body. unfold_monad.
  repeat fstep; try solve [nfinish].
  all: nstep_while (list TypedName) (list TypedName);
    [ repeat fstep; nfinish | nfinish | | nfinish .. ].
  all: repeat fstep; try solve [nfinish].
  all: nstep_while (list TypedName) (list TypedName);
    [ repeat fstep; nfinish | nfinish | | nfinish .. ].
  all: repeat fstep; try solve [nfinish].
Qed.


Lemma parseSwitch_noted (pE : M Expression) (pC : M Case) :
  (forall st, frame silentRun st (pE st)) ->
  (forall st, frame caseNoted st (pC st)) ->
  forall st, frame statementNoted st (parseSwitch pE pC st).
Proof.
  intros HE HC st. unfold parseSwitch, parseCases. unfold_monad.
  repeat fstep; try solve [nfinish].
  fstep_while
    (fun (st' : PState) (l : list Case) =>
       statementNoted st st' (Switch (location st) a l))
    (fun (st' : PState) (l : list Case) =>
       statementNoted st st' (Switch (location st) a l)).
  - repeat fstep; try solve [nfinish].
  - nfinish.
  - repeat fstep; try solve [nfinish].
  - nfinish.
  - nfinish.
  - nfinish.
Qed.

Lemma parseAssignment_noted (pE : M Expression) :
  (forall st, frame silentRun st (pE st)) ->
  forall elementary st0 st,
    follows st0 st ->
    silentRun st0 st tt ->
    frame statementNoted st0
          (parseAssignment m_dialect maxRecursionDepth u256 pE elementary st).
Proof.
  intros HE elementary st0 st Hf Hsilent.
  pose proof parseElementaryOperation_silent as HO.
  unfold parseAssignment. unfold_monad.
  nstep_while (ElementaryOperation * list Identifier)%type
              (Identifier * list Identifier)%type.
  - destruct s as [e names]. cbv beta iota.
    repeat fstep; nfinish.
  - nfinish.
  - destruct a as [identifier names]. cbv beta iota.
    repeat fstep; try solve [nfinish].
  - nfinish.
  - nfinish.
  - nfinish.
Qed.

Lemma parseSimpleStatement_noted (pE : M Expression)
  (pC : ElementaryOperation -> M Expression) :
  (forall st, frame silentRun st (pE st)) ->
  (forall op st, frame silentRun st (pC op st)) ->
  forall st,
    frame statementNoted st
          (parseSimpleStatement m_dialect maxRecursionDepth u256 pE pC st).
Proof.
  intros HE HC st. pose proof parseElementaryOperation_silent as HO.
  unfold parseSimpleStatement.
  unfold bind at 1.
  pose proof (HO st) as Hs.
  destruct (parseElementaryOperation st) as [e st1| | |];
    cbn [frame] in Hs; try solve [nfinish].
  destruct Hs as (Hf & Hsilent).
  pose proof (@parseAssignment_noted pE HE e st st1 Hf Hsilent) as HA.
  unfold_monad.
  destruct (currentToken st1) eqn:Htok; try solve [nfinish]; try exact HA.
  repeat fstep; nfinish.
Qed.

Lemma parseStatement_body_noted
  (pVD pFD pFL : M Statement) (pB : M Block) (pE : M Expression)
  (pCase : M Case) (pCall : ElementaryOperation -> M Expression) :
  (forall st, frame statementNoted st (pVD st)) ->
  (forall st, frame statementNoted st (pFD st)) ->
  (forall st, frame statementNoted st (pFL st)) ->
  (forall st, frame blockNoted st (pB st)) ->
  (forall st, frame silentRun st (pE st)) ->
  (forall st, frame caseNoted st (pCase st)) ->
  (forall op st, frame silentRun st (pCall op st)) ->
  forall st,
    frame statementNoted st
          (parseStatement_body m_dialect maxRecursionDepth u256
             pVD pFD pFL pB pE pCase pCall st).
Proof.
  intros HVD HFD HFL HB HE HCase HCall st.
  pose proof (@parseSimpleStatement_noted pE pCall HE HCall st) as HSimple.
  pose proof (@parseSwitch_noted pE pCase HE HCase st) as HSwitch.
  unfold parseStatement_body. unfold bind at 1. unfold gets at 1.
  destruct (currentToken st) eqn:Htok; try exact HSimple; auto.
  - (* { *) clear HSimple HSwitch. unfold_monad. repeat fstep; nfinish.
  - (* if *) clear HSimple HSwitch. unfold_monad. repeat fstep; nfinish.
  - (* break *) clear HSimple HSwitch. unfold_monad. repeat fstep; nfinish.
  - (* continue *) clear HSimple HSwitch. unfold_monad.
    repeat fstep; nfinish.
  - (* identifier *) clear HSwitch. unfold bind at 1. unfold gets at 1.
    destruct (String.eqb (currentLiteral st) "leave"); [ | exact HSimple ].
    clear HSimple. unfold_monad. repeat fstep; nfinish.
Qed.

(** Every production that returns has recorded the notes of what it returns,
    by the position its context fields gave at entry, and nothing else. *)
Lemma productions_noted (f : nat) :
  (forall st, frame blockNoted st (parseBlock f st))
  /\ (forall st, frame statementNoted st (parseStatement f st))
  /\ (forall st, frame caseNoted st (parseCase f st))
  /\ (forall st, frame statementNoted st (parseForLoop f st))
  /\ (forall st, frame statementNoted st (parseFunctionDefinition f st)).
Proof.
  induction f as [|f (IHB & IHS & IHC & IHL & IHF)].
  - repeat split; intros; cbn [parseBlock parseStatement parseCase parseForLoop
                                parseFunctionDefinition];
      apply recursionGuard_outOfFuel_frame.
  - repeat split; intros;
      cbn [parseBlock parseStatement parseCase parseForLoop
           parseFunctionDefinition].
    + apply recursionGuard_frame; [ | apply guard_blockNoted ].
      intros st0. apply parseBlock_body_noted. exact IHS.
    + apply recursionGuard_frame; [ | apply guard_statementNoted ].
      intros st0. apply parseStatement_body_noted; auto.
      * intros; apply parseVariableDeclaration_noted.
      * intros; apply parseExpression_silent.
      * intros; apply parseCall_silent.
    + apply recursionGuard_frame; [ | apply guard_caseNoted ].
      intros st0. apply parseCase_body_noted. exact IHB.
    + apply recursionGuard_frame; [ | apply guard_statementNoted ].
      intros st0. apply parseForLoop_body_noted; auto.
      intros; apply parseExpression_silent.
    + apply recursionGuard_frame; [ | apply guard_statementNoted ].
      intros st0. apply parseFunctionDefinition_body_noted; auto.
Qed.

End NoteProperties.

(** ** Keywords, functions and loops in their place *)

Section NoteClaims.

Variable m_dialect : Dialect.
Variable maxRecursionDepth : nat.
Variable u256 : string -> option N.

Local Abbreviation recursionGuard := (@recursionGuard maxRecursionDepth).
Local Abbreviation parseExpression :=
  (parseExpression m_dialect maxRecursionDepth u256).
Local Abbreviation parseBlock := (parseBlock m_dialect maxRecursionDepth u256).
Local Abbreviation parseStatement :=
  (parseStatement m_dialect maxRecursionDepth u256).
Local Abbreviation parseForLoop :=
  (parseForLoop m_dialect maxRecursionDepth u256).
Local Abbreviation parseFunctionDefinition :=
  (parseFunctionDefinition m_dialect maxRecursionDepth u256).
Local Abbreviation parseTry := (parseTry m_dialect maxRecursionDepth u256).
Local Abbreviation parse := (parse m_dialect maxRecursionDepth u256).

Lemma parseTry_noted f reuse st : frame blockNoted st (parseTry f reuse st).
Proof.
  pose proof (proj1 (productions_noted m_dialect maxRecursionDepth u256 f))
    as HB.
  unfold parseTry. unfold_monad. repeat fstep; nfinish.
Qed.

Lemma parse_noted fuel sc reuse st b st' :
  parse fuel sc reuse st = Returned (Some b) st' ->
  notesOf st'
  = notesOf st
    ++ blockNotes (m_currentForLoopComponent st) (m_insideFunction st) b.
Proof.
  unfold parse.
  pose proof (parseTry_noted fuel reuse (parseEntry sc st)) as H.
  destruct (parseTry fuel reuse (parseEntry sc st)) as [b0 st0| st0 | |];
    cbn [frame] in H; try discriminate.
  - intros E. injection E as <- <-.
    unfold parseEntry, resetScanner in *. fbase. nsolve.
  - destruct (m_errors st0); discriminate.
Qed.

(** The diagnostics added between two states, when the later ones are the
    earlier ones and the notes [notes]. *)
Lemma added_notes (st st' : PState) (notes : list (Z * string)) :
  prefixOf (m_errors st) (m_errors st') ->
  fatalCount (m_errors st') = fatalCount (m_errors st) ->
  notesOf st' = notesOf st ++ notes ->
  exists new,
    m_errors st' = m_errors st ++ new
    /\ Forall (fun e => isSyntaxError e = true) new
    /\ map noteOf new = notes.
Proof.
  intros (new & Hnew) Hcount Hnotes. exists new. split; [exact Hnew|].
  unfold notesOf in Hnotes. rewrite Hnew in Hcount, Hnotes.
  rewrite fatalCount_app in Hcount. rewrite map_app in Hnotes.
  apply app_inv_head in Hnotes. split; [|exact Hnotes].
  apply fatalCount_none. lia.
Qed.


(** C8: [break] and [continue] outside a loop body, and [leave] outside a
    function, record the recoverable error of the specification's table, and
    in every case the statement is returned and the keyword consumed, so
    that parsing goes on; in a loop body, and for [leave] inside a function,
    nothing is recorded.  Where a keyword stands decides: the diagnostics of
    a tree that is returned are the recoverable ones that [blockNotes] reads
    off the positions of its nodes, in the order of the text, and no
    others. *)
Theorem misplaced_keywords_recoverable :
  (forall f st,
      m_recursionDepth st < maxRecursionDepth ->
      (currentToken st = Token.Break ->
       parseStatement (S f) st =
       Ok (Break (location st))
          (skipToken
             (noted (misplacedMessage "break" (m_currentForLoopComponent st))
                    st)))
      /\ (currentToken st = Token.Continue ->
          parseStatement (S f) st =
          Ok (Continue (location st))
             (skipToken
                (noted (misplacedMessage "continue"
                          (m_currentForLoopComponent st)) st)))
      /\ (currentToken st = Token.Identifier ->
          currentLiteral st = "leave" ->
          parseStatement (S f) st =
          Ok (Leave (location st))
             (skipToken
                (noted (if m_insideFunction st then None
                        else Some ("Keyword " ++ dquote ++ "leave" ++ dquote
                                   ++ " can only be used inside a function.")
                                  %string)
                       st)))
      /\ (m_currentForLoopComponent st = ForLoopComponent.ForLoopBody ->
          (currentToken st = Token.Break ->
           parseStatement (S f) st
           = Ok (Break (location st)) (skipToken st))
          /\ (currentToken st = Token.Continue ->
              parseStatement (S f) st
              = Ok (Continue (location st)) (skipToken st))))
  /\ (forall fuel sc reuse st b st',
        parse fuel sc reuse st = Returned (Some b) st' ->
        exists new,
          m_errors st' = m_errors st ++ new
          /\ Forall (fun e => isSyntaxError e = true) new
          /\ map noteOf new
             = blockNotes (m_currentForLoopComponent st)
                          (m_insideFunction st) b)
  /\ (forall f st s st',
        parseStatement f st = Ok s st' ->
        exists new,
          m_errors st' = m_errors st ++ new
          /\ Forall (fun e => isSyntaxError e = true) new
          /\ map noteOf new
             = statementNotes (m_currentForLoopComponent st)
                              (m_insideFunction st) s).
Proof.
  split; [|split].
  - intros f st Hd.
    destruct (@keyword_statement_returned m_dialect maxRecursionDepth u256 f
                st Hd) as (HB & HC & HL & _).
    split; [exact HB|]. split; [exact HC|]. split; [exact HL|].
    intros Hbody.
    split; intros Ht; [rewrite (HB Ht) | rewrite (HC Ht)]; rewrite Hbody;
      reflexivity.
  - intros fuel sc reuse st b st' E. apply added_notes.
    + pose proof (parse_frame m_dialect maxRecursionDepth u256 fuel sc reuse
                    st) as H.
      rewrite E in H. apply H.
    + pose proof (parse_post m_dialect maxRecursionDepth u256 fuel sc reuse
                    st) as H.
      rewrite E in H. apply H.
    + eapply parse_noted. exact E.
  - intros f st s st' E. apply added_notes.
    + pose proof (parseStatement_frame m_dialect maxRecursionDepth u256 f st)
        as H.
      rewrite E in H. apply H.
    + pose proof (parseStatement_post m_dialect maxRecursionDepth u256 f st)
        as H.
      rewrite E in H. apply H.
    + pose proof (proj1 (proj2 (productions_noted m_dialect maxRecursionDepth
                                  u256 f)) st) as H.
      rewrite E in H. apply H.
Qed.


(** *** Functions and loops *)

Lemma In_blockNotes c inside (s : Statement) (b : Block) (n : Z * string) :
  In s (block_statements b) -> In n (statementNotes c inside s) ->
  In n (blockNotes c inside b).
Proof.
  destruct b as [l statements]. cbn [block_statements blockNotes].
  intros Hs Hn. apply in_flat_map. eauto.
Qed.

Lemma parseFunctionDefinition_noting f st :
  m_recursionDepth st < maxRecursionDepth ->
  m_currentForLoopComponent st = ForLoopComponent.ForLoopPre ->
  parseFunctionDefinition (S f) st
  = onReturn (setCurrentForLoopComponent ForLoopComponent.ForLoopPre)
      (parseFunctionDefinition (S f)
         (setCurrentForLoopComponent ForLoopComponent.None
            (noted (Some functionInInit) st))).
Proof.
  intros Hd Hc.
  change (parseFunctionDefinition (S f) st)
    with (recursionGuard
            (fun st0 =>
               parseFunctionDefinition_body m_dialect maxRecursionDepth
                 (fun st' => parseBlock f st') st0) st).
  change (parseFunctionDefinition (S f)
            (setCurrentForLoopComponent ForLoopComponent.None
               (noted (Some functionInInit) st)))
    with (recursionGuard
            (fun st0 =>
               parseFunctionDefinition_body m_dialect maxRecursionDepth
                 (fun st' => parseBlock f st') st0)
            (setCurrentForLoopComponent ForLoopComponent.None
               (noted (Some functionInInit) st))).
  rewrite !guard_passes by assumption.
  unfold parseFunctionDefinition_body. unfold_monad.
  destruct st as [sc es d i c]. cbn [m_currentForLoopComponent] in Hc.
  subst c. unfold noted, functionInInit, entered. fnorm.
  cbv beta iota delta [setErrors setRecursionDepth setCurrentForLoopComponent
                       setInsideFunction setScanner].
  cbn [m_scanner m_errors m_recursionDepth m_insideFunction
       m_currentForLoopComponent].
  repeat match goal with
  | |- context [match ?x with _ => _ end] =>
      lazymatch x with
      | while _ _ _ => destruct x
      | context [match _ with _ => _ end] => fail
      | _ => destruct x
      end;
      cbv beta iota;
      cbn [onReturn m_scanner m_errors m_recursionDepth m_insideFunction
           m_currentForLoopComponent Nat.pred]
  end; reflexivity.
Qed.


(** X21: a function definition among the statements of the init block of a
    loop that is returned has its recoverable error in the sink, at the begin
    of the definition; and the definition is parsed all the same: once the
    error is noted, the run is the one of a definition outside any loop, and
    only the component is put back differently. *)
Theorem function_in_init_block_noted :
  (forall f st l pre condition post body st' lf name parameters
          returnVariables fbody,
      parseForLoop f st = Ok (ForLoop l pre condition post body) st' ->
      In (FunctionDefinition lf name parameters returnVariables fbody)
         (block_statements pre) ->
      exists front e rest,
        m_errors st' = m_errors st ++ front ++ e :: rest
        /\ isSyntaxError e = true
        /\ noteOf e = (loc_start lf, functionInInit))
  /\ (forall f st,
        m_recursionDepth st < maxRecursionDepth ->
        m_currentForLoopComponent st = ForLoopComponent.ForLoopPre ->
        parseFunctionDefinition (S f) st
        = onReturn (setCurrentForLoopComponent ForLoopComponent.ForLoopPre)
            (parseFunctionDefinition (S f)
               (setCurrentForLoopComponent ForLoopComponent.None
                  (noted (Some functionInInit) st)))).
Proof.
  split; [|apply parseFunctionDefinition_noting].
  intros f st l pre condition post body st' lf name parameters
         returnVariables fbody E Hin.
  destruct (@added_notes st st'
              (statementNotes (m_currentForLoopComponent st)
                 (m_insideFunction st) (ForLoop l pre condition post body)))
    as (new & Hnew & Hsyntax & Hnotes).
  - pose proof (proj1 (proj2 (proj2 (proj2
                  (productions_frame m_dialect maxRecursionDepth u256 f))))
                  st) as H.
    rewrite E in H. apply H.
  - pose proof (parseForLoop_post m_dialect maxRecursionDepth u256 f st) as H.
    rewrite E in H. apply H.
  - pose proof (proj1 (proj2 (proj2 (proj2
                  (productions_noted m_dialect maxRecursionDepth u256 f))))
                  st) as H.
    rewrite E in H. apply H.
  - assert (Hn : In (loc_start lf, functionInInit) (map noteOf new)).
    { rewrite Hnotes. cbn [statementNotes]. apply in_or_app. left.
      eapply In_blockNotes; [exact Hin|]. cbn [statementNotes]. left.
      reflexivity. }
    apply in_map_iff in Hn. destruct Hn as (e & He & Hine).
    destruct (in_split _ _ Hine) as (front & rest & ->).
    exists front, e, rest. repeat split; auto.
    rewrite Forall_forall in Hsyntax. apply Hsyntax, Hine.
Qed.

Lemma parseFunctionDefinition_body_context (pB : M Block) st :
  match parseFunctionDefinition_body m_dialect maxRecursionDepth pB st with
  | Ok s st' =>
      exists name parameters returnVariables body st1 st2,
        pB (setInsideFunction true st1) = Ok body st2
        /\ m_currentForLoopComponent st1 = ForLoopComponent.None
        /\ m_insideFunction st1 = m_insideFunction st
        /\ m_errors st1
           = m_errors
               (noted (match m_currentForLoopComponent st with
                       | ForLoopComponent.ForLoopPre => Some functionInInit
                       | _ => None
                       end) st)
        /\ suffixOf (tokens st1) (tokens st)
        /\ s = FunctionDefinition
                 (mkLoc (loc_start (location st))
                        (loc_end (block_location body)))
                 name parameters returnVariables body
        /\ st' = setCurrentForLoopComponent (m_currentForLoopComponent st)
                   (setInsideFunction (m_insideFunction st) st2)
  | _ => True
  end.
Proof.
  pose proof (parseTypedName_silent m_dialect maxRecursionDepth) as HT.
  pose proof (expectAsmIdentifier_silent m_dialect) as HA.
  unfold parseFunctionDefinition_body. unfold_monad.
  repeat fstep; try exact I.
  all: try (nstep_while (list TypedName) (list TypedName);
            [ repeat fstep; nfinish | nfinish | | exact I .. ]).
  all: repeat fstep; try exact I.
  all: try (nstep_while (list TypedName) (list TypedName);
            [ repeat fstep; nfinish | nfinish | | exact I .. ]).
  all: repeat fstep; try exact I.
  all: do 6 eexists; (split; [eassumption|]);
    unfold noted, functionInInit in *; fbase; nsolve;
    try solve [solve_suffix].
Qed.


(** X22: the context a body is read in.  The body of a function that is
    returned was read with [m_insideFunction] set and no loop component,
    whatever the context of the definition, from a state that holds the
    diagnostics of the entry and the note of the init block, if any; the
    three blocks of a loop were read in the components init, post and
    body, and its condition in none, each from the state the one before
    left; and the state at the end is the one the body left with the context
    of the entry put back. *)
Theorem bodies_read_in_their_context f st s st' :
  (parseFunctionDefinition (S f) st = Ok s st' ->
   exists name parameters returnVariables body st1 st2,
     parseBlock f (setInsideFunction true st1) = Ok body st2
     /\ m_currentForLoopComponent st1 = ForLoopComponent.None
     /\ m_insideFunction st1 = m_insideFunction st
     /\ m_errors st1
        = m_errors
            (noted (match m_currentForLoopComponent st with
                    | ForLoopComponent.ForLoopPre => Some functionInInit
                    | _ => None
                    end) st)
     /\ suffixOf (tokens st1) (tokens st)
     /\ s = FunctionDefinition
              (mkLoc (loc_start (location st))
                     (loc_end (block_location body)))
              name parameters returnVariables body
     /\ st' = decreaseRecursionDepth
                (setCurrentForLoopComponent (m_currentForLoopComponent st)
                   (setInsideFunction (m_insideFunction st) st2)))
  /\ (parseForLoop (S f) st = Ok s st' ->
      exists pre st1 condition st2 post st3 body st4,
        parseBlock f
          (setCurrentForLoopComponent ForLoopComponent.ForLoopPre
             (skipToken (entered st))) = Ok pre st1
        /\ parseExpression f
             (setCurrentForLoopComponent ForLoopComponent.None st1)
           = Ok condition st2
        /\ parseBlock f
             (setCurrentForLoopComponent ForLoopComponent.ForLoopPost st2)
           = Ok post st3
        /\ parseBlock f
             (setCurrentForLoopComponent ForLoopComponent.ForLoopBody st3)
           = Ok body st4
        /\ s = ForLoop
                 (mkLoc (loc_start (location st))
                        (loc_end (block_location body)))
                 pre condition post body
        /\ st' = decreaseRecursionDepth
                   (setCurrentForLoopComponent (m_currentForLoopComponent st)
                      st4)).
Proof.
  split.
  - change (parseFunctionDefinition (S f) st)
      with (recursionGuard
              (fun st0 =>
                 parseFunctionDefinition_body m_dialect maxRecursionDepth
                   (fun st' => parseBlock f st') st0) st).
    rewrite recursionGuard_eq. cbv zeta. fold (entered st).
    destruct (Nat.ltb maxRecursionDepth (S (m_recursionDepth st)));
      [discriminate|].
    pose proof (@parseFunctionDefinition_body_context
                  (fun st' => parseBlock f st') (entered st)) as H.
    destruct (parseFunctionDefinition_body m_dialect maxRecursionDepth
                (fun st' => parseBlock f st') (entered st));
      try discriminate.
    intros E. injection E as <- <-.
    destruct H as (name & parameters & returnVariables & body & st1 & st2
                   & H1 & H2 & H3 & H4 & H5 & H6 & H7).
    exists name, parameters, returnVariables, body, st1, st2.
    subst. repeat split; auto.
    change (m_currentForLoopComponent (entered st))
      with (m_currentForLoopComponent st) in H4.
    rewrite H4. destruct (m_currentForLoopComponent st); reflexivity.
  - change (parseForLoop (S f) st)
      with (recursionGuard
              (fun st0 =>
                 parseForLoop_body (fun st' => parseBlock f st')
                   (parseExpression f) st0) st).
    rewrite recursionGuard_eq. cbv zeta. fold (entered st).
    destruct (Nat.ltb maxRecursionDepth (S (m_recursionDepth st)));
      [discriminate|].
    unfold parseForLoop_body. unfold_monad.
    repeat fstep; try discriminate.
    intros E. injection E as <- <-.
    do 8 eexists. repeat split; eassumption.
Qed.

End NoteClaims.

(** ** The fatal error that is never raised *)

Lemma raisedOther_snoc (st : PState) (t : ErrorType.t) (l : SourceLocation)
  (msg : string) :
  String.prefix cannotAssign msg = false ->
  raisedOther (reportError t l msg st).
Proof.
  intros H. unfold raisedOther, reportError, setErrors. cbn [m_errors].
  rewrite back_snoc. unfold otherMessage. cbn [err_message]. rewrite H.
  reflexivity.
Qed.

Lemma raisedOther_depth (st : PState) (d : nat) :
  raisedOther st -> raisedOther (setRecursionDepth d st).
Proof. exact (fun H => H). Qed.

Lemma loop_unraised {T A} (body : T -> M (T + A)) (goodS : T -> Prop)
  (goodA : A -> Prop) :
  (forall s st, goodS s -> roundUnraised goodS goodA (body s st)) ->
  forall n s st, goodS s -> unraised goodA (loop n body s st).
Proof.
  intros Hb. induction n as [|n IH]; intros s st Hs; [exact I|].
  cbn [loop]. unfold bind. specialize (Hb s st Hs).
  destruct (body s st) as [[s'|a] st'| | |]; cbn in *; auto.
Qed.

Lemma while_unraised {T A} (body : T -> M (T + A)) (goodS : T -> Prop)
  (goodA : A -> Prop) :
  (forall s st, goodS s -> roundUnraised goodS goodA (body s st)) ->
  forall s st, goodS s -> unraised goodA (while body s st).
Proof.
  intros Hb s st Hs. unfold while.
  apply loop_unraised with (goodS := goodS); auto.
Qed.

(** One step of the execution, as [fstep], for [unraised]. *)
Ltac ustep :=
  match goal with
  | H : forall st, unraised _ (?p st) |- unraised _ (?p ?s) =>
      let Hs := fresh "Hs" in
      pose proof (H s) as Hs; destruct (p s); cbn [unraised] in Hs
  | H : forall x st, unraised _ (?p x st) |- unraised _ (?p ?x ?s) =>
      let Hs := fresh "Hs" in
      pose proof (H x s) as Hs; destruct (p x s); cbn [unraised] in Hs
  | H : forall st, unraised _ (?p st)
    |- context [match ?p ?s with _ => _ end] =>
      let Hs := fresh "Hs" in
      pose proof (H s) as Hs; destruct (p s); cbn [unraised] in Hs
  | H : forall x st, unraised _ (?p x st)
    |- context [match ?p ?x ?s with _ => _ end] =>
      let Hs := fresh "Hs" in
      pose proof (H x s) as Hs; destruct (p x s); cbn [unraised] in Hs
  | |- context [match ?x with _ => _ end] =>
      lazymatch x with
      | context [match _ with _ => _ end] => fail
      | while _ _ _ => fail
      | _ => destruct x eqn:?
      end
  end; cbv beta iota.

Ltac ustep_while gS gA :=
  match goal with
  | |- context [match while ?body ?s ?st with _ => _ end] =>
      let Hw := fresh "Hw" in
      assert (Hw : unraised gA (while body s st));
      [ apply while_unraised with (goodS := gS);
        [ let s' := fresh "s" in
          let st' := fresh "st" in
          let Hs := fresh "Hgood" in
          intros s' st' Hs; unfold_monad
        | ]
      | destruct (while body s st); cbn [unraised] in Hw; cbv beta iota ]
  end.

Ltac usolve :=
  cbn [unraised roundUnraised] in *;
  unfold anyValue, targetOK in *;
  first [ exact I
        | assumption
        | apply raisedOther_snoc; reflexivity
        | apply raisedOther_depth; assumption
        | congruence ].

Section Unraised.

Variable m_dialect : Dialect.
Variable maxRecursionDepth : nat.
Variable u256 : string -> option N.

Local Abbreviation recursionGuard := (@recursionGuard maxRecursionDepth).
Local Abbreviation expectAsmIdentifier := (expectAsmIdentifier m_dialect).
Local Abbreviation parseTypedName := (parseTypedName m_dialect maxRecursionDepth).
Local Abbreviation parseElementaryOperation :=
  (parseElementaryOperation m_dialect maxRecursionDepth u256).
Local Abbreviation parseExpression :=
  (parseExpression m_dialect maxRecursionDepth u256).
Local Abbreviation parseCall := (parseCall m_dialect maxRecursionDepth u256).
Local Abbreviation parseVariableDeclaration :=
  (parseVariableDeclaration m_dialect maxRecursionDepth u256).
Local Abbreviation parseBlock := (parseBlock m_dialect maxRecursionDepth u256).
Local Abbreviation parseStatement :=
  (parseStatement m_dialect maxRecursionDepth u256).
Local Abbreviation parseCase := (parseCase m_dialect maxRecursionDepth u256).
Local Abbreviation parseForLoop :=
  (parseForLoop m_dialect maxRecursionDepth u256).
Local Abbreviation parseFunctionDefinition :=
  (parseFunctionDefinition m_dialect maxRecursionDepth u256).
Local Abbreviation parseTry := (parseTry m_dialect maxRecursionDepth u256).
Local Abbreviation parse := (parse m_dialect maxRecursionDepth u256).
Local Abbreviation targetOK := (targetOK m_dialect).

Lemma recursionGuard_unraised {A} (good : A -> Prop) (body : M A) :
  (forall st, unraised good (body st)) ->
  forall st, unraised good (recursionGuard body st).
Proof.
  intros Hb st. rewrite recursionGuard_eq. cbv zeta.
  destruct (Nat.ltb maxRecursionDepth (S (m_recursionDepth st))).
  - usolve.
  - specialize (Hb (setRecursionDepth (S (m_recursionDepth st)) st)).
    destruct (body (setRecursionDepth (S (m_recursionDepth st)) st));
      cbn [unraised] in *; auto.
Qed.

Lemma recursionGuard_outOfFuel_unraised {A} (good : A -> Prop) :
  forall st, unraised good (recursionGuard (fun st' => outOfFuel st') st).
Proof. apply recursionGuard_unraised. intros st. exact I. Qed.

Lemma expectAsmIdentifier_unraised :
  forall st, unraised anyValue (expectAsmIdentifier st).
Proof.
  intros st. unfold expectAsmIdentifier. unfold_monad.
  repeat ustep; usolve.
Qed.

Lemma parseTypedName_unraised :
  forall st, unraised anyValue (parseTypedName st).
Proof.
  unfold parseTypedName. apply recursionGuard_unraised.
  intros st. pose proof expectAsmIdentifier_unraised as HA.
  unfold_monad. repeat ustep; usolve.
Qed.

Lemma parseElementaryOperation_unraised :
  forall st, unraised targetOK (parseElementaryOperation st).
Proof.
  unfold parseElementaryOperation. apply recursionGuard_unraised.
  intros st. pose proof expectAsmIdentifier_unraised as HA.
  unfold_monad. repeat ustep; usolve.
Qed.


Lemma parseCall_body_unraised (pE : M Expression) :
  (forall st, unraised anyValue (pE st)) ->
  forall op st, unraised anyValue (parseCall_body m_dialect pE op st).
Proof.
  intros HE op st. unfold parseCall_body. unfold_monad.
  repeat ustep; try solve [usolve].
  all: ustep_while (@anyValue (list Expression)) (@anyValue (list Expression));
    [ repeat ustep; usolve | usolve | repeat ustep; usolve .. ].
Qed.

Lemma parseExpression_body_unraised
  (pC : ElementaryOperation -> M Expression) :
  (forall op st, unraised anyValue (pC op st)) ->
  forall st,
    unraised anyValue
             (parseExpression_body m_dialect maxRecursionDepth u256 pC st).
Proof.
  intros HC st. pose proof parseElementaryOperation_unraised as HO.
  unfold parseExpression_body. unfold_monad.
  repeat ustep; try solve [usolve].
Qed.

Lemma parseExpression_parseCall_unraised f :
  (forall st, unraised anyValue (parseExpression f st))
  /\ (forall op st, unraised anyValue (parseCall f op st)).
Proof.
  induction f as [|f [IHE IHC]]; split; intros; cbn [parseExpression parseCall].
  - apply recursionGuard_outOfFuel_unraised.
  - apply recursionGuard_outOfFuel_unraised.
  - apply recursionGuard_unraised.
    intros st0. apply parseExpression_body_unraised. exact IHC.
  - apply recursionGuard_unraised.
    intros st0. apply parseCall_body_unraised. exact IHE.
Qed.

Lemma parseExpression_unraised f st :
  unraised anyValue (parseExpression f st).
Proof. apply parseExpression_parseCall_unraised. Qed.

Lemma parseCall_unraised f op st : unraised anyValue (parseCall f op st).
Proof. apply parseExpression_parseCall_unraised. Qed.

Lemma parseBlock_body_unraised (pS : M Statement) :
  (forall st, unraised anyValue (pS st)) ->
  forall st, unraised anyValue (parseBlock_body pS st).
Proof.
  intros HS st. unfold parseBlock_body. unfold_monad.
  repeat ustep; try solve [usolve].
  ustep_while (@anyValue (list Statement)) (@anyValue (list Statement));
    [ repeat ustep; usolve | usolve | repeat ustep; usolve .. ].
Qed.

Lemma parseVariableDeclaration_body_unraised (pE : M Expression) :
  (forall st, unraised anyValue (pE st)) ->
  forall st,
    unraised anyValue
             (parseVariableDeclaration_body m_dialect maxRecursionDepth pE st).
Proof.
  intros HE st. pose proof parseTypedName_unraised as HT.
  unfold parseVariableDeclaration_body. unfold_monad.
  repeat ustep; try solve [usolve].
  ustep_while (@anyValue (list TypedName)) (@anyValue (list TypedName));
    [ repeat ustep; usolve | usolve | repeat ustep; usolve .. ].
Qed.

Lemma parseVariableDeclaration_unraised f st :
  unraised anyValue (parseVariableDeclaration f st).
Proof.
  destruct f; unfold parseVariableDeclaration.
  - apply recursionGuard_outOfFuel_unraised.
  - apply recursionGuard_unraised.
    intros st0. apply parseVariableDeclaration_body_unraised.
    intros; apply parseExpression_unraised.
Qed.

Lemma parseCase_body_unraised (pB : M Block) :
  (forall st, unraised anyValue (pB st)) ->
  forall st,
    unraised anyValue
             (parseCase_body m_dialect maxRecursionDepth u256 pB st).
Proof.
  intros HB st. pose proof parseElementaryOperation_unraised as HO.
  unfold parseCase_body. unfold_monad.
  repeat ustep; try solve [usolve].
Qed.

Lemma parseForLoop_body_unraised (pB : M Block) (pE : M Expression) :
  (forall st, unraised anyValue (pB st)) ->
  (forall st, unraised anyValue (pE st)) ->
  forall st, unraised anyValue (parseForLoop_body pB pE st).
Proof.
  intros HB HE st. unfold parseForLoop_body. unfold_monad.
  repeat ustep; usolve.
Qed.

Lemma parseFunctionDefinition_body_unraised (pB : M Block) :
  (forall st, unraised anyValue (pB st)) ->
  forall st,
    unraised anyValue
             (parseFunctionDefinition_body m_dialect maxRecursionDepth pB st).
Proof.
  intros HB st. pose proof parseTypedName_unraised as HT.
  pose proof expectAsmIdentifier_unraised as HA.
  unfold parseFunctionDefinition_body. unfold_monad.
  repeat ustep; try solve [usolve].
  all: ustep_while (@anyValue (list TypedName)) (@anyValue (list TypedName));
    [ repeat ustep; usolve | usolve | | usolve .. ].
  all: repeat ustep; try solve [usolve].
  all: ustep_while (@anyValue (list TypedName)) (@anyValue (list TypedName));
    [ repeat ustep; usolve | usolve | | usolve .. ].
  all: repeat ustep; try solve [usolve].
Qed.

Lemma parseSwitch_unraised (pE : M Expression) (pC : M Case) :
  (forall st, unraised anyValue (pE st)) ->
  (forall st, unraised anyValue (pC st)) ->
  forall st, unraised anyValue (parseSwitch pE pC st).
Proof.
  intros HE HC st. unfold parseSwitch, parseCases. unfold_monad.
  repeat ustep; try solve [usolve].
  ustep_while (@anyValue (list Case)) (@anyValue (list Case));
    [ repeat ustep; usolve | usolve | repeat ustep; usolve .. ].
Qed.

(** The test of [parseStatement] on a target is never met: every operand
    that reaches it comes from [parseElementaryOperation], which returns no
    identifier that is a built-in. *)
Lemma parseAssignment_unraised (pE : M Expression) :
  (forall st, unraised anyValue (pE st)) ->
  forall elementary st,
    targetOK elementary ->
    unraised anyValue
             (parseAssignment m_dialect maxRecursionDepth u256 pE elementary
                st).
Proof.
  intros HE elementary st Htarget.
  pose proof parseElementaryOperation_unraised as HO.
  unfold parseAssignment. unfold_monad.
  ustep_while
    (fun s : ElementaryOperation * list Identifier => targetOK (fst s))
    (@anyValue (Identifier * list Identifier)).
  - destruct s as [e names]. cbn [fst] in *. cbv beta iota.
    repeat ustep; usolve.
  - exact Htarget.
  - destruct a as [identifier names]. cbv beta iota.
    repeat ustep; usolve.
  - usolve.
  - usolve.
  - usolve.
Qed.

Lemma parseSimpleStatement_unraised (pE : M Expression)
  (pC : ElementaryOperation -> M Expression) :
  (forall st, unraised anyValue (pE st)) ->
  (forall op st, unraised anyValue (pC op st)) ->
  forall st,
    unraised anyValue
             (parseSimpleStatement m_dialect maxRecursionDepth u256 pE pC st).
Proof.
  intros HE HC st. pose proof parseElementaryOperation_unraised as HO.
  unfold parseSimpleStatement.
  unfold bind at 1.
  pose proof (HO st) as Hs.
  destruct (parseElementaryOperation st) as [e st1| | |];
    cbn [unraised] in Hs; try solve [usolve].
  pose proof (@parseAssignment_unraised pE HE e st1 Hs) as HA.
  unfold_monad.
  destruct (currentToken st1) eqn:Htok; try solve [usolve]; try exact HA.
  repeat ustep; usolve.
Qed.

Lemma parseStatement_body_unraised
  (pVD pFD pFL : M Statement) (pB : M Block) (pE : M Expression)
  (pCase : M Case) (pCall : ElementaryOperation -> M Expression) :
  (forall st, unraised anyValue (pVD st)) ->
  (forall st, unraised anyValue (pFD st)) ->
  (forall st, unraised anyValue (pFL st)) ->
  (forall st, unraised anyValue (pB st)) ->
  (forall st, unraised anyValue (pE st)) ->
  (forall st, unraised anyValue (pCase st)) ->
  (forall op st, unraised anyValue (pCall op st)) ->
  forall st,
    unraised anyValue
             (parseStatement_body m_dialect maxRecursionDepth u256
                pVD pFD pFL pB pE pCase pCall st).
Proof.
  intros HVD HFD HFL HB HE HCase HCall st.
  pose proof (@parseSimpleStatement_unraised pE pCall HE HCall st) as HSimple.
  pose proof (@parseSwitch_unraised pE pCase HE HCase st) as HSwitch.
  unfold parseStatement_body. unfold bind at 1. unfold gets at 1.
  destruct (currentToken st) eqn:Htok; try exact HSimple; auto.
  - (* { *) clear HSimple HSwitch. unfold_monad. repeat ustep; usolve.
  - (* if *) clear HSimple HSwitch. unfold_monad. repeat ustep; usolve.
  - (* break *) clear HSimple HSwitch. unfold_monad. repeat ustep; usolve.
  - (* continue *) clear HSimple HSwitch. unfold_monad.
    repeat ustep; usolve.
  - (* identifier *) clear HSwitch. unfold bind at 1. unfold gets at 1.
    destruct (String.eqb (currentLiteral st) "leave"); [ | exact HSimple ].
    clear HSimple. unfold_monad. repeat ustep; usolve.
Qed.

(** No production unwinds with the error of an assignment to a
    built-in. *)
Lemma productions_unraised (f : nat) :
  (forall st, unraised anyValue (parseBlock f st))
  /\ (forall st, unraised anyValue (parseStatement f st))
  /\ (forall st, unraised anyValue (parseCase f st))
  /\ (forall st, unraised anyValue (parseForLoop f st))
  /\ (forall st, unraised anyValue (parseFunctionDefinition f st)).
Proof.
  induction f as [|f (IHB & IHS & IHC & IHL & IHF)].
  - repeat split; intros; cbn [parseBlock parseStatement parseCase parseForLoop
                                parseFunctionDefinition];
      apply recursionGuard_outOfFuel_unraised.
  - repeat split; intros;
      cbn [parseBlock parseStatement parseCase parseForLoop
           parseFunctionDefinition].
    + apply recursionGuard_unraised.
      intros st0. apply parseBlock_body_unraised. exact IHS.
    + apply recursionGuard_unraised.
      intros st0. apply parseStatement_body_unraised; auto.
      * intros; apply parseVariableDeclaration_unraised.
      * intros; apply parseExpression_unraised.
      * intros; apply parseCall_unraised.
    + apply recursionGuard_unraised.
      intros st0. apply parseCase_body_unraised. exact IHB.
    + apply recursionGuard_unraised.
      intros st0. apply parseForLoop_body_unraised; auto.
      intros; apply parseExpression_unraised.
    + apply recursionGuard_unraised.
      intros st0. apply parseFunctionDefinition_body_unraised; auto.
Qed.


Lemma parseTry_unraised f reuse st : unraised anyValue (parseTry f reuse st).
Proof.
  pose proof (proj1 (productions_unraised f)) as HB.
  unfold parseTry. unfold_monad. repeat ustep; usolve.
Qed.

Lemma runProduction_unraised p fuel st :
  unraised anyValue (runProduction m_dialect maxRecursionDepth u256 p fuel st).
Proof.
  assert (G : forall A (good : A -> Prop) (r : Result A),
             unraised good r -> unraised anyValue (forget r)).
  { intros A good r. destruct r; cbn; auto. intros _. exact I. }
  destruct p; cbn [runProduction]; eapply G.
  - apply productions_unraised.
  - apply productions_unraised.
  - apply productions_unraised.
  - apply productions_unraised.
  - apply parseExpression_unraised.
  - apply parseElementaryOperation_unraised.
  - apply parseVariableDeclaration_unraised.
  - apply productions_unraised.
  - apply parseCall_unraised.
  - apply parseTypedName_unraised.
Qed.

Lemma fatal_is_other (st st' : PState) :
  follows st st' /\ endsFatal st' -> raisedOther st' ->
  exists front e,
    m_errors st' = front ++ [e]
    /\ isParserError e = true
    /\ String.prefix cannotAssign (err_message e) = false.
Proof.
  intros (_ & front & e & He & Hfatal) Hother.
  exists front, e. repeat split; auto.
  unfold raisedOther in Hother. rewrite He, back_snoc in Hother.
  unfold otherMessage in Hother. apply negb_true_iff in Hother. exact Hother.
Qed.

(** The fatal error of an assignment to a built-in is never raised: whatever
    the input, a production that unwinds, and a parse that returns nothing,
    has another fatal error as its last diagnostic.  The message of
    [parseStatement] does begin with [cannotAssign]. *)
Lemma cannot_assign_never_raised :
  (forall p fuel st st',
      runProduction m_dialect maxRecursionDepth u256 p fuel st = Fatal st' ->
      exists front e,
        m_errors st' = front ++ [e]
        /\ isParserError e = true
        /\ String.prefix cannotAssign (err_message e) = false)
  /\ (forall fuel sc reuse st st',
        parse fuel sc reuse st = Returned None st' ->
        exists front e,
          m_errors st' = front ++ [e]
          /\ isParserError e = true
          /\ String.prefix cannotAssign (err_message e) = false)
  /\ (forall name,
        String.prefix cannotAssign
          ("Cannot assign to builtin function " ++ dquote ++ name ++ dquote
           ++ ".") = true)
  /\ (forall st i st',
        parseElementaryOperation st = Ok (ExprIdentifier i) st' ->
        builtin m_dialect (id_name i) = false).
Proof.
  split; [|split; [|split]].
  - intros p fuel st st' E.
    pose proof (runProduction_frame m_dialect maxRecursionDepth u256 p fuel st)
      as HF.
    pose proof (runProduction_unraised p fuel st) as HU.
    rewrite E in HF, HU. cbn [frame unraised] in HF, HU.
    exact (fatal_is_other HF HU).
  - intros fuel sc reuse st st'. unfold parse.
    pose proof (parseTry_frame m_dialect maxRecursionDepth u256 fuel reuse
                  (parseEntry sc st)) as HF.
    pose proof (parseTry_unraised fuel reuse (parseEntry sc st)) as HU.
    destruct (parseTry fuel reuse (parseEntry sc st)) as [b st0|st0| |];
      cbn [frame unraised] in HF, HU; try discriminate.
    destruct (m_errors st0) eqn:Hes; [discriminate|].
    intros E. injection E as <-.
    change (m_errors (resetScanner st0)) with (m_errors st0).
    exact (fatal_is_other HF HU).
  - intros name. reflexivity.
  - intros st i st' E.
    pose proof (parseElementaryOperation_unraised st) as HU.
    rewrite E in HU. exact HU.
Qed.

End Unraised.

(** ** Number literals that do not fit *)

Lemma parseDigits_decimal (s : string) (acc v : N) :
  parseDigits 10 s acc = Some v -> allDecimalDigits s = true.
Proof.
  revert acc. induction s as [|c s IH]; intros acc; cbn [parseDigits
    allDecimalDigits]; [reflexivity|].
  unfold digitValue, isDecimalDigit. cbv zeta.
  destruct ((48 <=? N_of_ascii c)%N && (N_of_ascii c <=? 57)%N);
    cbn [N.eqb andb]; [apply IH | discriminate].
Qed.

Lemma lexemeValue_form (l : string) (v : N) :
  lexemeValue l = Some v ->
  String.prefix "0x" l = true \/ allDecimalDigits l = true.
Proof.
  intros H. destruct (String.prefix "0x" l) eqn:P; [left; reflexivity|right].
  revert H P. destruct l as [|c1 l]; [discriminate|].
  destruct c1 as [[] [] [] [] [] [] [] []];
    try (intros H _; exact (parseDigits_decimal _ 0 H)).
  destruct l as [|c2 l]; [intros H _; exact (parseDigits_decimal _ 0 H)|].
  destruct c2 as [[] [] [] [] [] [] [] []];
    try (intros H _; exact (parseDigits_decimal _ 0 H)).
  intros _ P. destruct l; vm_compute in P; discriminate.
Qed.

Lemma u256_of_string_fits (l : string) :
  (exists v, u256_of_string l = Some v) <->
  (exists v, lexemeValue l = Some v /\ (v < 2 ^ 256)%N).
Proof.
  unfold u256_of_string. destruct (lexemeValue l) as [v|].
  - destruct (N.ltb_spec v (2 ^ 256)) as [Hlt|Hge].
    + split; intros _; eauto.
    + split; [intros (w & H); discriminate|].
      intros (w & H & Hw). injection H as ->. lia.
  - split; [intros (w & H); discriminate | intros (w & H & _); discriminate].
Qed.

(** C7: a lexeme is a valid number literal exactly when the conversion to
    a 256-bit unsigned integer accepts it and it either begins with [0x] or
    consists of decimal digits only; a number token with another lexeme is
    the fatal error "Invalid number literal.".  With the conversion of the
    specification, which refuses what does not fit, the valid lexemes are
    the numerals below 2^256, and a numeral from 2^256 on is not valid. *)
Theorem number_literal_validity :
  (forall (u256 : string -> option N) l,
      isValidNumberLiteral u256 l = true <->
      (exists v, u256 l = Some v)
      /\ (String.prefix "0x" l = true \/ allDecimalDigits l = true))
  /\ (forall m_dialect maxRecursionDepth u256 st,
        m_recursionDepth st < maxRecursionDepth ->
        currentToken st = Token.Number ->
        isValidNumberLiteral u256 (currentLiteral st) = false ->
        raises (parseElementaryOperation m_dialect maxRecursionDepth u256 st)
               (m_errors st) (location st) "Invalid number literal.")
  /\ (forall l,
        isValidNumberLiteral u256_of_string l = true <->
        (exists v, lexemeValue l = Some v /\ (v < 2 ^ 256)%N)
        /\ (String.prefix "0x" l = true \/ allDecimalDigits l = true))
  /\ (forall l v,
        lexemeValue l = Some v -> (2 ^ 256 <= v)%N ->
        isValidNumberLiteral u256_of_string l = false).
Proof.
  split; [|split; [|split]].
  - intros u256 l. apply isValidNumberLiteral_iff.
  - intros m_dialect maxRecursionDepth u256 st.
    apply invalid_number_literal.
  - intros l. rewrite isValidNumberLiteral_iff, u256_of_string_fits.
    reflexivity.
  - intros l v Hv Hge.
    destruct (isValidNumberLiteral u256_of_string l) eqn:E; [|reflexivity].
    apply isValidNumberLiteral_iff in E. destruct E as (Hfits & _).
    apply u256_of_string_fits in Hfits. destruct Hfits as (w & Hw & Hlt).
    rewrite Hv in Hw. injection Hw as ->. lia.
Qed.

Lemma number_literal_validity_witness :
  lexemeValue twoTo256 = Some (2 ^ 256)%N
  /\ isValidNumberLiteral u256_of_string twoTo256 = false
  /\ raises (parseElementaryOperation looseDialect 8 u256_of_string
               (reading [tk Token.Number twoTo256 11 89]))
            [] (mkLoc 11 89) "Invalid number literal.".
Proof.
  split; [vm_compute; reflexivity|]. split.
  - apply (proj2 (proj2 (proj2 number_literal_validity)) twoTo256
                 (2 ^ 256)%N); [vm_compute; reflexivity | lia].
  - apply (proj1 (proj2 number_literal_validity) looseDialect 8
                 u256_of_string (reading [tk Token.Number twoTo256 11 89])).
    + vm_compute. lia.
    + reflexivity.
    + vm_compute. reflexivity.
Defined.

Lemma misplaced_keywords_recoverable_witness :
  exists b st',
    parse looseDialect 8 u256_of_string 8 (scannerOf keywordsInPlaces) false
          freshParser = Returned (Some b) st'
    /\ (exists new,
          m_errors st' = m_errors freshParser ++ new
          /\ Forall (fun e => isSyntaxError e = true) new
          /\ map noteOf new = blockNotes ForLoopComponent.None false b)
    /\ blockNotes ForLoopComponent.None false b
       = [ (8%Z, ("Keyword " ++ dquote ++ "break" ++ dquote
                  ++ " in for-loop init block is not allowed.")%string);
           (20%Z, ("Keyword " ++ dquote ++ "continue" ++ dquote
                   ++ " in for-loop post block is not allowed.")%string);
           (60%Z, ("Keyword " ++ dquote ++ "break" ++ dquote
                   ++ " needs to be inside a for-loop body.")%string);
           (68%Z, ("Keyword " ++ dquote ++ "leave" ++ dquote
                   ++ " can only be used inside a function.")%string) ].
Proof.
  do 2 eexists. split; [vm_compute; reflexivity|]. split.
  - eapply (proj1 (proj2 (@misplaced_keywords_recoverable looseDialect 8
                            u256_of_string))
                  8 (scannerOf keywordsInPlaces) false freshParser).
    vm_compute. reflexivity.
  - vm_compute. reflexivity.
Defined.

Lemma function_in_init_block_noted_witness :
  exists l pre condition post body st' lf name parameters returnVariables
         fbody,
    parseForLoop looseDialect 8 u256_of_string 8 (reading loopWithFunction)
    = Ok (ForLoop l pre condition post body) st'
    /\ In (FunctionDefinition lf name parameters returnVariables fbody)
          (block_statements pre)
    /\ exists front e rest,
        m_errors st' = m_errors (reading loopWithFunction)
                       ++ front ++ e :: rest
        /\ isSyntaxError e = true
        /\ noteOf e = (loc_start lf, functionInInit).
Proof.
  do 11 eexists. split; [vm_compute; reflexivity|].
  split; [left; reflexivity|].
  eapply (proj1 (@function_in_init_block_noted looseDialect 8
                   u256_of_string)
                8 (reading loopWithFunction)).
  - vm_compute. reflexivity.
  - left. reflexivity.
Defined.

Lemma bodies_read_in_their_context_witness :
  exists s st',
    parseForLoop looseDialect 8 u256_of_string 8 (reading loopWithFunction)
    = Ok s st'
    /\ exists pre st1 condition st2 post st3 body st4,
        parseBlock looseDialect 8 u256_of_string 7
          (setCurrentForLoopComponent ForLoopComponent.ForLoopPre
             (skipToken (entered (reading loopWithFunction)))) = Ok pre st1
        /\ parseExpression looseDialect 8 u256_of_string 7
             (setCurrentForLoopComponent ForLoopComponent.None st1)
           = Ok condition st2
        /\ parseBlock looseDialect 8 u256_of_string 7
             (setCurrentForLoopComponent ForLoopComponent.ForLoopPost st2)
           = Ok post st3
        /\ parseBlock looseDialect 8 u256_of_string 7
             (setCurrentForLoopComponent ForLoopComponent.ForLoopBody st3)
           = Ok body st4
        /\ s = ForLoop
                 (mkLoc (loc_start (location (reading loopWithFunction)))
                        (loc_end (block_location body)))
                 pre condition post body
        /\ st' = decreaseRecursionDepth
                   (setCurrentForLoopComponent
                      (m_currentForLoopComponent (reading loopWithFunction))
                      st4).
Proof.
  do 2 eexists. split; [vm_compute; reflexivity|].
  eapply (proj2 (@bodies_read_in_their_context looseDialect 8 u256_of_string
                   7 (reading loopWithFunction) _ _)).
  vm_compute. reflexivity.
Defined.
